(** * Layout reconciliation in ocrd_segment

    A shallow embedding of the region plausibilisation of
    [ocrd_segment/repair.py] (planner and executor over the reading
    order) and of the detection post-processing of
    [ocrd_segment/classify_address_layout.py] (deduplication, mask
    vectorisation, stealing of text lines), with the properties its
    specification states about them; and, after these, of the rest of the
    two processors ([validate_coords] and the choice of a contour in
    [sanitize_page]; [page_get_all_regions] and the fill of [mark_line]),
    with properties that the code shows.

    Numbers that Python holds as floats (areas, scores, thresholds) are
    rationals here.  The geometry engine (shapely) and the raster
    operations (OpenCV) are external libraries: they enter as records of
    operations, and every statement below holds for any implementation
    of them.  Two small implementations, over axis-parallel boxes and over
    vertex rings, are used to run the definitions on concrete pages.

    Objects of the page (regions, lines, references of the reading order)
    are named by their ids or by their position, and what Python compares
    by identity is compared by these names.  The coordinates of a region
    are the polygon of its points; the transformations between the page
    and its image are the identity.  Messages to the log are left out,
    except where their arguments can raise, and in [validate_coords],
    which does nothing but log. *)

From Stdlib Require Import ZArith QArith List String Ascii DecimalString DecimalNat Lia Permutation Sorted.
From stdpp Require Import base option gmap strings list sorting.

(** ** Exceptions *)

(** The Python exceptions the modelled code can raise. *)
Inductive exn :=
| ZeroDivisionError
| ValueError
| IndexError
| AttributeError
| BackgroundClass. (* Exception('detected region for background class') *)

Inductive result (A : Type) :=
| Ok (a : A)
| Raise (e : exn).
Arguments Ok {A} a.
Arguments Raise {A} e.

#[global] Instance result_ret : MRet result := λ A a, Ok a.
#[global] Instance result_bind : MBind result :=
  λ A B f m, match m with Ok a => f a | Raise e => Raise e end.

(** ** Rationals as booleans *)

Definition Qlt_bool (x y : Q) : bool := negb (Qle_bool y x).
Definition Qeq_zero (x : Q) : bool := Qeq_bool x 0.

(** ** Python lists *)

(** [sorted] and [list.sort] are stable: an element goes before the first
    one that is not smaller. *)
Fixpoint insert_sorted {X} (le : X → X → bool) (x : X) (l : list X) : list X :=
  match l with
  | [] => [x]
  | y :: l' => if le x y then x :: l else y :: insert_sorted le x l'
  end.

Definition stable_sort {X} (le : X → X → bool) (l : list X) : list X :=
  foldr (insert_sorted le) [] l.

(** [list.remove(x)]: drops the first element equal to [x], and raises
    [ValueError] when there is none. *)
Fixpoint list_remove {X} (same : X → bool) (l : list X) : result (list X) :=
  match l with
  | [] => Raise ValueError
  | x :: l' =>
      if same x then Ok l'
      else l'' ← list_remove same l'; Ok (x :: l'')
  end.

(** [enumerate] *)
Definition enumerate {X} (l : list X) : list (nat * X) :=
  zip (seq 0 (length l)) l.

(** [l[i]] on a Python list or a numpy vector: a negative index counts
    from the end. *)
Definition py_index {X} (l : list X) (i : Z) : result X :=
  let k := if (i <? 0)%Z then (i + Z.of_nat (length l))%Z else i in
  if (k <? 0)%Z then Raise IndexError
  else match l !! Z.to_nat k with
       | Some x => Ok x
       | None => Raise IndexError
       end.

(** [range(a, b)] *)
Definition py_range (a b : Z) : list Z := seqZ a (b - a).

(** ** Python strings *)

(** [s.startswith(p)] *)
Definition startswith (s p : string) : bool := String.prefix p s.

(** [s.replace(old, new)] for a non-empty [old]: occurrences are replaced
    from the left and do not overlap; [skip] counts the characters of a
    replaced occurrence still to pass. *)
Fixpoint replace_from (old new : string) (skip : nat) (s : string) : string :=
  match s with
  | EmptyString => EmptyString
  | String c s' =>
      match skip with
      | S k => replace_from old new k s'
      | O =>
          if String.prefix old s
          then new +:+ replace_from old new (String.length old - 1) s'
          else String c (replace_from old new 0 s')
      end
  end.

Definition str_replace (old new s : string) : string := replace_from old new 0 s.

(** ['%02d' % n] *)
Definition fmt02 (n : nat) : string :=
  let digits := NilZero.string_of_uint (Nat.to_uint n) in
  if (n <? 10)%nat then "0" +:+ digits else digits.

(** ['\n'.join(l)] *)
Definition newline : string := String (ascii_of_nat 10) EmptyString.

Fixpoint join_lines (l : list string) : string :=
  match l with
  | [] => EmptyString
  | [x] => x
  | x :: l' => x +:+ newline +:+ join_lines l'
  end.

(** ** The geometry engine *)

Definition Point : Type := Z * Z.

(** The shapely operations the two processors call.  [Geom] is the type of
    geometry objects (polygons, and the multi-polygons a union can give). *)
Record Shapely := {
  Geom : Type;
  Polygon : list Point → Geom;
  area : Geom → Q;
  is_valid : Geom → bool;
  is_multipolygon : Geom → bool;          (* .type == 'MultiPolygon' *)
  almost_equals : Geom → Geom → bool;
  contains : Geom → Geom → bool;
  overlaps : Geom → Geom → bool;
  intersects : Geom → Geom → bool;
  crosses : Geom → Geom → bool;
  intersection : Geom → Geom → Geom;
  union : Geom → Geom → Geom;
  convex_hull : Geom → Geom;
  exterior : Geom → Geom;                 (* the polygon of .exterior.coords *)
  exterior_coords : Geom → list Point;    (* .exterior.coords, a closed ring *)
  buffer : Z → Geom → Geom;
  simplify : Z → Geom → Geom;
}.

(** [a.within(b)] is shapely's [b.contains(a)]. *)
Definition within (S : Shapely) (a b : Geom S) : bool := contains S b a.

(** ** Text lines and text regions of a page *)

(** The owner of a region: the page itself or another region (the
    [parent_object_] back-reference). *)
Inductive Owner :=
| OwnerPage
| OwnerRegion (rid : string).

#[global] Instance Owner_eq_dec : EqDecision Owner.
Proof. solve_decision. Defined.

(** ** The reading order *)

(** A group of the reading order holds three lists of children, named after
    the class of their elements without its [Type] suffix (the name
    [rogroup.__getattribute__] is called with).  The children of an ordered
    group carry an index; a group may carry a [regionRef] of its own. *)
#[warnings="-register-all"]
Inductive ogroup :=   (* OrderedGroupType, OrderedGroupIndexedType *)
| OGroup (RegionRefIndexed : list (Z * string))
         (OrderedGroupIndexed : list (Z * option string * ogroup))
         (UnorderedGroupIndexed : list (Z * option string * ugroup))
with ugroup :=        (* UnorderedGroupType, UnorderedGroupIndexedType *)
| UGroup (RegionRef : list string)
         (OrderedGroup : list (option string * ogroup))
         (UnorderedGroup : list (option string * ugroup)).

(** [ro.get_OrderedGroup() or ro.get_UnorderedGroup()], or no reading order. *)
Inductive rogroup :=
| NoGroup
| Ordered (g : ogroup)
| Unordered (g : ugroup).

(** Which of the three lists an element lives in. *)
Inductive cls :=
| ClsRegionRef
| ClsOrderedGroup
| ClsUnorderedGroup.

(** ** Raster masks and detections *)

(** A binary mask, row by row. *)
Definition Mask : Type := list (list bool).

Definition Contour : Type := list Point.

(** The OpenCV operations: dilation by a square kernel of ones, and the
    outer contours of a mask. *)
Record OpenCV := {
  dilate : Z → Mask → Mask;
  findContours : Mask → list Contour;
}.

(** One instance of the detector output [preds]: [class_ids[i]],
    [scores[i]], [masks[:,:,i]] and [rois[i]]. *)
Record Detection := {
  class_id : Z;
  score : Q;
  mask : Mask;
  roi : Z * Z * Z * Z;
}.

(** [imask * jmask] and [np.any] *)
Definition mask_mul (m1 m2 : Mask) : Mask := zip_with (zip_with andb) m1 m2.
Definition np_any (m : Mask) : bool := existsb (existsb (λ b : bool, b)) m.

(** [np.count_nonzero(mask)] *)
Definition count_nonzero (m : Mask) : Z :=
  Z.of_nat (length (List.filter (λ b : bool, b) (concat m))).

(** *** The pairwise stage: which detections are worse *)

(** [for j in range(i + 1, n)], for the detection [di] at index [i]. *)
Fixpoint worse_inner (di : Detection) (i : nat) (rest : list Detection) (j : nat)
    (worse : list nat) : list nat :=
  match rest with
  | [] => worse
  | dj :: rest' =>
      let worse' :=
        if np_any (mask_mul (mask di) (mask dj))
        then worse ++ [if Qlt_bool (score di) (score dj) then i else j]
        else worse in
      worse_inner di i rest' (S j) worse'
  end.

(** [for i in range(n)], over the detections from index [i] on. *)
Fixpoint worse_outer (preds : list Detection) (i : nat) (worse : list nat) : list nat :=
  match preds with
  | [] => worse
  | di :: rest => worse_outer rest (S i) (worse_inner di i rest (S i) worse)
  end.

Definition worse_of (preds : list Detection) : list nat := worse_outer preds 0 [].

(** *** The best score of the classes 1 and 2 *)

Definition best_step (worse : list nat) (best : list Q) (e : nat * Detection) : list Q :=
  let (i, d) := e in
  if bool_decide (i ∈ worse) then best
  else
    let cat := class_id d in
    if negb ((cat =? 1)%Z || (cat =? 2)%Z) then best
    else match best !! Z.to_nat cat with
         | Some b => if Qlt_bool b (score d) then <[Z.to_nat cat := score d]> best else best
         | None => best
         end.

(** [best = np.zeros(4)], then the second loop. *)
Definition best_of (worse : list nat) (preds : list Detection) : list Q :=
  foldl (best_step worse) [0%Q; 0%Q; 0%Q; 0%Q] (enumerate preds).

(** *** The head of the third loop *)

Inductive Selection :=
| Skip     (* continue *)
| Keep.

Definition select (worse : list nat) (best : list Q) (i : nat) (d : Detection)
    : result Selection :=
  if bool_decide (i ∈ worse) then Ok Skip
  else
    let cat := class_id d in
    if (cat =? 0)%Z then Raise BackgroundClass
    else
      b ← py_index best cat;
      if Qlt_bool (score d) b then Ok Skip else Ok Keep.

(** *** Vectorisation of a mask *)

(** [scale = int(np.sqrt(area)//10)], made odd. *)
Definition kernel_scale (area : Z) : Z :=
  let scale := (Z.sqrt area / 10)%Z in
  (scale + (scale + 1) mod 2)%Z.

(** [for _ in range(10)]: dilate until one contour is left. *)
Fixpoint dilate_rounds (CV : OpenCV) (rounds : nat) (scale : Z) (m : Mask)
    (contours : list Contour) : list Contour :=
  match rounds with
  | O => contours
  | S rounds' =>
      if (length contours =? 1)%nat then contours
      else
        let m' := dilate CV scale m in
        dilate_rounds CV rounds' scale m' (findContours CV m')
  end.

Section Simplify.
Context {G : Type} (simplify : Z → G → G) (is_valid : G → bool).

(** [for tolerance in tolerances: region_poly = region_poly.simplify(tolerance);
    if region_poly.is_valid: break] *)
Fixpoint simplify_loop (tolerances : list Z) (region_poly : G) : G :=
  match tolerances with
  | [] => region_poly
  | tolerance :: rest =>
      let region_poly' := simplify tolerance region_poly in
      if is_valid region_poly' then region_poly'
      else simplify_loop rest region_poly'
  end.

(** [for tolerance in range(2, int(area))] *)
Definition simplify_until_valid (area : Z) (region_poly : G) : G :=
  simplify_loop (py_range 2 area) region_poly.

End Simplify.

(** [coords[:-1]]: keep open *)
Definition keep_open (coords : list Point) : list Point := removelast coords.

(** *** The reading order as a dictionary *)

(** The [regionRef] of every element that [page_get_reading_order] visits,
    in the order of its visits: an element, then what is below it. *)
Fixpoint ro_elements_o (g : ogroup) : list (option string) :=
  match g with
  | OGroup rri ogi ugi =>
      map (λ e, Some e.2) rri
      ++ flat_map (λ e, e.1.2 :: ro_elements_o e.2) ogi
      ++ flat_map (λ e, e.1.2 :: ro_elements_u e.2) ugi
  end
with ro_elements_u (g : ugroup) : list (option string) :=
  match g with
  | UGroup rr og ug =>
      map Some rr
      ++ flat_map (λ e, e.1 :: ro_elements_o e.2) og
      ++ flat_map (λ e, e.1 :: ro_elements_u e.2) ug
  end.

Definition ro_elements (rog : rogroup) : list (option string) :=
  match rog with
  | NoGroup => []
  | Ordered g => ro_elements_o g
  | Unordered g => ro_elements_u g
  end.

(** The element objects of the reading order, by their place in
    [ro_elements], with their current [regionRef], and the dictionary
    [reading_order] from region ids to element objects. *)
Record ROState := {
  ro_elems : list (option string);
  reading_order : gmap string nat;
}.

Definition ro_set (d : gmap string nat) (e : nat * option string) : gmap string nat :=
  match e.2 with
  | Some r => <[r := e.1]> d
  | None => d
  end.

(** [page_get_reading_order(reading_order, rogroup)] *)
Definition page_get_reading_order (rog : rogroup) : ROState :=
  let elems := ro_elements rog in
  {| ro_elems := elems; reading_order := foldl ro_set ∅ (enumerate elems) |}.

Section Model.
Context (S : Shapely) (CV : OpenCV).

Record TextLineType := {
  line_id : string;
  line_custom : option string;
  line_Coords : Geom S;
  line_TextEquiv : option string;
}.

Record TextRegionType := {
  region_id : string;
  Coords : Geom S;
  conf : option Q;
  custom : option string;
  TextLine : list TextLineType;
  TextEquiv : option string;
  parent_object_ : option Owner;
}.

(** ** repair.py: the planner of [RepairSegmentation.process] *)

(** [RegionPolygon]: a region with the polygon of its coordinates, taken
    once before the comparison loop. *)
Record RegionPolygon := {
  region : TextRegionType;
  polygon : Geom S;
}.

Definition region_polygon_of (r : TextRegionType) : RegionPolygon :=
  {| region := r; polygon := Coords r |}.

(** [sorted(..., key=lambda x: x.polygon.area)]: a stable sort. *)
Definition area_le (x y : RegionPolygon) : bool :=
  Qle_bool (area S (polygon x)) (area S (polygon y)).

Definition sorted_by_area (l : list RegionPolygon) : list RegionPolygon :=
  stable_sort area_le l.

(** The two marks of the planner.  [mark_for_merging] maps the id of a
    region to its superregion (a region object, named by its id). *)
Record Plan := {
  mark_for_deletion : list string;
  mark_for_merging : gmap string string;
}.

Definition empty_plan : Plan :=
  {| mark_for_deletion := []; mark_for_merging := ∅ |}.

Definition delete_mark (rid : string) (p : Plan) : Plan :=
  {| mark_for_deletion := mark_for_deletion p ++ [rid];
     mark_for_merging := mark_for_merging p |}.

Definition merge_mark (rid super : string) (p : Plan) : Plan :=
  {| mark_for_deletion := mark_for_deletion p;
     mark_for_merging := <[rid := super]> (mark_for_merging p) |}.

(** The branch of the if/elif chain a pair takes. *)
Inductive Relation :=
| Equal
| Contains12     (* poly1.contains(poly2) *)
| Contains21     (* poly2.contains(poly1) *)
| Overlaps
| Unrelated.

Definition classify (poly1 poly2 : Geom S) : Relation :=
  if almost_equals S poly1 poly2 then Equal
  else if contains S poly1 poly2 then Contains12
  else if contains S poly2 poly1 then Contains21
  else if overlaps S poly1 poly2 then Overlaps
  else Unrelated.

(** [a / b] on floats: raises on a zero divisor. *)
Definition py_div (a b : Q) : result Q :=
  if Qeq_zero b then Raise ZeroDivisionError else Ok (a / b)%Q.

(** The body of the inner loop for [regionspolys[i]] and [regionspolys[j]],
    [i < j]. *)
Definition compare_pair (min_overlap : Q) (rp1 rp2 : RegionPolygon) (p : Plan) : result Plan :=
  let region1 := region rp1 in
  let region2 := region rp2 in
  let poly1 := polygon rp1 in
  let poly2 := polygon rp2 in
  match classify poly1 poly2 with
  | Equal => Ok (delete_mark (region_id region2) p)
  | Contains12 => Ok (delete_mark (region_id region2) p)
  | Contains21 => Ok (delete_mark (region_id region1) p)
  | Overlaps =>
      let inter_poly := intersection S poly1 poly2 in
      let union_poly := union S poly1 poly2 in
      (* the arguments of LOG.debug are evaluated first *)
      ra ← py_div (area S inter_poly) (area S poly1);
      rb ← py_div (area S inter_poly) (area S poly2);
      if Qle_bool (area S poly1 + area S poly2) (area S (convex_hull S union_poly))
      then Ok p
      else if Qlt_bool min_overlap rb
      then Ok (merge_mark (region_id region2) (region_id region1) p)
      else if Qlt_bool min_overlap ra
      then Ok (merge_mark (region_id region1) (region_id region2) p)
      else Ok p
  | Unrelated => Ok p
  end.

(** [for j in range(i+1, len(regionspolys))] *)
Fixpoint compare_with_rest (min_overlap : Q) (rp1 : RegionPolygon)
    (rest : list RegionPolygon) (p : Plan) : result Plan :=
  match rest with
  | [] => Ok p
  | rp2 :: rest' =>
      p' ← compare_pair min_overlap rp1 rp2 p;
      compare_with_rest min_overlap rp1 rest' p'
  end.

(** [for i in range(0, len(regionspolys))] *)
Fixpoint compare_all (min_overlap : Q) (rps : list RegionPolygon) (p : Plan) : result Plan :=
  match rps with
  | [] => Ok p
  | rp1 :: rest =>
      p' ← compare_with_rest min_overlap rp1 rest p;
      compare_all min_overlap rest p'
  end.

Definition regionspolys (regions : list TextRegionType) : list RegionPolygon :=
  sorted_by_area (map region_polygon_of regions).

(** The plan [process] computes for the text regions of a page. *)
Definition plan_page (min_overlap : Q) (regions : list TextRegionType) : result Plan :=
  compare_all min_overlap (regionspolys regions) empty_plan.

(** ** repair.py: [_plausibilize_group] *)

(** The mutable part of a page: the region objects (by id, which names an
    object), the [TextRegion] list of the page and those of the regions
    that own regions. *)
Record PageState := {
  objects : gmap string TextRegionType;
  page_TextRegion : list string;
  sub_TextRegion : gmap string (list string);
}.

Definition set_Coords (c : Geom S) (r : TextRegionType) : TextRegionType :=
  {| region_id := region_id r; Coords := c; conf := conf r; custom := custom r;
     TextLine := TextLine r; TextEquiv := TextEquiv r;
     parent_object_ := parent_object_ r |}.

(** [superpoly = Polygon(superreg coords).union(poly)], written back as the
    exterior of the union. *)
Definition merge_into (super : string) (poly : Geom S) (st : PageState) : PageState :=
  {| objects := alter (λ r, set_Coords (exterior S (union S (Coords r) poly)) r)
                      super (objects st);
     page_TextRegion := page_TextRegion st;
     sub_TextRegion := sub_TextRegion st |}.

(** [owner.get_TextRegion().remove(region)] *)
Definition remove_region (owner : Owner) (rid : string) (st : PageState) : result PageState :=
  match owner with
  | OwnerPage =>
      l ← list_remove (String.eqb rid) (page_TextRegion st);
      Ok {| objects := objects st; page_TextRegion := l;
            sub_TextRegion := sub_TextRegion st |}
  | OwnerRegion o =>
      l ← list_remove (String.eqb rid) (default [] (sub_TextRegion st !! o));
      Ok {| objects := objects st; page_TextRegion := page_TextRegion st;
            sub_TextRegion := <[o := l]> (sub_TextRegion st) |}
  end.

(** The last loop: [for region in wait_for_deletion]. *)
Fixpoint delete_regions (wait : list TextRegionType) (st : PageState) : result PageState :=
  match wait with
  | [] => Ok st
  | r :: wait' =>
      st' ← match parent_object_ r with
            | Some owner => remove_region owner (region_id r) st
            | None => Ok st
            end;
      delete_regions wait' st'
  end.

Section Level.
Context {A B C : Type}.
Context (refA : A → option string) (refB : B → option string) (refC : C → option string).

(** The children of one group.  Every element object carries the position
    it has in [regionrefs] on entry: elements are compared by identity. *)
Record Children := {
  c_refs : list (nat * A);
  c_ogroups : list (nat * B);
  c_ugroups : list (nat * C);
}.

Definition label_from {X} (start : nat) (l : list X) : list (nat * X) :=
  zip (seq start (length l)) l.

Definition label_children (a : list A) (b : list B) (c : list C) : Children :=
  {| c_refs := label_from 0 a;
     c_ogroups := label_from (length a) b;
     c_ugroups := label_from (length a + length b) c |}.

(** [reading_order[elem.get_regionRef()] = elem]; a key [None] is never
    looked up and is left out. *)
Definition dict_set {X} (k : cls) (ref : X → option string)
    (d : gmap string (cls * nat)) (e : nat * X) : gmap string (cls * nat) :=
  match ref e.2 with
  | Some r => <[r := (k, e.1)]> d
  | None => d
  end.

Definition reading_order_dict (ch : Children) : gmap string (cls * nat) :=
  foldl (dict_set ClsUnorderedGroup refC)
    (foldl (dict_set ClsOrderedGroup refB)
       (foldl (dict_set ClsRegionRef refA) ∅ (c_refs ch))
       (c_ogroups ch))
    (c_ugroups ch).

Definition has_label {X} (lbl : nat) (e : nat * X) : bool := Nat.eqb e.1 lbl.

(** [rogroup.__getattribute__(name).remove(regionref)] *)
Definition remove_child (k : cls) (lbl : nat) (ch : Children) : result Children :=
  match k with
  | ClsRegionRef =>
      l ← list_remove (has_label lbl) (c_refs ch);
      Ok {| c_refs := l; c_ogroups := c_ogroups ch; c_ugroups := c_ugroups ch |}
  | ClsOrderedGroup =>
      l ← list_remove (has_label lbl) (c_ogroups ch);
      Ok {| c_refs := c_refs ch; c_ogroups := l; c_ugroups := c_ugroups ch |}
  | ClsUnorderedGroup =>
      l ← list_remove (has_label lbl) (c_ugroups ch);
      Ok {| c_refs := c_refs ch; c_ogroups := c_ogroups ch; c_ugroups := l |}
  end.

(** The state of the loop over [regionspolys].  [ls_regionrefs] is what the
    local variable [regionrefs] is bound to: [None] for the concatenation
    of the three lists built on entry, [Some k] for the list of class [k]
    of the group itself, after a removal has rebound it. *)
Record LevelState := {
  ls_children : Children;
  ls_regionrefs : option cls;
  ls_page : PageState;
  ls_wait : list TextRegionType;
}.

Definition visit_region (plan : Plan) (reading_order : gmap string (cls * nat))
    (rp : RegionPolygon) (ls : LevelState) : result LevelState :=
  let rid := region_id (region rp) in
  let delete := bool_decide (rid ∈ mark_for_deletion plan) in
  let merge := mark_for_merging plan !! rid in
  if delete || bool_decide (is_Some merge) then
    let page1 := match merge with
                 | Some super => merge_into super (polygon rp) (ls_page ls)
                 | None => ls_page ls
                 end in
    let wait := ls_wait ls ++ [region rp] in
    match reading_order !! rid with
    | Some (k, lbl) =>
        ch ← remove_child k lbl (ls_children ls);
        Ok {| ls_children := ch; ls_regionrefs := Some k;
              ls_page := page1; ls_wait := wait |}
    | None =>
        Ok {| ls_children := ls_children ls; ls_regionrefs := ls_regionrefs ls;
              ls_page := page1; ls_wait := wait |}
    end
  else Ok ls.

Fixpoint visit_regions (plan : Plan) (reading_order : gmap string (cls * nat))
    (rps : list RegionPolygon) (ls : LevelState) : result LevelState :=
  match rps with
  | [] => Ok ls
  | rp :: rps' =>
      ls' ← visit_region plan reading_order rp ls;
      visit_regions plan reading_order rps' ls'
  end.

(** Re-indexing, for an ordered group:
    [regionrefs.sort(key=get_index)], then [set_index(i)] along
    [enumerate(regionrefs)]. *)
Context (ixA : A → Z) (ixB : B → Z) (ixC : C → Z).
Context (setA : Z → A → A) (setB : Z → B → B) (setC : Z → C → C).

Definition index_le {X} (ix : X → Z) (e1 e2 : nat * X) : bool :=
  (ix e1.2 <=? ix e2.2)%Z.

(** The list is a list of the group: it is sorted in place. *)
Definition reindex_list {X} (ix : X → Z) (set : Z → X → X)
    (l : list (nat * X)) : list (nat * X) :=
  imap (λ i e, (e.1, set (Z.of_nat i) e.2)) (stable_sort (index_le ix) l).

Fixpoint position (lbl : nat) (order : list nat) : Z :=
  match order with
  | [] => 0
  | l :: order' => if Nat.eqb l lbl then 0 else 1 + position lbl order'
  end.

(** The list is the concatenation: the lists of the group keep their order,
    their elements get the index of their place in the sorted copy. *)
Definition reindex_all (ch : Children) : Children :=
  let all := map (λ e, (e.1, ixA e.2)) (c_refs ch)
             ++ map (λ e, (e.1, ixB e.2)) (c_ogroups ch)
             ++ map (λ e, (e.1, ixC e.2)) (c_ugroups ch) in
  let order := map fst (stable_sort (index_le (λ i : Z, i)) all) in
  {| c_refs := map (λ e, (e.1, setA (position e.1 order) e.2)) (c_refs ch);
     c_ogroups := map (λ e, (e.1, setB (position e.1 order) e.2)) (c_ogroups ch);
     c_ugroups := map (λ e, (e.1, setC (position e.1 order) e.2)) (c_ugroups ch) |}.

Definition reindex (regionrefs : option cls) (ch : Children) : Children :=
  match regionrefs with
  | None => reindex_all ch
  | Some ClsRegionRef =>
      {| c_refs := reindex_list ixA setA (c_refs ch);
         c_ogroups := c_ogroups ch; c_ugroups := c_ugroups ch |}
  | Some ClsOrderedGroup =>
      {| c_refs := c_refs ch;
         c_ogroups := reindex_list ixB setB (c_ogroups ch);
         c_ugroups := c_ugroups ch |}
  | Some ClsUnorderedGroup =>
      {| c_refs := c_refs ch; c_ogroups := c_ogroups ch;
         c_ugroups := reindex_list ixC setC (c_ugroups ch) |}
  end.

(** One call, once the nested groups have been processed. *)
Definition plausibilize_level (ordered : bool) (rps : list RegionPolygon) (plan : Plan)
    (a : list A) (b : list B) (c : list C) (st : PageState)
    : result (list A * list B * list C * PageState) :=
  let ch := label_children a b c in
  ls ← visit_regions plan (reading_order_dict ch) rps
         {| ls_children := ch; ls_regionrefs := None; ls_page := st; ls_wait := [] |};
  let ch' := if ordered then reindex (ls_regionrefs ls) (ls_children ls)
             else ls_children ls in
  st' ← delete_regions (ls_wait ls) (ls_page ls);
  Ok (map snd (c_refs ch'), map snd (c_ogroups ch'), map snd (c_ugroups ch'), st').

End Level.

Definition level_ordered :=
  plausibilize_level (A := Z * string) (B := Z * option string * ogroup)
    (C := Z * option string * ugroup)
    (λ e, Some e.2) (λ e, e.1.2) (λ e, e.1.2)
    (λ e, e.1) (λ e, e.1.1) (λ e, e.1.1)
    (λ i e, (i, e.2)) (λ i e, (i, e.1.2, e.2)) (λ i e, (i, e.1.2, e.2))
    true.

Definition level_unordered :=
  plausibilize_level (A := string) (B := option string * ogroup)
    (C := option string * ugroup)
    (λ e, Some e) (λ e, e.1) (λ e, e.1)
    (λ _, 0%Z) (λ _, 0%Z) (λ _, 0%Z)
    (λ _ e, e) (λ _ e, e) (λ _ e, e)
    false.

Fixpoint plausibilize_ordered (rps : list RegionPolygon) (plan : Plan)
    (g : ogroup) (st : PageState) {struct g} : result (ogroup * PageState) :=
  match g with
  | OGroup rri ogi ugi =>
      '(ogi1, st1) ←
        (fix nested l st :=
           match l with
           | [] => Ok ([], st)
           | (i, r, g') :: l' =>
               '(g1, st1) ← plausibilize_ordered rps plan g' st;
               '(l1, st2) ← nested l' st1;
               Ok ((i, r, g1) :: l1, st2)
           end) ogi st;
      '(ugi1, st2) ←
        (fix nested l st :=
           match l with
           | [] => Ok ([], st)
           | (i, r, g') :: l' =>
               '(g1, st1) ← plausibilize_unordered rps plan g' st;
               '(l1, st2) ← nested l' st1;
               Ok ((i, r, g1) :: l1, st2)
           end) ugi st1;
      '(a, b, c, st3) ← level_ordered rps plan rri ogi1 ugi1 st2;
      Ok (OGroup a b c, st3)
  end
with plausibilize_unordered (rps : list RegionPolygon) (plan : Plan)
    (g : ugroup) (st : PageState) {struct g} : result (ugroup * PageState) :=
  match g with
  | UGroup rr og ug =>
      '(og1, st1) ←
        (fix nested l st :=
           match l with
           | [] => Ok ([], st)
           | (r, g') :: l' =>
               '(g1, st1) ← plausibilize_ordered rps plan g' st;
               '(l1, st2) ← nested l' st1;
               Ok ((r, g1) :: l1, st2)
           end) og st;
      '(ug1, st2) ←
        (fix nested l st :=
           match l with
           | [] => Ok ([], st)
           | (r, g') :: l' =>
               '(g1, st1) ← plausibilize_unordered rps plan g' st;
               '(l1, st2) ← nested l' st1;
               Ok ((r, g1) :: l1, st2)
           end) ug st1;
      '(a, b, c, st3) ← level_unordered rps plan rr og1 ug1 st2;
      Ok (UGroup a b c, st3)
  end.

(** [_plausibilize_group(regionspolys, rogroup, mark_for_deletion,
    mark_for_merging)].  Without a reading order neither [isinstance]
    test holds, and the call runs over no children. *)
Definition _plausibilize_group (rps : list RegionPolygon) (rog : rogroup)
    (plan : Plan) (st : PageState) : result (rogroup * PageState) :=
  match rog with
  | NoGroup =>
      '(_, st') ← plausibilize_unordered rps plan (UGroup [] [] []) st;
      Ok (NoGroup, st')
  | Ordered g =>
      '(g', st') ← plausibilize_ordered rps plan g st;
      Ok (Ordered g', st')
  | Unordered g =>
      '(g', st') ← plausibilize_unordered rps plan g st;
      Ok (Unordered g', st')
  end.

(** The page as [process] finds it: [regions] is [page.get_TextRegion()]. *)
Definition page_of (regions : list TextRegionType) : PageState :=
  {| objects := list_to_map (map (λ r, (region_id r, r)) regions);
     page_TextRegion := map region_id regions;
     sub_TextRegion := ∅ |}.

(** [RepairSegmentation.process] on one page, after validation and
    without [sanitize]. *)
Definition repair_page (min_overlap : Q) (plausibilize : bool)
    (regions : list TextRegionType) (rog : rogroup) : result (rogroup * PageState) :=
  plan ← plan_page min_overlap regions;
  if plausibilize
  then _plausibilize_group (regionspolys regions) rog plan (page_of regions)
  else Ok (rog, page_of regions).

(** ** classify_address_layout.py: annotating the detections *)

Definition categories : list string :=
  [""; "address-rcpt"; "address-sndr"; "address-contact"].

(** The test [mark_line] makes before it draws a line into the alpha
    channel of the detector input: the line carries an address class. *)
Definition mark_line (line : TextLineType) : bool :=
  match line_custom line with
  | None => false
  | Some c =>
      if String.eqb c "" then false
      else
        let text_class := str_replace "subtype: " "" c in
        negb (negb (startswith text_class "ADDRESS_")
              || String.eqb text_class "ADDRESS_NONE")
  end.

(** The test that sets [has_address] for a stolen line:
    [line.get_custom() and line.get_custom().startswith('subtype: ADDRESS_')]. *)
Definition sets_has_address (line : TextLineType) : bool :=
  match line_custom line with
  | None => false
  | Some c => negb (String.eqb c "") && startswith c "subtype: ADDRESS_"
  end.

(** The new region of one detection while it looks at its neighbours. *)
Record Candidate := {
  cand : TextRegionType;     (* region *)
  region_poly : Geom S;
  has_address : bool;
  oldregions : list string;
}.

Record AddressState := {
  a_page : PageState;
  a_ro : ROState;
}.

Definition set_line_id (new : string) (l : TextLineType) : TextLineType :=
  {| line_id := new; line_custom := line_custom l;
     line_Coords := line_Coords l; line_TextEquiv := line_TextEquiv l |}.

Definition add_TextLine (l : TextLineType) (r : TextRegionType) : TextRegionType :=
  {| region_id := region_id r; Coords := Coords r; conf := conf r; custom := custom r;
     TextLine := TextLine r ++ [l]; TextEquiv := TextEquiv r;
     parent_object_ := parent_object_ r |}.

Definition set_TextEquiv (t : string) (r : TextRegionType) : TextRegionType :=
  {| region_id := region_id r; Coords := Coords r; conf := conf r; custom := custom r;
     TextLine := TextLine r; TextEquiv := Some t;
     parent_object_ := parent_object_ r |}.

(** The body of [for line in neighbour.get_TextLine()]. *)
Definition steal_line (c : Candidate) (line_no : nat) (line : TextLineType) : Candidate :=
  let has := if sets_has_address line then true else has_address c in
  let line' := set_line_id (region_id (cand c) +:+ "_line" +:+ fmt02 line_no) line in
  let region1 := add_TextLine line' (cand c) in
  let line_poly := line_Coords line in
  if within S line_poly (region_poly c)
  then {| cand := region1; region_poly := region_poly c;
          has_address := has; oldregions := oldregions c |}
  else
    let u := union S line_poly (region_poly c) in
    let region_poly' := if is_multipolygon S u then convex_hull S u else u in
    {| cand := set_Coords (Polygon S (keep_open (exterior_coords S region_poly'))) region1;
       region_poly := region_poly';
       has_address := has; oldregions := oldregions c |}.

Fixpoint steal_lines (c : Candidate) (line_no : nat) (lines : list TextLineType) : Candidate :=
  match lines with
  | [] => c
  | line :: lines' => steal_lines (steal_line c line_no line) (line_no + 1) lines'
  end.

(** The text of a region: the lines that have a text, joined by newlines. *)
Definition region_text (lines : list TextLineType) : string :=
  join_lines (omap line_TextEquiv lines).

(** The condition under which a neighbour is replaced by the new region. *)
Definition supersedes (scale : Z) (neighpoly rpoly : Geom S) : bool :=
  within S neighpoly rpoly
  || within S neighpoly (buffer S (4 * scale) rpoly)
  || (intersects S neighpoly rpoly
      && (almost_equals S neighpoly rpoly
          || Qlt_bool ((8 # 10) * area S neighpoly)
                      (area S (intersection S neighpoly rpoly)))).

(** [roelem.set_regionRef(region.id); reading_order[region.id] = roelem;
    del reading_order[neighbour.id]] *)
Definition redirect (old new : string) (ro : ROState) : ROState :=
  match reading_order ro !! old with
  | Some h =>
      {| ro_elems := <[h := Some new]> (ro_elems ro);
         reading_order := delete old (<[new := h]> (reading_order ro)) |}
  | None => ro
  end.

(** The body of [for neighbour, neighpoly in zip(allregions, allpolys)]. *)
Definition visit_neighbour (scale : Z) (e : TextRegionType * Geom S)
    (cs : Candidate * AddressState) : result (Candidate * AddressState) :=
  let (neighbour, neighpoly) := e in
  let (c, st) := cs in
  if bool_decide (region_id neighbour ∈ oldregions c) then Ok cs
  else if supersedes scale neighpoly (region_poly c) then
    let c1 := steal_lines c (length (TextLine (cand c))) (TextLine neighbour) in
    let c2 := {| cand := set_TextEquiv (region_text (TextLine (cand c1))) (cand c1);
                 region_poly := region_poly c1;
                 has_address := has_address c1;
                 oldregions := oldregions c1 ++ [region_id neighbour] |} in
    page' ← match parent_object_ neighbour with
            | Some owner => remove_region owner (region_id neighbour) (a_page st)
            | None => Raise AttributeError
            end;
    Ok (c2, {| a_page := page';
               a_ro := redirect (region_id neighbour) (region_id (cand c)) (a_ro st) |})
  else Ok cs.

Fixpoint visit_neighbours (scale : Z) (neighbours : list (TextRegionType * Geom S))
    (cs : Candidate * AddressState) : result (Candidate * AddressState) :=
  match neighbours with
  | [] => Ok cs
  | e :: rest =>
      cs' ← visit_neighbour scale e cs;
      visit_neighbours scale rest cs'
  end.

(** [page.add_TextRegion(region)] *)
Definition add_TextRegion (r : TextRegionType) (st : AddressState) : AddressState :=
  {| a_page := {| objects := <[region_id r := r]> (objects (a_page st));
                  page_TextRegion := page_TextRegion (a_page st) ++ [region_id r];
                  sub_TextRegion := sub_TextRegion (a_page st) |};
     a_ro := a_ro st |}.

(** [Polygon(contours[0][:,0,:])], the constructor called on the points of
    a contour: a ring of fewer than three points is refused with
    [ValueError]. *)
Definition py_Polygon (coords : list Point) : result (Geom S) :=
  if (length coords <? 3)%nat then Raise ValueError else Ok (Polygon S coords).

(** The polygon of a mask: dilation, contour, simplification.  The loop
    starts from [contours = [None, None]], a list of two. *)
Definition vectorize (m : Mask) : result (Z * Geom S) :=
  let area := count_nonzero m in
  let scale := kernel_scale area in
  let contours := dilate_rounds CV 10 scale m [[]; []] in
  contour ← py_index contours 0;
  region_poly ← py_Polygon contour;
  Ok (scale, simplify_until_valid (simplify S) (is_valid S) area region_poly).

(** The new region of detection [i], before it looks at its neighbours. *)
Definition new_region (i : nat) (name : string) (d : Detection) (rpoly : Geom S)
    : TextRegionType :=
  {| region_id := "addressregion" +:+ fmt02 (i + 1);
     Coords := Polygon S (keep_open (exterior_coords S rpoly));
     conf := Some (score d);
     custom := Some ("subtype:" +:+ name);
     TextLine := []; TextEquiv := None; parent_object_ := None |}.

(** The rest of the body of the third loop, for a detection that is kept. *)
Definition annotate (i : nat) (d : Detection)
    (allregions : list TextRegionType) (allpolys : list (Geom S))
    (st : AddressState) : result AddressState :=
  name ← py_index categories (class_id d);
  '(scale, rpoly) ← vectorize (mask d);
  let c0 := {| cand := new_region i name d rpoly; region_poly := rpoly;
               has_address := false; oldregions := [] |} in
  '(c, st') ← visit_neighbours scale (zip allregions allpolys) (c0, st);
  (* safe-guard against ghost detections *)
  if has_address c then Ok (add_TextRegion (cand c) st') else Ok st'.

(** The third loop. *)
Fixpoint annotate_all (worse : list nat) (best : list Q)
    (allregions : list TextRegionType) (allpolys : list (Geom S))
    (preds : list (nat * Detection)) (st : AddressState) : result AddressState :=
  match preds with
  | [] => Ok st
  | (i, d) :: rest =>
      sel ← select worse best i d;
      st' ← match sel with
            | Skip => Ok st
            | Keep => annotate i d allregions allpolys st
            end;
      annotate_all worse best allregions allpolys rest st'
  end.

(** [ClassifyAddressLayout.process] on one page, from the output [preds] of
    the detector on. *)
Definition classify_page (preds : list Detection)
    (allregions : list TextRegionType) (allpolys : list (Geom S))
    (st : AddressState) : result AddressState :=
  let worse := worse_of preds in
  let best := best_of worse preds in
  annotate_all worse best allregions allpolys (enumerate preds) st.

End Model.

Arguments line_id {S} _.
Arguments line_custom {S} _.
Arguments line_Coords {S} _.
Arguments line_TextEquiv {S} _.
Arguments region_id {S} _.
Arguments Coords {S} _.
Arguments conf {S} _.
Arguments custom {S} _.
Arguments TextLine {S} _.
Arguments TextEquiv {S} _.
Arguments parent_object_ {S} _.
Arguments region {S} _.
Arguments polygon {S} _.
Arguments objects {S} _.
Arguments page_TextRegion {S} _.
Arguments sub_TextRegion {S} _.
Arguments cand {S} _.
Arguments region_poly {S} _.
Arguments has_address {S} _.
Arguments oldregions {S} _.
Arguments a_page {S} _.
Arguments a_ro {S} _.
Arguments ls_children {S A B C} _.
Arguments ls_regionrefs {S A B C} _.
Arguments ls_page {S A B C} _.
Arguments ls_wait {S A B C} _.

(** ** Vocabulary of the statements *)

(** A polygon with an area: no division by it fails. *)
Definition has_area (S : Shapely) (g : Geom S) : Prop := ¬ (area S g == 0)%Q.

(** [b] lies strictly inside [a]: [a] contains it, it does not contain [a],
    and the two are not almost equal. *)
Definition strictly_inside (S : Shapely) (b a : Geom S) : Prop :=
  contains S a b = true ∧ contains S b a = false
  ∧ almost_equals S a b = false ∧ almost_equals S b a = false.

(** A region is marked by a plan: for deletion or for merging. *)
Definition marked (p : Plan) (rid : string) : Prop :=
  rid ∈ mark_for_deletion p ∨ is_Some (mark_for_merging p !! rid).

#[global] Instance marked_dec (p : Plan) (rid : string) : Decision (marked p rid).
Proof. unfold marked. apply _. Defined.

(** The comparisons that the two loops over a list make, in the order in
    which they make them: [(l[i], l[j])] for [i < j], row after row. *)
Fixpoint pairs_of {X} (l : list X) : list (X * X) :=
  match l with
  | [] => []
  | x :: rest => map (pair x) rest ++ pairs_of rest
  end.

(** A run of comparisons, each on the plan that the one before has left. *)
Fixpoint compare_pairs (S : Shapely) (min_overlap : Q)
    (pairs : list (RegionPolygon S * RegionPolygon S)) (p : Plan) : result Plan :=
  match pairs with
  | [] => Ok p
  | (rp1, rp2) :: rest =>
      p' ← compare_pair S min_overlap rp1 rp2 p;
      compare_pairs S min_overlap rest p'
  end.


(** The regions of [rps] that a plan marks. *)
Definition gone {S : Shapely} (plan : Plan) (rps : list (RegionPolygon S))
    (x : string) : Prop :=
  marked plan x ∧ x ∈ map (λ rp, region_id (region rp)) rps.

(** The dictionary [reading_order] of a group that holds nothing but the
    region references [L0], each with its label. *)
Definition flat_dict {A} (refA : A → option string) (L0 : list (nat * A))
    : gmap string (cls * nat) :=
  foldl (dict_set ClsRegionRef refA) ∅ L0.

(** The state of the loop over [regionspolys] in such a group, once the
    regions [removed] have lost their reference. *)
Definition flat_inv {S A B C} (key : A → string) (L0 : list (nat * A))
    (removed : list string) (ls : LevelState S (A:=A) (B:=B) (C:=C)) : Prop :=
  c_refs (ls_children ls) = filter (λ e, key e.2 ∉ removed) L0
  ∧ c_ogroups (ls_children ls) = []
  ∧ c_ugroups (ls_children ls) = []
  ∧ (ls_regionrefs ls = None ∨ ls_regionrefs ls = Some ClsRegionRef).

(** The re-indexing of region references that the specification asks for:
    the references in the order of their indices, numbered from 0. *)
Definition reindexed (rri : list (Z * string)) : list (Z * string) :=
  imap (λ i e, (Z.of_nat i, e.2)) (stable_sort (λ x y, (x.1 <=? y.1)%Z) rri).

(** Two masks share a foreground pixel. *)
Definition share_pixel (m1 m2 : Mask) : Prop :=
  ∃ r c row1 row2,
    m1 !! r = Some row1 ∧ m2 !! r = Some row2
    ∧ row1 !! c = Some true ∧ row2 !! c = Some true.

(** Detection [k] makes detection [i] worse: the two share a pixel, and
    [k] comes first and does not score lower, or comes later and scores
    higher. *)
Definition beats (preds : list Detection) (k i : nat) : Prop :=
  ∃ dk di, preds !! k = Some dk ∧ preds !! i = Some di
    ∧ share_pixel (mask dk) (mask di)
    ∧ ((k < i ∧ ¬ (score dk < score di)%Q) ∨ (i < k ∧ (score di < score dk)%Q)).

(** A detection with a mask of one pixel. *)
Definition one_pixel : Mask := [[true]].

Definition detection (cat : Z) (sc : Q) (m : Mask) : Detection :=
  {| class_id := cat; score := sc; mask := m; roi := (0, 0, 0, 0)%Z |}.

(** The polygon after [n] simplifications with the tolerances [t], [t + 1],
    ..., each applied to the result of the one before. *)
Fixpoint simplified_from {G} (simplify : Z → G → G) (t : Z) (n : nat) (p : G) : G :=
  match n with
  | O => p
  | S n' => simplified_from simplify (t + 1) n' (simplify t p)
  end.

Definition simplified {G} (simplify : Z → G → G) (p : G) (n : nat) : G :=
  simplified_from simplify 2 n p.

(** A mask of four pixels. *)
Definition block : Mask := [[true; true]; [true; true]].

(** Two masks of four pixels each, side by side on an image of two rows
    and four columns. *)
Definition left_block : Mask :=
  [[true; true; false; false]; [true; true; false; false]].
Definition right_block : Mask :=
  [[false; false; true; true]; [false; false; true; true]].

(** ** A geometry of boxes *)

(** An implementation of the engine over axis-parallel boxes with integer
    corners: the union and the hull of boxes are the smallest box around
    them. *)
Module Boxes.

Record box := Box { x0 : Z; y0 : Z; x1 : Z; y1 : Z }.

Definition box_area (b : box) : Q :=
  inject_Z (Z.max 0 (x1 b - x0 b) * Z.max 0 (y1 b - y0 b)).

Definition box_add (b : box) (q : Point) : box :=
  Box (Z.min (x0 b) q.1) (Z.min (y0 b) q.2) (Z.max (x1 b) q.1) (Z.max (y1 b) q.2).

Definition bbox (pts : list Point) : box :=
  match pts with
  | [] => Box 0 0 0 0
  | p :: ps => foldl box_add (Box p.1 p.2 p.1 p.2) ps
  end.

Definition box_eqb (a b : box) : bool :=
  (x0 a =? x0 b)%Z && (y0 a =? y0 b)%Z && (x1 a =? x1 b)%Z && (y1 a =? y1 b)%Z.

Definition box_contains (a b : box) : bool :=
  (x0 a <=? x0 b)%Z && (y0 a <=? y0 b)%Z && (x1 b <=? x1 a)%Z && (y1 b <=? y1 a)%Z.

Definition box_meet (a b : box) : box :=
  Box (Z.max (x0 a) (x0 b)) (Z.max (y0 a) (y0 b))
      (Z.min (x1 a) (x1 b)) (Z.min (y1 a) (y1 b)).

Definition box_join (a b : box) : box :=
  Box (Z.min (x0 a) (x0 b)) (Z.min (y0 a) (y0 b))
      (Z.max (x1 a) (x1 b)) (Z.max (y1 a) (y1 b)).

Definition box_intersects (a b : box) : bool :=
  let m := box_meet a b in (x0 m <=? x1 m)%Z && (y0 m <=? y1 m)%Z.

Definition box_overlaps (a b : box) : bool :=
  let m := box_meet a b in
  (x0 m <? x1 m)%Z && (y0 m <? y1 m)%Z
  && negb (box_contains a b) && negb (box_contains b a).

Definition box_ring (b : box) : list Point :=
  [(x0 b, y0 b); (x1 b, y0 b); (x1 b, y1 b); (x0 b, y1 b); (x0 b, y0 b)].

Definition box_buffer (d : Z) (b : box) : box :=
  Box (x0 b - d) (y0 b - d) (x1 b + d) (y1 b + d).

Definition shapely : Shapely :=
  {| Geom := box;
     Polygon := bbox;
     area := box_area;
     is_valid := λ b, (x0 b <? x1 b)%Z && (y0 b <? y1 b)%Z;
     is_multipolygon := λ _, false;
     almost_equals := box_eqb;
     contains := box_contains;
     overlaps := box_overlaps;
     intersects := box_intersects;
     crosses := λ _ _, false;
     intersection := box_meet;
     union := box_join;
     convex_hull := λ b, b;
     exterior := λ b, b;
     exterior_coords := box_ring;
     buffer := box_buffer;
     simplify := λ _ b, b |}.

(** Raster operations to go with it: a true dilation, and one contour, the
    corners of the box around the foreground (one point for a single
    pixel, two for a straight run of pixels). *)
Definition pixel (m : Mask) (r c : Z) : bool :=
  if ((r <? 0) || (c <? 0))%Z then false
  else match m !! Z.to_nat r with
       | Some row => default false (row !! Z.to_nat c)
       | None => false
       end.

Definition box_dilate (scale : Z) (m : Mask) : Mask :=
  let offsets := seqZ (- (scale / 2)) scale in
  imap (λ r row,
          imap (λ c _,
                  existsb (λ dr,
                     existsb (λ dc, pixel m (Z.of_nat r + dr) (Z.of_nat c + dc))
                             offsets) offsets)
               (row : list bool)) m.

Definition foreground (m : Mask) : list Point :=
  concat (imap (λ r row,
                  omap (λ e : nat * bool,
                          if e.2 then Some (Z.of_nat e.1, Z.of_nat r) else None)
                       (enumerate (row : list bool))) m).

Definition box_contours (m : Mask) : list Contour :=
  match foreground m with
  | [] => []
  | pts => [remove_dups (removelast (box_ring (bbox pts)))]
  end.

Definition opencv : OpenCV :=
  {| dilate := box_dilate; findContours := box_contours |}.

Definition mk_region (rid : string) (b : box) (lines : list (TextLineType shapely))
    : TextRegionType shapely :=
  Build_TextRegionType shapely rid b None None lines None (Some OwnerPage).

Definition mk_line (lid : string) (tag : option string) (b : box) (text : option string)
    : TextLineType shapely :=
  Build_TextLineType shapely lid tag b text.

(** A region that no page owns. *)
Definition mk_orphan (rid : string) (b : box) : TextRegionType shapely :=
  Build_TextRegionType shapely rid b None None [] None None.

(** A page of one region with one line, which the upstream classifier has
    tagged as holding no address. *)
Definition line_without_address : TextLineType shapely :=
  mk_line "l1" (Some "subtype: ADDRESS_NONE") (Box 0 0 1 1) (Some "Lorem ipsum").

Definition region_without_address : TextRegionType shapely :=
  mk_region "r1" (Box 0 0 1 1) [line_without_address].

Definition page_without_address : AddressState shapely :=
  {| a_page := page_of shapely [region_without_address];
     a_ro := page_get_reading_order NoGroup |}.

(** An ordered group of two region references and a nested group. *)
Definition mixed_group : rogroup :=
  Ordered (OGroup [(0%Z, "r1"); (1%Z, "r2")] [(2%Z, None, OGroup [] [] [])] []).

Definition delete_r1 : Plan :=
  {| mark_for_deletion := ["r1"]; mark_for_merging := ∅ |}.

(** Two regions that overlap in most of the larger one, and a reading
    order that names both. *)
Definition left_region : TextRegionType shapely := mk_region "r1" (Box 0 0 10 10) [].
Definition right_region : TextRegionType shapely := mk_region "r2" (Box 2 0 14 10) [].


(** The new region of a first detection over [region_without_address], on
    a page whose reading order names that region. *)
Definition first_candidate : Candidate shapely :=
  {| cand := new_region shapely 0 "address-rcpt" (detection 1 (9 # 10) block)
               (Box 0 0 1 1);
     region_poly := Box 0 0 1 1;
     has_address := false;
     oldregions := [] |}.

Definition page_with_reference : AddressState shapely :=
  {| a_page := page_of shapely [region_without_address];
     a_ro := page_get_reading_order (Ordered (OGroup [(0%Z, "r1")] [] [])) |}.

(** A page without regions and without a reading order. *)
Definition empty_page : AddressState shapely :=
  {| a_page := page_of shapely []; a_ro := page_get_reading_order NoGroup |}.

End Boxes.

(** ** A geometry of vertex rings *)

(** Polygons as their open ring of integer vertices, with the two
    operations of the simplification loop: a simplification that drops a
    vertex when it lies within the tolerance of the chord between its
    neighbours, and that leaves a ring its last four vertices; and a
    validity test that asks for three vertices, an area, and no two edges
    that cross. *)
Module Rings.

Definition ring : Type := list Point.

Definition cross (o a b : Point) : Z :=
  ((a.1 - o.1) * (b.2 - o.2) - (a.2 - o.2) * (b.1 - o.1))%Z.

(** [v] is within [tol] of the line through [p] and [w]. *)
Definition near_chord (tol : Z) (p v w : Point) : bool :=
  let c := cross p w v in
  let len2 := ((w.1 - p.1) * (w.1 - p.1) + (w.2 - p.2) * (w.2 - p.2))%Z in
  (c * c <=? tol * tol * len2)%Z.

Fixpoint drop_close (tol : Z) (budget : nat) (prev : Point) (l : ring) : ring :=
  match l with
  | v :: ((w :: _) as rest) =>
      match budget with
      | S budget' =>
          if near_chord tol prev v w
          then drop_close tol budget' prev rest
          else v :: drop_close tol budget v rest
      | O => l
      end
  | _ => l
  end.

Definition ring_simplify (tol : Z) (r : ring) : ring :=
  match r with
  | [] => []
  | v :: rest => v :: drop_close tol (length r - 4) v rest
  end.

(** The edges of the closed ring. *)
Definition edges (r : ring) : list (Point * Point) :=
  match r with
  | [] => []
  | v :: rest => zip r (rest ++ [v])
  end.

Definition edges_cross (e f : Point * Point) : bool :=
  ((cross e.1 e.2 f.1 * cross e.1 e.2 f.2 <? 0)
   && (cross f.1 f.2 e.1 * cross f.1 f.2 e.2 <? 0))%Z.

(** Twice the signed area of the ring. *)
Definition twice_area (r : ring) : Z :=
  foldr Z.add 0%Z (map (λ e : Point * Point, (e.1.1 * e.2.2 - e.2.1 * e.1.2)%Z) (edges r)).

Definition ring_valid (r : ring) : bool :=
  (3 <=? length r)%nat
  && negb (twice_area r =? 0)%Z
  && negb (existsb (λ e, existsb (edges_cross e) (edges r)) (edges r)).

(** The contour of a mask of three pixels that form a V, one pixel wide:
    it runs along the pixels and back. *)
Definition vee_mask : Mask := [[true; false; true]; [false; true; false]].
Definition vee : ring := [(0, 0); (1, 1); (2, 0); (1, 1)]%Z.

End Rings.

(** * The rest of the two processors *)

(** ** classify_address_layout.py: [page_get_all_regions] *)

(** The function can fail in two more ways than the code above: with
    [TypeError], and by not coming to an end, which Python reports as
    [RecursionError] when the limit of its stack is reached. *)
Inductive failure :=
| Exn (e : exn)
| TypeError
| RecursionError.

Inductive attempt (A : Type) :=
| Done (a : A)
| Failed (e : failure).
Arguments Done {A} a.
Arguments Failed {A} e.

#[global] Instance attempt_ret : MRet attempt := λ A a, Done a.
#[global] Instance attempt_bind : MBind attempt :=
  λ A B f m, match m with Done a => f a | Failed e => Failed e end.

(** An object of the page hierarchy, as the function sees it: the name of
    its class ([PageType], [TextRegionType], ...), its [id] (a page has
    none) and the regions it holds; [get_<class>Region()] gives the held
    regions of one class, in their order. *)
#[warnings="-register-all"]
Inductive Element :=
| MkElement (class_name : string) (element_id : option string) (held : list Element).

Definition class_name (e : Element) : string :=
  match e with MkElement c _ _ => c end.
Definition element_id (e : Element) : option string :=
  match e with MkElement _ i _ => i end.
Definition held (e : Element) : list Element :=
  match e with MkElement _ _ h => h end.

(** [x.__class__.__name__.replace('RegionType', '')] *)
Definition region_class (x : Element) : string :=
  str_replace "RegionType" "" (class_name x).

(** [isinstance(region, PageType)] *)
Definition is_page (x : Element) : bool := String.eqb (class_name x) "PageType".

(** [getattr(region, 'get_{}Region'.format(class_))()] *)
Definition get_Region (class_ : string) (x : Element) : list Element :=
  filter (λ r, class_name r = class_ +:+ "RegionType") (held x).

Definition region_classes : list string :=
  ["Advert"; "Chart"; "Chem"; "Custom"; "Graphic"; "Image"; "LineDrawing"; "Map";
   "Maths"; "Music"; "Noise"; "Separator"; "Table"; "Text"; "Unknown"].

(** The entry of [more_regions] for one region: the regions it holds,
    class by class; [Map] only for the page. *)
Definition more_of (x : Element) : list Element :=
  flat_map (λ class_, if String.eqb class_ "Map" && negb (is_page x) then []
                      else get_Region class_ x) region_classes.

(** The argument [classes]: [None], a string or a list of strings. *)
Inductive Classes :=
| ClassesNone
| ClassesStr (s : string)
| ClassesList (l : list string).

(** [if classes:] *)
Definition truthy (classes : Classes) : bool :=
  match classes with
  | ClassesNone => false
  | ClassesStr s => negb (String.eqb s "")
  | ClassesList l => negb (bool_decide (l = []))
  end.

(** [x in s] for strings: [x] occurs in [s]. *)
Fixpoint str_in (x s : string) : bool :=
  String.prefix x s
  || match s with
     | EmptyString => false
     | String _ s' => str_in x s'
     end.

(** [region_class(r) in classes] for a string or a list. *)
Definition class_in (classes : Classes) (r : Element) : bool :=
  match classes with
  | ClassesNone => false
  | ClassesStr s => str_in (region_class r) s
  | ClassesList l => bool_decide (region_class r ∈ l)
  end.

(** [[r for r in regions if region_class(r) in classes]]: for [None] the
    test raises [TypeError], on the first region. *)
Definition filter_classes (classes : Classes) (regions : list Element)
    : attempt (list Element) :=
  match classes, regions with
  | ClassesNone, _ :: _ => Failed TypeError
  | _, _ => Done (List.filter (class_in classes) regions)
  end.

(** [get_recursive_regions(regions, level)]; [limit] is the number of calls
    the stack of Python has room for. *)
Fixpoint get_recursive_regions (limit : nat) (classes : Classes)
    (regions : list Element) (level : nat) : attempt (list Element) :=
  match limit with
  | O => Failed RecursionError
  | S limit' =>
      if (level =? 1)%nat then
        if truthy classes then filter_classes classes regions else Done regions
      else
        let more_regions := map more_of regions in
        if negb (existsb (λ more, negb (bool_decide (more = []))) more_regions)
        then get_recursive_regions limit' classes regions 1
        else
          get_recursive_regions limit' classes
            (flat_map (λ rm : Element * list Element, rm.1 :: rm.2)
               (zip regions more_regions))
            (if (level =? 0)%nat then 0 else level - 1)
  end.

(** [get_recursive_reading_order(rogroup)]: the references below a group.
    The elements of an ordered group are visited in the order of their
    indices; here every element is sorted together with what the visit to
    it appends. *)
Fixpoint reading_order_o (g : ogroup) : list (option string) :=
  match g with
  | OGroup rri ogi ugi =>
      concat (map snd
        (stable_sort (λ x y : Z * list (option string), (x.1 <=? y.1)%Z)
           (map (λ e, (e.1, [Some e.2])) rri
            ++ map (λ e, (e.1.1, e.1.2 :: reading_order_o e.2)) ogi
            ++ map (λ e, (e.1.1, e.1.2 :: reading_order_u e.2)) ugi)))
  end
with reading_order_u (g : ugroup) : list (option string) :=
  match g with
  | UGroup rr og ug =>
      map Some rr
      ++ flat_map (λ e, e.1 :: reading_order_o e.2) og
      ++ flat_map (λ e, e.1 :: reading_order_u e.2) ug
  end.

(** [order]: ['reading-order'], or anything else. *)
Inductive Order :=
| DocumentOrder
| ReadingOrder.

(** [dict([(region.id, region) for region in ret])] *)
Fixpoint id2region_of (ret : list Element) (d : gmap string Element)
    : attempt (gmap string Element) :=
  match ret with
  | [] => Done d
  | region :: ret' =>
      match element_id region with
      | Some i => id2region_of ret' (<[i := region]> d)
      | None => Failed (Exn AttributeError)
      end
  end.

(** [page_get_all_regions(page, classes, order, depth)]; [ro] is the group
    of the reading order of the page. *)
Definition page_get_all_regions (limit : nat) (page : Element) (ro : rogroup)
    (classes : Classes) (order : Order) (depth : nat) : attempt (list Element) :=
  ret ← get_recursive_regions limit classes [page]
          (if (depth =? 0)%nat then 0 else depth + 1);
  ret ← match order, ro with
        | DocumentOrder, _ | ReadingOrder, NoGroup => Done ret
        | ReadingOrder, Ordered g =>
            let reading_order := reading_order_o g in
            if bool_decide (reading_order = []) then Done ret
            else
              id2region ← id2region_of ret ∅;
              Done (omap (λ region_id : option string,
                            region_id ≫= λ i, id2region !! i) reading_order)
        | ReadingOrder, Unordered g =>
            let reading_order := reading_order_u g in
            if bool_decide (reading_order = []) then Done ret
            else
              id2region ← id2region_of ret ∅;
              Done (omap (λ region_id : option string,
                            region_id ≫= λ i, id2region !! i) reading_order)
        end;
  filter_classes classes ret.

(** ** classify_address_layout.py: the fill of [mark_line] *)

(** The value [mark_line] draws a line with into the alpha channel, or
    [None] where it returns before it draws. *)
Definition mark_line_fill {S : Shapely} (line : TextLineType S) : option Z :=
  match line_custom line with
  | None => None
  | Some c =>
      if String.eqb c "" then None
      else
        let text_class := str_replace "subtype: " "" c in
        if negb (startswith text_class "ADDRESS_")
           || String.eqb text_class "ADDRESS_NONE"
        then None
        else Some (if String.eqb text_class "ADDRESS_NONE" then 200 else 255)%Z
  end.

(** ** repair.py: [sanitize_page], from the contours of a region on *)

Section Sanitize.
Context (S : Shapely) (contourArea : Contour → Q).

(** [Polygon(polygon).simplify(1).exterior.coords] *)
Definition simplified_ring (contour : Contour) : list Point :=
  exterior_coords S (simplify S 1 (Polygon S contour)).

(** [for i, contour in enumerate(contours)], with [region_polygon] so far;
    the [break] leaves [None]. *)
Fixpoint pick_contour (total_area : Q) (contours : list Contour)
    (region_polygon : option (list Point)) : option (list Point) :=
  match contours with
  | [] => region_polygon
  | contour :: rest =>
      if Qlt_bool (contourArea contour / total_area) (1 # 10)
      then pick_contour total_area rest region_polygon
      else
        let polygon := simplified_ring contour in
        if (length polygon <? 4)%nat
        then pick_contour total_area rest region_polygon
        else match region_polygon with
             | Some _ => None
             | None => pick_contour total_area rest (Some polygon)
             end
  end.

(** [sum(areas)] *)
Definition total_area_of (contours : list Contour) : Q :=
  foldl Qplus 0%Q (map contourArea contours).

(** The body of [for region in regions], given the outer contours of the
    closed mask of the lines of the region. *)
Definition sanitize_region (region : TextRegionType S) (contours : list Contour)
    : TextRegionType S :=
  match TextLine region with
  | [] => region
  | _ :: _ =>
      let total_area := total_area_of contours in
      if Qeq_zero total_area then region
      else match pick_contour total_area contours None with
           | Some region_polygon => set_Coords S (Polygon S region_polygon) region
           | None => region
           end
  end.

(** A contour that is neither too small nor too short. *)
Definition qualifies (total_area : Q) (contour : Contour) : bool :=
  negb (Qlt_bool (contourArea contour / total_area) (1 # 10))
  && negb (length (simplified_ring contour) <? 4)%nat.

End Sanitize.

(** ** repair.py: [validate_coords] *)

Section Validate.
Context (S : Shapely).

Record GlyphType := {
  glyph_id : string;
  glyph_Coords : Geom S;
}.

Record WordType := {
  word_id : string;
  word_Coords : Geom S;
  Glyph : list GlyphType;
}.

(** What the lines hold beside the fields above: the baseline, as the
    [LineString] of its points, and the words. *)
Context (get_Baseline : TextLineType S → option (Geom S)).
Context (get_Word : TextLineType S → list WordType).

(** The warnings of the function. *)
Inductive Warning :=
| RegionBeyondBorder (region : string)
| LineBeyondRegion (line region : string)
| BaselineBeyondLine (line region : string)
| WordBeyondLine (word line region : string)
| GlyphBeyondWord (glyph word line region : string).

(** [valid] and the log. *)
Definition Validity : Type := bool * list Warning.

(** [if not ...: LOG.warning(...); valid = False] *)
Definition check (ok : bool) (w : Warning) (v : Validity) : Validity :=
  if ok then v else (false, v.2 ++ [w]).

(** [_child_within_parent(child, parent)] on the polygons of the two. *)
Definition _child_within_parent (child parent : Geom S) : bool := within S child parent.

Definition validate_glyph (region line : string) (word : WordType)
    (v : Validity) (glyph : GlyphType) : Validity :=
  check (_child_within_parent (glyph_Coords glyph) (word_Coords word))
    (GlyphBeyondWord (glyph_id glyph) (word_id word) line region) v.

Definition validate_word (region : string) (line : TextLineType S)
    (v : Validity) (word : WordType) : Validity :=
  let v1 := check (_child_within_parent (word_Coords word) (line_Coords line))
              (WordBeyondLine (word_id word) (line_id line) region) v in
  foldl (validate_glyph region (line_id line) word) v1 (Glyph word).

Definition validate_line (region : TextRegionType S)
    (v : Validity) (line : TextLineType S) : Validity :=
  let v1 := check (_child_within_parent (line_Coords line) (Coords region))
              (LineBeyondRegion (line_id line) (region_id region)) v in
  let v2 := match get_Baseline line with
            | Some baseline =>
                check (within S baseline (line_Coords line))
                  (BaselineBeyondLine (line_id line) (region_id region)) v1
            | None => v1
            end in
  foldl (validate_word (region_id region) line) v2 (get_Word line).

Definition validate_region (v : Validity) (region : TextRegionType S) : Validity :=
  foldl (validate_line region) v (TextLine region).

Definition validate_border (border : Geom S) (v : Validity)
    (region : string * Geom S) : Validity :=
  check (_child_within_parent region.2 border) (RegionBeyondBorder region.1) v.

(** [validate_coords(page, page_id)]: [Border] is the polygon of the border
    of the page, [other_regions] are the regions of the other classes,
    with their ids and polygons. *)
Definition validate_coords (Border : option (Geom S))
    (regions : list (TextRegionType S)) (other_regions : list (string * Geom S))
    : Validity :=
  let v0 : Validity := (true, []) in
  let v1 := match Border with
            | Some border =>
                foldl (validate_border border) v0
                  (map (λ r, (region_id r, Coords r)) regions ++ other_regions)
            | None => v0
            end in
  foldl validate_region v1 regions.

(** No child extends beyond its parent. *)
Definition line_fits (region : TextRegionType S) (line : TextLineType S) : Prop :=
  within S (line_Coords line) (Coords region) = true
  ∧ (∀ baseline, get_Baseline line = Some baseline →
                 within S baseline (line_Coords line) = true)
  ∧ Forall (λ word,
              within S (word_Coords word) (line_Coords line) = true
              ∧ Forall (λ glyph, within S (glyph_Coords glyph) (word_Coords word) = true)
                  (Glyph word))
      (get_Word line).

Definition page_fits (Border : option (Geom S)) (regions : list (TextRegionType S))
    (other_regions : list (string * Geom S)) : Prop :=
  (∀ border, Border = Some border →
     Forall (λ r, within S (Coords r) border = true) regions
     ∧ Forall (λ r : string * Geom S, within S r.2 border = true) other_regions)
  ∧ Forall (λ region, Forall (line_fits region) (TextLine region)) regions.

End Validate.

Arguments glyph_id {S} _.
Arguments glyph_Coords {S} _.
Arguments word_id {S} _.
Arguments word_Coords {S} _.
Arguments Glyph {S} _.

(** The references that [page_get_all_regions] takes from the reading
    order. *)
Definition references (ro : rogroup) : list (option string) :=
  match ro with
  | NoGroup => []
  | Ordered g => reading_order_o g
  | Unordered g => reading_order_u g
  end.

(** ** Vocabulary of the further statements *)

(** The mask after [k] dilations. *)
Definition dilated (CV : OpenCV) (scale : Z) (m : Mask) (k : nat) : Mask :=
  Nat.iter k (dilate CV scale) m.

(** Lines with the ids [<rid>_line<k>], [<rid>_line<k+1>], ... in place of
    their own. *)
Definition renumbered {S : Shapely} (rid : string) (k : nat)
    (lines : list (TextLineType S)) : list (TextLineType S) :=
  imap (λ i l, set_line_id S (rid +:+ "_line" +:+ fmt02 (k + i)) l) lines.

(** A reading order whose group holds a group. *)
Definition has_nested (rog : rogroup) : Prop :=
  match rog with
  | NoGroup => False
  | Ordered (OGroup _ ogi ugi) => ogi ≠ [] ∨ ugi ≠ []
  | Unordered (UGroup _ og ug) => og ≠ [] ∨ ug ≠ []
  end.

(** What a call of the executor does with a region [rid] of the page that
    it is to remove: it raises nothing but [ValueError]; when it returns,
    the region has left the page; and it does not return when the region
    has left the page before. *)
Definition removes_once {S : Shapely} {X : Type} (rid : string)
    (res : result (X * PageState S)) (st : PageState S) : Prop :=
  (∀ e, res = Raise e → e = ValueError)
  ∧ (∀ x st', res = Ok (x, st') →
       NoDup (page_TextRegion st) →
       NoDup (page_TextRegion st') ∧ (rid ∉ page_TextRegion st'))
  ∧ ((rid ∉ page_TextRegion st) → res = Raise ValueError).

(** The same for the calls on the groups [l] of a group, one after the
    other. *)
Definition calls_remove_once {S : Shapely} {X Y : Type} (rid : string) (l : list Y)
    (res : result (X * PageState S)) (st : PageState S) : Prop :=
  (∀ e, res = Raise e → e = ValueError)
  ∧ (∀ x st', res = Ok (x, st') →
       NoDup (page_TextRegion st) →
       NoDup (page_TextRegion st')
       ∧ (l = [] → st' = st)
       ∧ (l ≠ [] → rid ∉ page_TextRegion st'))
  ∧ ((rid ∉ page_TextRegion st) → l ≠ [] → res = Raise ValueError).

(** * Properties *)

(** ** Comparisons of rationals *)

Lemma Qlt_bool_iff x y : Qlt_bool x y = true ↔ (x < y)%Q.
Proof.
  unfold Qlt_bool. rewrite negb_true_iff. split.
  - intros H. apply Qnot_le_lt. intros Hle.
    apply Qle_bool_iff in Hle. congruence.
  - intros H. destruct (Qle_bool y x) eqn:E; [|done].
    apply Qle_bool_iff in E. exfalso. eapply Qlt_not_le; eauto.
Qed.

Lemma Qlt_bool_false x y : Qlt_bool x y = false ↔ ¬ (x < y)%Q.
Proof.
  rewrite <- Qlt_bool_iff. destruct (Qlt_bool x y); split; congruence.
Qed.

Lemma Qeq_zero_false x : Qeq_zero x = false ↔ ¬ (x == 0)%Q.
Proof.
  unfold Qeq_zero. split.
  - intros H E. apply Qeq_bool_iff in E. congruence.
  - intros H. destruct (Qeq_bool x 0) eqn:E; [|done].
    apply Qeq_bool_iff in E. contradiction.
Qed.

Lemma Qle_bool_false x y : Qle_bool x y = false ↔ ¬ (x <= y)%Q.
Proof.
  rewrite <- Qle_bool_iff. destruct (Qle_bool x y); split; congruence.
Qed.

(** ** The result monad *)

Lemma bind_Ok {A B} (f : A → result B) (m : result A) (b : B) :
  m ≫= f = Ok b → ∃ a, m = Ok a ∧ f a = Ok b.
Proof. destruct m as [a|e]; simpl; [eauto | discriminate]. Qed.

Ltac inv_bind H :=
  let a := fresh "a" in
  let Ha := fresh "Ha" in
  apply bind_Ok in H; destruct H as (a & Ha & H).

(** ** Sorting *)

Lemma insert_sorted_perm {X} (le : X → X → bool) x l :
  insert_sorted le x l ≡ₚ x :: l.
Proof.
  induction l as [|y l IH]; simpl; [done|].
  destruct (le x y); [done|].
  rewrite IH. apply perm_swap.
Qed.

Lemma stable_sort_perm {X} (le : X → X → bool) l : stable_sort le l ≡ₚ l.
Proof.
  induction l as [|x l IH]; simpl; [done|].
  rewrite insert_sorted_perm. by rewrite IH.
Qed.

(** Two members of a list stand in it in one order or the other. *)
Lemma perm_two_split {X} (l : list X) a b rest :
  l ≡ₚ a :: b :: rest →
  ∃ l1 l2 l3, l = l1 ++ a :: l2 ++ b :: l3 ∨ l = l1 ++ b :: l2 ++ a :: l3.
Proof.
  intros Hp.
  destruct (Permutation_vs_cons_inv Hp) as (l' & l'' & ->).
  apply Permutation_sym, Permutation_cons_app_inv, Permutation_sym in Hp.
  assert (Hb : In b (l' ++ l'')).
  { eapply Permutation_in; [apply Permutation_sym, Hp | by left]. }
  apply in_app_or in Hb as [Hb | Hb]; apply in_split in Hb as (m1 & m2 & ->).
  - exists m1, m2, l''. right. by rewrite <- !app_assoc.
  - exists l', m1, m2. by left.
Qed.

(** ** The planner *)

Section PlannerFacts.
Context (S : Shapely).
Implicit Types (p : Plan) (rp : RegionPolygon S) (r : TextRegionType S).

Lemma py_div_Ok a b : ¬ (b == 0)%Q → py_div a b = Ok (a / b)%Q.
Proof. intros H. unfold py_div. by rewrite (proj2 (Qeq_zero_false b) H). Qed.

Lemma compare_pair_total t rp1 rp2 p :
  has_area S (polygon rp1) → has_area S (polygon rp2) →
  ∃ p', compare_pair S t rp1 rp2 p = Ok p'.
Proof.
  intros H1 H2. unfold compare_pair.
  destruct (classify S _ _); eauto.
  rewrite !py_div_Ok by done. simpl.
  repeat (match goal with |- context [if ?b then _ else _] => destruct b end); eauto.
Qed.

Lemma compare_pair_deletions t rp1 rp2 p p' x :
  compare_pair S t rp1 rp2 p = Ok p' →
  x ∈ mark_for_deletion p → x ∈ mark_for_deletion p'.
Proof.
  unfold compare_pair. intros H Hx.
  destruct (classify S _ _); simplify_eq; simpl; try set_solver.
  inv_bind H. inv_bind H.
  repeat (match type of H with context [if ?b then _ else _] => destruct b end);
    by simplify_eq.
Qed.

Lemma compare_with_rest_total t rp1 rest p :
  has_area S (polygon rp1) → Forall (λ rp, has_area S (polygon rp)) rest →
  ∃ p', compare_with_rest S t rp1 rest p = Ok p'.
Proof.
  intros H1 Hrest. revert p.
  induction Hrest as [|rp2 rest H2 _ IH]; intros p; simpl; [eauto|].
  destruct (compare_pair_total t rp1 rp2 p H1 H2) as [p' ->]. simpl. apply IH.
Qed.

Lemma compare_with_rest_deletions t rp1 rest p p' x :
  compare_with_rest S t rp1 rest p = Ok p' →
  x ∈ mark_for_deletion p → x ∈ mark_for_deletion p'.
Proof.
  revert p. induction rest as [|rp2 rest IH]; intros p H Hx; simpl in H.
  - by simplify_eq.
  - inv_bind H. eapply IH; [done|]. eapply compare_pair_deletions; eauto.
Qed.

Lemma compare_all_total t rps p :
  Forall (λ rp, has_area S (polygon rp)) rps →
  ∃ p', compare_all S t rps p = Ok p'.
Proof.
  intros H. revert p.
  induction H as [|rp1 rest H1 Hrest IH]; intros p; simpl; [eauto|].
  destruct (compare_with_rest_total t rp1 rest p H1 Hrest) as [p' ->].
  simpl. apply IH.
Qed.

Lemma compare_all_deletions t rps p p' x :
  compare_all S t rps p = Ok p' →
  x ∈ mark_for_deletion p → x ∈ mark_for_deletion p'.
Proof.
  revert p. induction rps as [|rp1 rest IH]; intros p H Hx; simpl in H.
  - by simplify_eq.
  - inv_bind H. eapply IH; [done|]. eapply compare_with_rest_deletions; eauto.
Qed.

(** Two polygons that stand in the list in this order are compared, in
    this order. *)
Lemma compare_with_rest_visits t rp1 l2 rp2 l3 p p' :
  compare_with_rest S t rp1 (l2 ++ rp2 :: l3) p = Ok p' →
  ∃ p1 p2, compare_pair S t rp1 rp2 p1 = Ok p2
           ∧ ∀ x, x ∈ mark_for_deletion p2 → x ∈ mark_for_deletion p'.
Proof.
  revert p. induction l2 as [|y l2 IH]; intros p H; simpl in H; inv_bind H.
  - exists p, a. split; [done|]. intros x. eapply compare_with_rest_deletions; eauto.
  - by eapply IH.
Qed.

Lemma compare_all_visits t l1 rp1 l2 rp2 l3 p p' :
  compare_all S t (l1 ++ rp1 :: l2 ++ rp2 :: l3) p = Ok p' →
  ∃ p1 p2, compare_pair S t rp1 rp2 p1 = Ok p2
           ∧ ∀ x, x ∈ mark_for_deletion p2 → x ∈ mark_for_deletion p'.
Proof.
  revert p. induction l1 as [|y l1 IH]; intros p H; simpl in H; inv_bind H.
  - destruct (compare_with_rest_visits _ _ _ _ _ _ _ Ha) as (p1 & p2 & Hc & Hsub).
    exists p1, p2. split; [done|]. intros x Hx.
    eapply compare_all_deletions; eauto.
  - by eapply IH.
Qed.

End PlannerFacts.

(** The regions are compared in the order of their areas. *)
Lemma insert_sorted_ascending {X} (le : X → X → bool) x l :
  (∀ a b, le a b = false → le b a = true) →
  (∀ a b c, le a b = true → le b c = true → le a c = true) →
  StronglySorted (λ a b, le a b = true) l →
  StronglySorted (λ a b, le a b = true) (insert_sorted le x l).
Proof.
  intros Htot Htrans. induction 1 as [|y l Hl IH Hy]; simpl.
  - repeat constructor.
  - destruct (le x y) eqn:E.
    + constructor; [by constructor|]. constructor; [done|].
      eapply Forall_impl; [exact Hy|]. intros z Hz. by eapply Htrans.
    + constructor; [done|].
      eapply Permutation_Forall; [symmetry; apply insert_sorted_perm|].
      constructor; [by apply Htot | done].
Qed.

Lemma sorted_by_area_sorted (S : Shapely) (l : list (RegionPolygon S)) :
  StronglySorted (λ a b, area_le S a b = true) (sorted_by_area S l).
Proof.
  unfold sorted_by_area, stable_sort.
  induction l as [|z l IH]; simpl; [constructor|].
  apply insert_sorted_ascending; [| |exact IH].
  - unfold area_le. intros a b Hab. apply Qle_bool_false in Hab.
    apply Qle_bool_iff. apply Qlt_le_weak. by apply Qnot_le_lt.
  - unfold area_le. intros a b c Hab Hbc.
    apply Qle_bool_iff in Hab, Hbc. apply Qle_bool_iff.
    by eapply Qle_trans.
Qed.

Lemma sorted_by_area_ascending (S : Shapely) (l l1 l2 l3 : list (RegionPolygon S)) x y :
  sorted_by_area S l = l1 ++ x :: l2 ++ y :: l3 →
  (area S (polygon x) <= area S (polygon y))%Q.
Proof.
  intros Heq. pose proof (sorted_by_area_sorted S l) as Hs.
  rewrite Heq in Hs. apply StronglySorted_app_1_r in Hs.
  apply StronglySorted_inv in Hs as [_ Hx].
  rewrite Forall_app, Forall_cons in Hx. destruct Hx as (_ & Hxy & _).
  by apply Qle_bool_iff.
Qed.

(** C1: a region B that lies strictly inside a region A is marked for
    deletion and A is not marked on account of the pair, in whichever order
    the two are compared and wherever they stand among the regions of the
    page: the comparison of the pair appends the id of B to
    [mark_for_deletion] and changes nothing else, and the plan of the page
    holds the id of B. *)
Theorem C1_contained_region_is_deleted (S : Shapely) (min_overlap : Q)
    (regions rest : list (TextRegionType S)) (A B : TextRegionType S) :
  regions ≡ₚ A :: B :: rest →
  Forall (λ r, has_area S (Coords r)) regions →
  strictly_inside S (Coords B) (Coords A) →
  (∀ p, compare_pair S min_overlap (region_polygon_of S A) (region_polygon_of S B) p
        = Ok {| mark_for_deletion := mark_for_deletion p ++ [region_id B];
                mark_for_merging := mark_for_merging p |})
  ∧ (∀ p, compare_pair S min_overlap (region_polygon_of S B) (region_polygon_of S A) p
          = Ok {| mark_for_deletion := mark_for_deletion p ++ [region_id B];
                  mark_for_merging := mark_for_merging p |})
  ∧ ∃ plan, plan_page S min_overlap regions = Ok plan
            ∧ region_id B ∈ mark_for_deletion plan.
Proof.
  intros Hperm Harea (Hab & Hba & Hne1 & Hne2).
  assert (HAB : ∀ p, compare_pair S min_overlap (region_polygon_of S A)
                       (region_polygon_of S B) p = Ok (delete_mark (region_id B) p)).
  { intros p. unfold compare_pair, classify. simpl. by rewrite Hne1, Hab. }
  assert (HBA : ∀ p, compare_pair S min_overlap (region_polygon_of S B)
                       (region_polygon_of S A) p = Ok (delete_mark (region_id B) p)).
  { intros p. unfold compare_pair, classify. simpl. by rewrite Hne2, Hba, Hab. }
  split; [exact HAB|]. split; [exact HBA|].
  unfold plan_page.
  assert (Hall : Forall (λ rp, has_area S (polygon rp)) (regionspolys S regions)).
  { unfold regionspolys, sorted_by_area.
    eapply Permutation_Forall; [symmetry; apply stable_sort_perm|].
    apply Forall_map. eapply Forall_impl; [exact Harea|]. done. }
  destruct (compare_all_total S min_overlap _ empty_plan Hall) as [plan Hplan].
  exists plan. split; [done|].
  assert (Hsorted : regionspolys S regions
            ≡ₚ region_polygon_of S A :: region_polygon_of S B
               :: map (region_polygon_of S) rest).
  { unfold regionspolys, sorted_by_area. rewrite stable_sort_perm.
    change (map (region_polygon_of S) regions
              ≡ₚ map (region_polygon_of S) (A :: B :: rest)).
    by apply Permutation_map. }
  destruct (perm_two_split _ _ _ _ Hsorted) as (l1 & l2 & l3 & [Hl | Hl]);
    rewrite Hl in Hplan;
    destruct (compare_all_visits S _ _ _ _ _ _ _ _ Hplan) as (p1 & p2 & Hc & Hsub);
    apply Hsub.
  - rewrite HAB in Hc. simplify_eq. simpl. set_solver.
  - rewrite HBA in Hc. simplify_eq. simpl. set_solver.
Qed.

Lemma C1_contained_region_is_deleted_witness :
  let A := Boxes.mk_region "r1" (Boxes.Box 0 0 10 10) [] in
  let B := Boxes.mk_region "r2" (Boxes.Box 2 2 4 4) [] in
  strictly_inside Boxes.shapely (Coords B) (Coords A)
  ∧ ∃ plan, plan_page Boxes.shapely (1 # 2) [A; B] = Ok plan
            ∧ "r2" ∈ mark_for_deletion plan.
Proof.
  intros A B.
  assert (Hin : strictly_inside Boxes.shapely (Coords B) (Coords A)).
  { repeat split; reflexivity. }
  split; [exact Hin|].
  refine (proj2 (proj2 (C1_contained_region_is_deleted Boxes.shapely (1 # 2)
                          [A; B] [] A B _ _ Hin))).
  - reflexivity.
  - repeat constructor; intros H; vm_compute in H; discriminate.
Defined.

(** C4: a pair that overlaps (it is neither almost equal nor in
    containment) and whose union has a convex hull at least as large as
    the two areas together leaves the plan as it is: neither region is
    marked for deletion or for merging on account of the pair. *)
Theorem C4_hull_guard_skips_pair (S : Shapely) (min_overlap : Q)
    (rp1 rp2 : RegionPolygon S) (p : Plan) :
  classify S (polygon rp1) (polygon rp2) = Overlaps →
  has_area S (polygon rp1) → has_area S (polygon rp2) →
  (area S (polygon rp1) + area S (polygon rp2)
   <= area S (convex_hull S (union S (polygon rp1) (polygon rp2))))%Q →
  compare_pair S min_overlap rp1 rp2 p = Ok p.
Proof.
  intros Hc H1 H2 Hhull. unfold compare_pair. rewrite Hc.
  rewrite !py_div_Ok by done. simpl.
  apply Qle_bool_iff in Hhull. by rewrite Hhull.
Qed.

Lemma C4_hull_guard_skips_pair_witness :
  let rp1 := region_polygon_of Boxes.shapely
               (Boxes.mk_region "r1" (Boxes.Box 0 4 10 5) []) in
  let rp2 := region_polygon_of Boxes.shapely
               (Boxes.mk_region "r2" (Boxes.Box 4 0 5 10) []) in
  classify Boxes.shapely (polygon rp1) (polygon rp2) = Overlaps
  ∧ compare_pair Boxes.shapely (1 # 2) rp1 rp2 empty_plan = Ok empty_plan.
Proof.
  intros rp1 rp2. split; [reflexivity|].
  apply (C4_hull_guard_skips_pair Boxes.shapely (1 # 2) rp1 rp2 empty_plan).
  - reflexivity.
  - intros H; vm_compute in H; discriminate.
  - intros H; vm_compute in H; discriminate.
  - vm_compute. discriminate.
Defined.

(** The loops of the planner as one run of comparisons. *)
Lemma compare_pairs_app (S : Shapely) t
    (l1 l2 : list (RegionPolygon S * RegionPolygon S)) (p : Plan) :
  compare_pairs S t (l1 ++ l2) p = compare_pairs S t l1 p ≫= compare_pairs S t l2.
Proof.
  revert p. induction l1 as [|[x y] l1 IH]; intros p; simpl; [done|].
  destruct (compare_pair S t x y p) as [p'|e]; simpl; [apply IH | done].
Qed.

Lemma compare_with_rest_pairs (S : Shapely) t (rp : RegionPolygon S) rest (p : Plan) :
  compare_with_rest S t rp rest p = compare_pairs S t (map (pair rp) rest) p.
Proof.
  revert p. induction rest as [|y rest IH]; intros p; simpl; [done|].
  destruct (compare_pair S t rp y p) as [p'|e]; simpl; [apply IH | done].
Qed.

Lemma compare_all_pairs (S : Shapely) t (rps : list (RegionPolygon S)) (p : Plan) :
  compare_all S t rps p = compare_pairs S t (pairs_of rps) p.
Proof.
  revert p. induction rps as [|x rps IH]; intros p; simpl; [done|].
  rewrite compare_pairs_app, compare_with_rest_pairs.
  destruct (compare_pairs S t (map (pair x) rps) p) as [p'|e]; simpl; [apply IH | done].
Qed.

(** Of two members of a list, the one that stands first is the first of
    their comparison. *)
Lemma pairs_of_split {X} (l1 l2 l3 : list X) (a b : X) :
  ∃ before after, pairs_of (l1 ++ a :: l2 ++ b :: l3) = before ++ (a, b) :: after.
Proof.
  induction l1 as [|y l1 (before & after & IH)]; simpl.
  - exists (map (pair a) l2), (map (pair a) l3 ++ pairs_of (l2 ++ b :: l3)).
    rewrite map_app. simpl. by rewrite <- app_assoc.
  - exists (map (pair y) (l1 ++ a :: l2 ++ b :: l3) ++ before), after.
    rewrite IH. by rewrite <- app_assoc.
Qed.

(** A key of [mark_for_merging] stays: later comparisons can only give it
    another superregion. *)
Lemma compare_pair_merging_keys (S : Shapely) t (rp1 rp2 : RegionPolygon S)
    (p p' : Plan) x :
  compare_pair S t rp1 rp2 p = Ok p' →
  is_Some (mark_for_merging p !! x) → is_Some (mark_for_merging p' !! x).
Proof.
  unfold compare_pair. intros H Hx.
  destruct (classify S _ _); simplify_eq; simpl; try done.
  inv_bind H. inv_bind H.
  repeat (match type of H with context [if ?b then _ else _] => destruct b end);
    simplify_eq; simpl; try done;
    (destruct (decide (region_id (region rp2) = x)) as [->|];
       [rewrite lookup_insert_eq; eauto | by rewrite lookup_insert_ne])
    || (destruct (decide (region_id (region rp1) = x)) as [->|];
       [rewrite lookup_insert_eq; eauto | by rewrite lookup_insert_ne]).
Qed.

Lemma compare_pairs_merging_keys (S : Shapely) t
    (pairs : list (RegionPolygon S * RegionPolygon S)) (p p' : Plan) x :
  compare_pairs S t pairs p = Ok p' →
  is_Some (mark_for_merging p !! x) → is_Some (mark_for_merging p' !! x).
Proof.
  revert p. induction pairs as [|[rp1 rp2] pairs IH]; intros p H Hx; simpl in H.
  - by simplify_eq.
  - inv_bind H. eapply IH; [done|]. eapply compare_pair_merging_keys; eauto.
Qed.

(** C5: let A and B be two regions of the page, in either order, A with
    the smaller and B with the larger area, that overlap and that the hull
    guard lets through; let [ra] and [rb] be the shares of the intersection
    in the areas of A and of B.  The planner compares the two with A as the
    first and B as the second region: its run is a run of comparisons
    [before], the comparison of A with B, and a run of comparisons [after]
    (the comparisons being those of the two loops over the sorted list).
    If [rb] exceeds the threshold, this comparison marks B for merging into
    A (and B is still marked for merging in the plan of the page);
    otherwise, if [ra] exceeds it, the comparison marks A for merging into
    B (and A is still marked for merging in the plan of the page);
    otherwise the comparison leaves the plan as it found it. *)
Theorem C5_overlap_threshold (S : Shapely) (min_overlap : Q)
    (regions rest : list (TextRegionType S)) (A B : TextRegionType S) :
  regions ≡ₚ A :: B :: rest →
  Forall (λ r, has_area S (Coords r)) regions →
  (area S (Coords A) < area S (Coords B))%Q →
  classify S (Coords A) (Coords B) = Overlaps →
  ¬ (area S (Coords A) + area S (Coords B)
     <= area S (convex_hull S (union S (Coords A) (Coords B))))%Q →
  let rpA := region_polygon_of S A in
  let rpB := region_polygon_of S B in
  let inter := area S (intersection S (Coords A) (Coords B)) in
  let ra := (inter / area S (Coords A))%Q in
  let rb := (inter / area S (Coords B))%Q in
  plan_page S min_overlap regions
  = compare_pairs S min_overlap (pairs_of (regionspolys S regions)) empty_plan
  ∧ ∃ before after p1 p2 plan,
    pairs_of (regionspolys S regions) = before ++ (rpA, rpB) :: after
    ∧ compare_pairs S min_overlap before empty_plan = Ok p1
    ∧ compare_pair S min_overlap rpA rpB p1 = Ok p2
    ∧ compare_pairs S min_overlap after p2 = Ok plan
    ∧ plan_page S min_overlap regions = Ok plan
    ∧ ((min_overlap < rb)%Q →
         p2 = {| mark_for_deletion := mark_for_deletion p1;
                 mark_for_merging :=
                   <[region_id B := region_id A]> (mark_for_merging p1) |}
         ∧ is_Some (mark_for_merging plan !! region_id B))
    ∧ (¬ (min_overlap < rb)%Q → (min_overlap < ra)%Q →
         p2 = {| mark_for_deletion := mark_for_deletion p1;
                 mark_for_merging :=
                   <[region_id A := region_id B]> (mark_for_merging p1) |}
         ∧ is_Some (mark_for_merging plan !! region_id A))
    ∧ (¬ (min_overlap < rb)%Q → ¬ (min_overlap < ra)%Q → p2 = p1).
Proof.
  intros Hperm Harea Hlt Hc Hhull rpA rpB inter ra rb.
  split; [apply compare_all_pairs|].
  assert (HA : has_area S (Coords A)).
  { eapply (proj1 (List.Forall_forall _ _) Harea), Permutation_in;
      [apply Permutation_sym, Hperm | by left]. }
  assert (HB : has_area S (Coords B)).
  { eapply (proj1 (List.Forall_forall _ _) Harea), Permutation_in;
      [apply Permutation_sym, Hperm | right; by left]. }
  assert (Hcmp : ∀ p, compare_pair S min_overlap rpA rpB p
                 = if Qlt_bool min_overlap rb
                   then Ok (merge_mark (region_id B) (region_id A) p)
                   else if Qlt_bool min_overlap ra
                        then Ok (merge_mark (region_id A) (region_id B) p)
                        else Ok p).
  { intros p. unfold compare_pair. simpl. rewrite Hc. rewrite !py_div_Ok by done. simpl.
    apply Qle_bool_false in Hhull. by rewrite Hhull. }
  assert (Hall : Forall (λ rp, has_area S (polygon rp)) (regionspolys S regions)).
  { unfold regionspolys, sorted_by_area.
    eapply Permutation_Forall; [symmetry; apply stable_sort_perm|].
    apply Forall_map. eapply Forall_impl; [exact Harea|]. done. }
  destruct (compare_all_total S min_overlap _ empty_plan Hall) as [plan Hplan].
  assert (Hsorted : regionspolys S regions
            ≡ₚ rpA :: rpB :: map (region_polygon_of S) rest).
  { unfold regionspolys, sorted_by_area. rewrite stable_sort_perm.
    change (map (region_polygon_of S) regions
              ≡ₚ map (region_polygon_of S) (A :: B :: rest)).
    by apply Permutation_map. }
  assert (Hfirst : ∃ l1 l2 l3, regionspolys S regions = l1 ++ rpA :: l2 ++ rpB :: l3).
  { destruct (perm_two_split _ _ _ _ Hsorted) as (l1 & l2 & l3 & [Hl | Hl]); [eauto|].
    exfalso. apply (Qlt_not_le _ _ Hlt).
    apply (sorted_by_area_ascending S (map (region_polygon_of S) regions)
             l1 l2 l3 rpB rpA Hl). }
  destruct Hfirst as (l1 & l2 & l3 & Hl).
  destruct (pairs_of_split l1 l2 l3 rpA rpB) as (before & after & Hpairs).
  rewrite <- Hl in Hpairs.
  assert (Hrun : compare_pairs S min_overlap (before ++ (rpA, rpB) :: after) empty_plan
                 = Ok plan).
  { rewrite <- Hpairs, <- compare_all_pairs. exact Hplan. }
  rewrite compare_pairs_app in Hrun.
  destruct (compare_pairs S min_overlap before empty_plan) as [p1|e] eqn:Hbefore;
    [|discriminate].
  simpl in Hrun.
  destruct (compare_pair S min_overlap rpA rpB p1) as [p2|e] eqn:Hpair;
    [|discriminate].
  simpl in Hrun.
  exists before, after, p1, p2, plan.
  split; [exact Hpairs|]. split; [exact Hbefore|]. split; [exact Hpair|].
  split; [exact Hrun|]. split; [exact Hplan|].
  rewrite Hcmp in Hpair. split; [|split].
  - intros Hb. apply Qlt_bool_iff in Hb. rewrite Hb in Hpair.
    injection Hpair as <-. split; [reflexivity|].
    eapply compare_pairs_merging_keys; [exact Hrun|].
    simpl. rewrite lookup_insert_eq. eauto.
  - intros Hb Ha. apply Qlt_bool_false in Hb. apply Qlt_bool_iff in Ha.
    rewrite Hb, Ha in Hpair. injection Hpair as <-. split; [reflexivity|].
    eapply compare_pairs_merging_keys; [exact Hrun|].
    simpl. rewrite lookup_insert_eq. eauto.
  - intros Hb Ha. apply Qlt_bool_false in Hb, Ha. rewrite Hb, Ha in Hpair.
    by injection Hpair as <-.
Qed.

Lemma C5_overlap_threshold_witness :
  let A := Boxes.mk_region "r1" (Boxes.Box 0 0 10 10) [] in
  let B := Boxes.mk_region "r2" (Boxes.Box 2 0 14 10) [] in
  classify Boxes.shapely (Coords A) (Coords B) = Overlaps
  ∧ ∃ plan, plan_page Boxes.shapely (1 # 2) [B; A] = Ok plan
            ∧ is_Some (mark_for_merging plan !! "r2").
Proof.
  intros A B. split; [reflexivity|].
  destruct (C5_overlap_threshold Boxes.shapely (1 # 2) [B; A] [] A B)
    as (_ & before & after & p1 & p2 & plan & _ & _ & _ & _ & Hplan & Hb & _).
  - apply perm_swap.
  - repeat constructor; intros H; vm_compute in H; discriminate.
  - reflexivity.
  - reflexivity.
  - intros H; vm_compute in H; apply H; reflexivity.
  - exists plan. split; [exact Hplan|]. apply Hb. reflexivity.
Defined.

(** ** The pairwise stage of the deduplication *)

Lemma row_any_mul (row1 row2 : list bool) :
  existsb (λ b : bool, b) (zip_with andb row1 row2) = true
  ↔ ∃ c, row1 !! c = Some true ∧ row2 !! c = Some true.
Proof.
  revert row2. induction row1 as [|b1 row1 IH]; intros [|b2 row2]; simpl.
  - split; [done | by intros (c & H & _)].
  - split; [done | by intros (c & H & _)].
  - split; [done | by intros ([|c] & _ & H)].
  - rewrite orb_true_iff, IH. split.
    + intros [Hb | (c & H1 & H2)].
      * apply andb_true_iff in Hb as [-> ->]. by exists 0.
      * by exists (S c).
    + intros ([|c] & H1 & H2); simpl in *.
      * left. by simplify_eq.
      * right. by exists c.
Qed.

Lemma np_any_mask_mul (m1 m2 : Mask) :
  np_any (mask_mul m1 m2) = true ↔ share_pixel m1 m2.
Proof.
  unfold np_any, mask_mul, share_pixel.
  revert m2. induction m1 as [|row1 m1 IH]; intros [|row2 m2]; simpl.
  - split; [done | by intros (r & c & ? & ? & H & _)].
  - split; [done | by intros (r & c & ? & ? & H & _)].
  - split; [done | by intros ([|r] & c & ? & ? & _ & H & _)].
  - rewrite orb_true_iff, IH, row_any_mul. split.
    + intros [(c & H1 & H2) | (r & c & r1 & r2 & H)].
      * by exists 0, c, row1, row2.
      * by exists (S r), c, r1, r2.
    + intros ([|r] & c & r1 & r2 & H1 & H2 & H3 & H4); simpl in *.
      * left. simplify_eq. by exists c.
      * right. by exists r, c, r1, r2.
Qed.

Lemma share_pixel_sym m1 m2 : share_pixel m1 m2 → share_pixel m2 m1.
Proof.
  intros (r & c & r1 & r2 & H1 & H2 & H3 & H4). by exists r, c, r2, r1.
Qed.

(** What the inner loop appends. *)
Lemma worse_inner_spec di i rest j w x :
  x ∈ worse_inner di i rest j w
  ↔ x ∈ w ∨ ∃ k dj, rest !! k = Some dj ∧ share_pixel (mask di) (mask dj)
                     ∧ x = if Qlt_bool (score di) (score dj) then i else j + k.
Proof.
  revert j w. induction rest as [|d rest IH]; intros j w; simpl.
  - split; [by left | intros [H | (k & dj & H & _)]; done].
  - rewrite IH. split.
    + intros [Hx | (k & dj & Hk & Hs & ->)].
      * destruct (np_any _) eqn:E; [|by left].
        apply elem_of_app in Hx as [Hx | Hx]; [by left|].
        apply list_elem_of_singleton in Hx. right. exists 0, d.
        split; [done|]. split; [by apply np_any_mask_mul|].
        by rewrite Nat.add_0_r.
      * right. exists (S k), dj. split; [done|]. split; [done|].
        by rewrite Nat.add_succ_r.
    + intros [Hx | ([|k] & dj & Hk & Hs & ->)]; [|simpl in Hk..].
      * left. destruct (np_any _); [apply elem_of_app; by left | done].
      * simplify_eq. left. apply np_any_mask_mul in Hs. rewrite Hs.
        rewrite Nat.add_0_r. apply elem_of_app. right.
        by apply list_elem_of_singleton.
      * right. exists k, dj. split; [done|]. split; [done|].
        by rewrite Nat.add_succ_r.
Qed.

Lemma worse_outer_spec preds i w x :
  x ∈ worse_outer preds i w
  ↔ x ∈ w ∨ ∃ a b da db, a < b ∧ preds !! a = Some da ∧ preds !! b = Some db
                          ∧ share_pixel (mask da) (mask db)
                          ∧ x = if Qlt_bool (score da) (score db)
                                then i + a else i + b.
Proof.
  revert i w. induction preds as [|d preds IH]; intros i w; simpl.
  - split; [by left | intros [H | (a & b & da & db & _ & H & _)]; done].
  - rewrite IH, worse_inner_spec. split.
    + intros [[Hx | (k & dj & Hk & Hs & ->)] | (a & b & da & db & Hab & Ha & Hb & Hs & ->)].
      * by left.
      * right. exists 0, (S k), d, dj. repeat split; [lia|done..|].
        destruct (Qlt_bool _ _); lia.
      * right. exists (S a), (S b), da, db. repeat split; [lia|done..|].
        destruct (Qlt_bool _ _); lia.
    + intros [Hx | (a & b & da & db & Hab & Ha & Hb & Hs & ->)]; [by left; left|].
      destruct a as [|a]; simpl in Ha.
      * simplify_eq. destruct b as [|b]; [lia|]. simpl in Hb.
        left. right. exists b, db. repeat split; [done..|].
        destruct (Qlt_bool _ _); lia.
      * destruct b as [|b]; [lia|]. simpl in Hb.
        right. exists a, b, da, db. repeat split; [lia|done..|].
        destruct (Qlt_bool _ _); lia.
Qed.

(** A detection is worse exactly when another one beats it. *)
Lemma worse_of_spec preds i :
  i ∈ worse_of preds ↔ ∃ k, beats preds k i.
Proof.
  unfold worse_of. rewrite worse_outer_spec. split.
  - intros [H | (a & b & da & db & Hab & Ha & Hb & Hs & ->)]; [by apply elem_of_nil in H|].
    destruct (Qlt_bool _ _) eqn:E; simpl.
    + exists b. exists db, da. repeat split; [done..|by apply share_pixel_sym|].
      right. split; [done|]. by apply Qlt_bool_iff.
    + exists a. exists da, db. repeat split; [done..|].
      left. split; [done|]. by apply Qlt_bool_false.
  - intros (k & dk & di & Hk & Hi & Hs & [[Hlt Hsc] | [Hlt Hsc]]); right.
    + exists k, i, dk, di. repeat split; [done..|].
      apply Qlt_bool_false in Hsc. by rewrite Hsc.
    + exists i, k, di, dk. repeat split; [done..|by apply share_pixel_sym|].
      apply Qlt_bool_iff in Hsc. by rewrite Hsc.
Qed.

(** C10, as the code has it: of two detections [i < j] that share a pixel
    and score the same, the later one [j] is marked worse, and the pair
    does not mark [i]: [i] is marked worse exactly when some other
    detection beats it, so it survives the stage when it shares no pixel
    with any third detection. *)
Theorem C10_tie_marks_the_later (preds : list Detection) (i j : nat)
    (di dj : Detection) :
  i < j → preds !! i = Some di → preds !! j = Some dj →
  share_pixel (mask di) (mask dj) → (score di == score dj)%Q →
  j ∈ worse_of preds
  ∧ ¬ beats preds j i
  ∧ (i ∈ worse_of preds ↔ ∃ k, k ≠ j ∧ beats preds k i)
  ∧ ((∀ k dk, preds !! k = Some dk → k ≠ i → k ≠ j →
        ¬ share_pixel (mask dk) (mask di)) →
     i ∉ worse_of preds).
Proof.
  intros Hij Hi Hj Hs Heq.
  assert (Hnb : ¬ beats preds j i).
  { intros (dk & di' & Hk & Hi' & _ & [[Hlt _] | [_ Hsc]]); [lia|].
    simplify_eq. rewrite Heq in Hsc. by apply Qlt_irrefl in Hsc. }
  assert (Hiff : i ∈ worse_of preds ↔ ∃ k, k ≠ j ∧ beats preds k i).
  { rewrite worse_of_spec. split.
    - intros (k & Hk). exists k. split; [|done]. intros ->. contradiction.
    - intros (k & _ & Hk). by exists k. }
  repeat split; [|done|apply Hiff|apply Hiff|].
  - apply worse_of_spec. exists i, di, dj. repeat split; [done..|].
    left. split; [done|]. rewrite Heq. apply Qlt_irrefl.
  - intros Hno Hin. apply Hiff in Hin as (k & Hkj & dk & di' & Hk & Hi' & Hsk & Hor).
    simplify_eq. apply (Hno k dk); [done| |done|done].
    destruct Hor as [[? _] | [? _]]; lia.
Qed.

Lemma C10_tie_marks_the_later_witness :
  let preds := [detection 1 (5 # 10) one_pixel; detection 1 (5 # 10) one_pixel] in
  share_pixel one_pixel one_pixel
  ∧ 1 ∈ worse_of preds ∧ 0 ∉ worse_of preds.
Proof.
  intros preds.
  assert (Hs : share_pixel one_pixel one_pixel) by (by exists 0, 0, [true], [true]).
  split; [exact Hs|].
  destruct (C10_tie_marks_the_later preds 0 1 (detection 1 (5 # 10) one_pixel)
              (detection 1 (5 # 10) one_pixel))
    as (Hj & _ & _ & Hi); [lia | reflexivity | reflexivity | exact Hs | reflexivity |].
  split; [exact Hj|].
  apply Hi. intros [|[|k]] dk Hk Hki Hkj; [done | done | discriminate].
Defined.

(** C10 as it is written fails: with a third detection that shares the
    pixel and scores higher, the earlier detection of the tie does not
    survive the pairwise stage. *)
Lemma C10_counterexample :
  let preds := [detection 1 (9 # 10) one_pixel;
                detection 1 (5 # 10) one_pixel;
                detection 1 (5 # 10) one_pixel] in
  ¬ (∀ i j di dj,
       i < j → preds !! i = Some di → preds !! j = Some dj →
       share_pixel (mask di) (mask dj) → (score di == score dj)%Q →
       j ∈ worse_of preds ∧ i ∉ worse_of preds).
Proof.
  intros preds H.
  destruct (H 1 2 (detection 1 (5 # 10) one_pixel) (detection 1 (5 # 10) one_pixel))
    as [_ Hi]; [lia | reflexivity | reflexivity | | reflexivity |].
  - by exists 0, 0, [true], [true].
  - apply Hi. vm_compute. apply list_elem_of_here.
Qed.

(** ** The best score of a singleton class *)

Lemma elem_of_zip_seq {X} (l : list X) s i d :
  (i, d) ∈ zip (seq s (length l)) l ↔ s ≤ i ∧ l !! (i - s) = Some d.
Proof.
  revert s. induction l as [|x l IH]; intros s; simpl.
  - split; [by intros H%elem_of_nil | by intros [_ H]].
  - rewrite elem_of_cons, IH. split.
    + intros [H | [Hle Hl]].
      * simplify_eq. split; [lia|]. by rewrite Nat.sub_diag.
      * split; [lia|]. by replace (i - s) with (S (i - S s)) by lia.
    + intros [Hle Hl]. destruct (decide (i = s)) as [-> | Hne].
      * left. rewrite Nat.sub_diag in Hl. simpl in Hl. by simplify_eq.
      * right. split; [lia|].
        by replace (i - s) with (S (i - S s)) in Hl by lia.
Qed.

Lemma elem_of_enumerate {X} (l : list X) i d :
  (i, d) ∈ enumerate l ↔ l !! i = Some d.
Proof.
  unfold enumerate. rewrite elem_of_zip_seq, Nat.sub_0_r.
  split; [by intros [_ H] | intros H; split; [lia | done]].
Qed.

Lemma best_step_length worse best e :
  length (best_step worse best e) = length best.
Proof.
  destruct e as [i d]. unfold best_step.
  repeat case_match; try done. by rewrite length_insert.
Qed.

(** One step of the second loop, seen from the entry [c] of [best]. *)
Lemma best_step_entry worse best i d c b0 :
  c = 1 ∨ c = 2 →
  best !! c = Some b0 →
  ∃ b1, best_step worse best (i, d) !! c = Some b1
    ∧ (b0 <= b1)%Q
    ∧ (i ∉ worse → class_id d = Z.of_nat c → (score d <= b1)%Q)
    ∧ (b1 = b0 ∨ ((i ∉ worse) ∧ class_id d = Z.of_nat c ∧ b1 = score d)).
Proof.
  intros Hc Hb0. unfold best_step.
  destruct (bool_decide (i ∈ worse)) eqn:Hw.
  { apply bool_decide_eq_true in Hw. exists b0.
    repeat split; [done | apply Qle_refl | done | by left]. }
  apply bool_decide_eq_false in Hw.
  destruct (negb _) eqn:Hcat.
  { exists b0. repeat split; [done | apply Qle_refl | | by left].
    intros _ Hd. apply negb_true_iff, orb_false_iff in Hcat as [H1 H2].
    apply Z.eqb_neq in H1, H2. lia. }
  apply negb_false_iff, orb_true_iff in Hcat.
  destruct (decide (class_id d = Z.of_nat c)) as [Heq | Hne].
  - rewrite Heq, Nat2Z.id, Hb0.
    destruct (Qlt_bool b0 (score d)) eqn:Hlt.
    + apply Qlt_bool_iff in Hlt. exists (score d).
      rewrite list_lookup_insert_eq by (by eapply lookup_lt_Some).
      repeat split; [by apply Qlt_le_weak | intros; apply Qle_refl | by right].
    + apply Qlt_bool_false in Hlt. exists b0.
      repeat split; [done | apply Qle_refl | intros; by apply Qnot_lt_le | by left].
  - exists b0.
    assert (Hidx : Z.to_nat (class_id d) ≠ c).
    { destruct Hcat as [H | H]; apply Z.eqb_eq in H; lia. }
    assert (Hsame : ∀ bst : list Q,
              match best !! Z.to_nat (class_id d) with
              | Some b => if Qlt_bool b (score d)
                          then <[Z.to_nat (class_id d) := score d]> best else best
              | None => best
              end !! c = Some b0).
    { intros _. repeat case_match; try done.
      by rewrite list_lookup_insert_ne. }
    rewrite (Hsame best).
    repeat split; [apply Qle_refl | done | by left].
Qed.

Lemma best_fold_entry worse (l : list (nat * Detection)) best0 c b0 :
  c = 1 ∨ c = 2 →
  best0 !! c = Some b0 →
  ∃ b, foldl (best_step worse) best0 l !! c = Some b
    ∧ (b0 <= b)%Q
    ∧ (∀ i d, (i, d) ∈ l → i ∉ worse → class_id d = Z.of_nat c → (score d <= b)%Q)
    ∧ (b = b0 ∨ ∃ i d, (i, d) ∈ l ∧ (i ∉ worse)
                       ∧ class_id d = Z.of_nat c ∧ b = score d).
Proof.
  intros Hc. revert best0 b0.
  induction l as [|[i d] l IH]; intros best0 b0 Hb0; simpl.
  - exists b0. repeat split; [done | apply Qle_refl | | by left].
    by intros i d H%elem_of_nil.
  - destruct (best_step_entry worse best0 i d c b0 Hc Hb0)
      as (b1 & Hb1 & Hle1 & Hup1 & Hor1).
    destruct (IH _ _ Hb1) as (b & Hb & Hle & Hup & Hor).
    exists b. repeat split; [done | by eapply Qle_trans | |].
    + intros i' d' Hin Hw Hcat. apply elem_of_cons in Hin as [Heq | Hin].
      * simplify_eq. eapply Qle_trans; [by apply Hup1 | done].
      * by eapply Hup.
    + destruct Hor as [-> | (i' & d' & Hin & Hw & Hcat & ->)].
      * destruct Hor1 as [-> | (Hw & Hcat & ->)]; [by left|].
        right. exists i, d. repeat split; [apply list_elem_of_here | done..].
      * right. exists i', d'. repeat split; [by apply list_elem_of_further | done..].
Qed.

(** [best[c]] for a singleton class [c]: an upper bound of the scores of
    the detections of the class that are not worse, and one of these
    scores unless it is still zero. *)
Lemma best_of_spec worse preds c :
  c = 1 ∨ c = 2 →
  ∃ b, best_of worse preds !! c = Some b
    ∧ (0 <= b)%Q
    ∧ (∀ i d, preds !! i = Some d → i ∉ worse → class_id d = Z.of_nat c →
              (score d <= b)%Q)
    ∧ (b = 0%Q ∨ ∃ i d, preds !! i = Some d ∧ (i ∉ worse)
                          ∧ class_id d = Z.of_nat c ∧ b = score d).
Proof.
  intros Hc. unfold best_of.
  destruct (best_fold_entry worse (enumerate preds) [0%Q; 0%Q; 0%Q; 0%Q] c 0%Q Hc)
    as (b & Hb & Hle & Hup & Hor).
  { by destruct Hc as [-> | ->]. }
  exists b. repeat split; [done..| |].
  - intros i d Hi. apply Hup. by apply elem_of_enumerate.
  - destruct Hor as [-> | (i & d & Hin & H)]; [by left|].
    right. exists i, d. split; [by apply elem_of_enumerate | done].
Qed.

(** C7: a detection of a singleton class (1 or 2) that the pairwise stage
    has not marked worse is kept exactly when no detection of its class
    that is not worse scores higher, and is skipped exactly when one does,
    whatever the masks are. *)
Theorem C7_singleton_class_keeps_the_best (preds : list Detection) (i : nat)
    (d : Detection) :
  preds !! i = Some d →
  i ∉ worse_of preds →
  (class_id d = 1 ∨ class_id d = 2)%Z →
  (0 <= score d)%Q →
  let worse := worse_of preds in
  let best := best_of worse preds in
  (select worse best i d = Ok Keep
   ↔ ∀ j dj, preds !! j = Some dj → j ∉ worse → class_id dj = class_id d →
             (score dj <= score d)%Q)
  ∧ (select worse best i d = Ok Skip
     ↔ ∃ j dj, preds !! j = Some dj ∧ (j ∉ worse) ∧ class_id dj = class_id d
               ∧ (score d < score dj)%Q).
Proof.
  intros Hi Hw Hcat Hpos worse best.
  assert (Hc : ∃ c, (c = 1 ∨ c = 2) ∧ class_id d = Z.of_nat c).
  { destruct Hcat as [H | H]; [exists 1 | exists 2]; split; auto. }
  destruct Hc as (c & Hc & Hcd).
  destruct (best_of_spec worse preds c Hc) as (b & Hb & Hb0 & Hup & Hor).
  assert (Hsel : select worse best i d
                 = if Qlt_bool (score d) b then Ok Skip else Ok Keep).
  { unfold select. rewrite (bool_decide_eq_false_2 _ Hw).
    assert (Hz : (class_id d =? 0)%Z = false) by (apply Z.eqb_neq; lia).
    rewrite Hz. unfold py_index.
    assert (Hn : (class_id d <? 0)%Z = false) by (apply Z.ltb_ge; lia).
    rewrite Hn, Hn, Hcd, Nat2Z.id. fold best in Hb |- *. by rewrite Hb. }
  rewrite Hsel. split.
  - split.
    + intros Hk j dj Hj Hwj Hcj.
      destruct (Qlt_bool (score d) b) eqn:E; [discriminate|].
      apply Qlt_bool_false, Qnot_lt_le in E.
      eapply Qle_trans; [|exact E]. apply (Hup j dj); [done..|congruence].
    + intros Hall.
      destruct (Qlt_bool (score d) b) eqn:E; [|done].
      apply Qlt_bool_iff in E. exfalso.
      destruct Hor as [-> | (j & dj & Hj & Hwj & Hcj & ->)].
      * by apply (Qlt_not_le _ _ E).
      * apply (Qlt_not_le _ _ E). apply (Hall j dj); [done..|congruence].
  - split.
    + intros Hk.
      destruct (Qlt_bool (score d) b) eqn:E; [|discriminate].
      apply Qlt_bool_iff in E.
      destruct Hor as [-> | (j & dj & Hj & Hwj & Hcj & ->)].
      * exfalso. by apply (Qlt_not_le _ _ E).
      * exists j, dj. repeat split; [done..|congruence|done].
    + intros (j & dj & Hj & Hwj & Hcj & Hlt).
      assert (E : Qlt_bool (score d) b = true).
      { apply Qlt_bool_iff. eapply Qlt_le_trans; [exact Hlt|].
        apply (Hup j dj); [done..|congruence]. }
      by rewrite E.
Qed.

Lemma C7_singleton_class_keeps_the_best_witness :
  let d0 := detection 1 (9 # 10) [[true; false]] in
  let d1 := detection 1 (6 # 10) [[false; true]] in
  let preds := [d0; d1] in
  worse_of preds = []
  ∧ select (worse_of preds) (best_of (worse_of preds) preds) 0 d0 = Ok Keep
  ∧ select (worse_of preds) (best_of (worse_of preds) preds) 1 d1 = Ok Skip.
Proof.
  intros d0 d1 preds.
  assert (Hw : worse_of preds = []) by reflexivity.
  split; [exact Hw|]. split.
  - apply (C7_singleton_class_keeps_the_best preds 0 d0);
      [reflexivity | rewrite Hw; apply not_elem_of_nil | by left
      | vm_compute; discriminate |].
    intros [|[|j]] dj Hj _ _; simpl in Hj; try discriminate;
      injection Hj as <-; vm_compute; discriminate.
  - apply (C7_singleton_class_keeps_the_best preds 1 d1);
      [reflexivity | rewrite Hw; apply not_elem_of_nil | by left
      | vm_compute; discriminate |].
    exists 0, d0. split; [reflexivity|].
    split; [rewrite Hw; apply not_elem_of_nil|]. split; reflexivity.
Defined.

(** ** The background class *)

Lemma enumerate_lookup {X} (l : list X) i d :
  l !! i = Some d → enumerate l !! i = Some (i, d).
Proof.
  intros H. unfold enumerate. rewrite lookup_zip_with.
  rewrite (lookup_seq_lt 0 (length l) i) by (by eapply lookup_lt_Some).
  simpl. by rewrite H.
Qed.

Lemma annotate_all_app S CV worse best allregions allpolys l1 l2 st :
  annotate_all S CV worse best allregions allpolys (l1 ++ l2) st
  = annotate_all S CV worse best allregions allpolys l1 st
    ≫= annotate_all S CV worse best allregions allpolys l2.
Proof.
  revert st. induction l1 as [|[i d] l1 IH]; intros st; simpl; [done|].
  destruct (select worse best i d) as [sel|e]; simpl; [|done].
  destruct (match sel with Skip => _ | Keep => _ end) as [st'|e]; simpl; [|done].
  apply IH.
Qed.

(** C6, as the code has it.  A detection of the background class 0 that
    the pairwise stage has not marked worse makes the processing of the
    page fail, and once the detections before it have been processed
    without an exception the exception is the one of the background class:
    no later detection is looked at.  A detection of the background class
    that the pairwise stage has marked worse is skipped without an error:
    the third loop goes from the detections before it to the detections
    after it. *)
Theorem C6_background_class_is_fatal (S : Shapely) (CV : OpenCV)
    (preds : list Detection)
    (allregions : list (TextRegionType S)) (allpolys : list (Geom S))
    (st : AddressState S) (i : nat) (d : Detection) :
  preds !! i = Some d →
  class_id d = 0%Z →
  let worse := worse_of preds in
  let best := best_of worse preds in
  let run := annotate_all S CV worse best allregions allpolys in
  (i ∉ worse →
     (∃ e, classify_page S CV preds allregions allpolys st = Raise e)
     ∧ (∀ st', run (take i (enumerate preds)) st = Ok st' →
               classify_page S CV preds allregions allpolys st = Raise BackgroundClass))
  ∧ (i ∈ worse →
     select worse best i d = Ok Skip
     ∧ classify_page S CV preds allregions allpolys st
       = run (take i (enumerate preds)) st ≫= run (drop (i + 1) (enumerate preds))).
Proof.
  intros Hi Hcat worse best run.
  assert (Hrun : classify_page S CV preds allregions allpolys st
            = run (take i (enumerate preds)) st
              ≫= run ((i, d) :: drop (i + 1) (enumerate preds))).
  { unfold classify_page. fold worse best run.
    rewrite <- (take_drop_middle (enumerate preds) i (i, d)) at 1
      by (by apply enumerate_lookup).
    replace (Datatypes.S i) with (i + 1) by lia.
    apply annotate_all_app. }
  split.
  - intros Hw.
    assert (Hsplit : classify_page S CV preds allregions allpolys st
              = run (take i (enumerate preds)) st ≫= λ _, Raise BackgroundClass).
    { rewrite Hrun. destruct (run (take i (enumerate preds)) st) as [st'|e]; simpl; [|done].
      unfold run. simpl. unfold select. rewrite (bool_decide_eq_false_2 _ Hw), Hcat. done. }
    rewrite Hsplit. split.
    + destruct (run (take i (enumerate preds)) st) as [st'|e]; simpl; eauto.
    + intros st' ->. done.
  - intros Hw.
    assert (Hskip : select worse best i d = Ok Skip).
    { unfold select. by rewrite (bool_decide_eq_true_2 _ Hw). }
    split; [exact Hskip|].
    rewrite Hrun. destruct (run (take i (enumerate preds)) st) as [st'|e]; simpl; [|done].
    unfold run at 1. simpl. by rewrite Hskip.
Qed.

Lemma C6_background_class_is_fatal_witness :
  let preds := [detection 1 (9 # 10) left_block; detection 0 (8 # 10) right_block] in
  (1 ∉ worse_of preds)
  ∧ annotate_all Boxes.shapely Boxes.opencv (worse_of preds)
      (best_of (worse_of preds) preds) [] [] (take 1 (enumerate preds))
      Boxes.empty_page = Ok Boxes.empty_page
  ∧ classify_page Boxes.shapely Boxes.opencv preds [] [] Boxes.empty_page
    = Raise BackgroundClass.
Proof.
  intros preds.
  assert (Hw : 1 ∉ worse_of preds) by apply not_elem_of_nil.
  assert (Hbefore : annotate_all Boxes.shapely Boxes.opencv (worse_of preds)
                      (best_of (worse_of preds) preds) [] [] (take 1 (enumerate preds))
                      Boxes.empty_page = Ok Boxes.empty_page)
    by (vm_compute; reflexivity).
  split; [exact Hw|]. split; [exact Hbefore|].
  exact (proj2 (proj1 (C6_background_class_is_fatal Boxes.shapely Boxes.opencv preds [] []
                         Boxes.empty_page 1 (detection 0 (8 # 10) right_block)
                         eq_refl eq_refl) Hw)
           Boxes.empty_page Hbefore).
Defined.

(** C6 as it is written fails: a detection of the background class that
    shares a pixel with a detection of a higher score is marked worse and
    skipped without an error. *)
Lemma C6_counterexample :
  let preds := [detection 1 (9 # 10) block; detection 0 (5 # 10) block] in
  preds !! 1 = Some (detection 0 (5 # 10) block)
  ∧ classify_page Boxes.shapely Boxes.opencv preds [] [] Boxes.empty_page
    = Ok Boxes.empty_page.
Proof.
  intros preds. split; [reflexivity|]. vm_compute. reflexivity.
Qed.

(** ** The simplification loop *)

Lemma simplify_loop_spec {G} (simplify : Z → G → G) (is_valid : G → bool)
    (len : nat) (t : Z) (p : G) :
  let result := simplify_loop simplify is_valid (seqZ t (Z.of_nat len)) p in
  (∃ n, 1 ≤ n ≤ len
        ∧ result = simplified_from simplify t n p
        ∧ is_valid result = true
        ∧ ∀ k, 1 ≤ k < n → is_valid (simplified_from simplify t k p) = false)
  ∨ (result = simplified_from simplify t len p
     ∧ ∀ k, 1 ≤ k ≤ len → is_valid (simplified_from simplify t k p) = false).
Proof.
  revert t p. induction len as [|len IH]; intros t p; simpl.
  - right. split; [done|]. intros k Hk. lia.
  - rewrite Nat2Z.inj_succ, seqZ_cons by lia.
    replace (Z.pred (Z.succ (Z.of_nat len))) with (Z.of_nat len) by lia.
    replace (Z.succ t) with (t + 1)%Z by lia. simpl.
    destruct (is_valid (simplify t p)) eqn:Hv.
    + left. exists 1. split_and!; [lia | lia | done | done |].
      intros k Hk. lia.
    + destruct (IH (t + 1)%Z (simplify t p)) as [(n & Hn & Hres & Hval & Hbefore) | [Hres Hall]].
      * left. exists (S n). split_and!; [lia | lia | done | done |].
        intros [|[|k]] Hk; [lia | done |]. apply (Hbefore (S k)). lia.
      * right. split; [done|].
        intros [|[|k]] Hk; [lia | done |]. apply (Hall (S k)). lia.
Qed.

Lemma py_range_from_2 (area : Z) :
  py_range 2 area = seqZ 2 (Z.of_nat (Z.to_nat (area - 2))).
Proof.
  unfold py_range. destruct (decide (0 <= area - 2)%Z) as [H | H].
  - by rewrite Z2Nat.id.
  - rewrite seqZ_nil by lia. replace (Z.to_nat (area - 2)) with 0 by lia. done.
Qed.

(** C3, as the code has it.  The contour is the first of those left by
    the rounds of dilation: without a contour the vectorisation ends in
    [IndexError], with a contour of fewer than three points in
    [ValueError].  Otherwise the polygon of the contour is simplified with
    the tolerances 2, 3, ..., area - 1, one after the other and each on the
    result of the one before; the loop stops at the first result that is
    valid, which is then returned; when no result is valid (or no tolerance
    is tried, the area being at most 2) the last polygon of the chain is
    returned as it is.  The coordinates of the new region are the ring of
    the result without its closing vertex. *)
Theorem C3_first_valid_simplification (S : Shapely) (CV : OpenCV) (m : Mask) :
  let area := count_nonzero m in
  let scale := kernel_scale area in
  let rounds := Z.to_nat (area - 2) in
  match dilate_rounds CV 10 scale m [[]; []] with
  | [] => vectorize S CV m = Raise IndexError
  | contour :: _ =>
      if (length contour <? 3)%nat then vectorize S CV m = Raise ValueError
      else
        let chain := simplified (simplify S) (Polygon S contour) in
        ∃ rpoly,
          vectorize S CV m = Ok (scale, rpoly)
          ∧ (length (py_range 2 area) = rounds
             ∧ ∀ k, k < rounds → py_range 2 area !! k = Some (2 + Z.of_nat k)%Z)
          ∧ ((∃ n, 1 ≤ n ≤ rounds ∧ rpoly = chain n ∧ is_valid S rpoly = true
                   ∧ ∀ k, 1 ≤ k < n → is_valid S (chain k) = false)
             ∨ (rpoly = chain rounds
                ∧ ∀ k, 1 ≤ k ≤ rounds → is_valid S (chain k) = false))
          ∧ (∀ i name d ring v,
               exterior_coords S rpoly = ring ++ [v] →
               Coords (new_region S i name d rpoly) = Polygon S ring)
  end.
Proof.
  intros area scale rounds. unfold vectorize. fold area scale.
  destruct (dilate_rounds CV 10 scale m [[]; []]) as [|contour rest]; [reflexivity|].
  change (py_index (contour :: rest) 0) with (Ok contour).
  unfold py_Polygon. simpl. destruct (length contour <? 3)%nat; [reflexivity|].
  simpl. eexists. split; [reflexivity|]. split; [|split].
  - rewrite py_range_from_2. fold rounds. split.
    + rewrite length_seqZ. lia.
    + intros k Hk. apply lookup_seqZ. split; [done | lia].
  - unfold simplify_until_valid. rewrite py_range_from_2. fold rounds.
    apply (simplify_loop_spec (simplify S) (is_valid S) rounds 2 (Polygon S contour)).
  - intros i name d ring v Hring. simpl. rewrite Hring.
    unfold keep_open. by rewrite removelast_last.
Qed.

Lemma C3_first_valid_simplification_witness :
  (vectorize Boxes.shapely Boxes.opencv block = Ok (1%Z, Boxes.Box 0 0 1 1)
   ∧ Coords (new_region Boxes.shapely 0 "address-rcpt" (detection 1 (9 # 10) block)
               (Boxes.Box 0 0 1 1))
     = Polygon Boxes.shapely [(0, 0); (1, 0); (1, 1); (0, 1)]%Z)
  ∧ vectorize Boxes.shapely Boxes.opencv one_pixel = Raise ValueError
  ∧ vectorize Boxes.shapely Boxes.opencv [[false]] = Raise IndexError.
Proof.
  split;
    [|split; [exact (C3_first_valid_simplification Boxes.shapely Boxes.opencv one_pixel)
             |exact (C3_first_valid_simplification Boxes.shapely Boxes.opencv [[false]])]].
  destruct (C3_first_valid_simplification Boxes.shapely Boxes.opencv block)
    as (rpoly & Hv & _ & _ & Hopen).
  assert (Hr : rpoly = Boxes.Box 0 0 1 1).
  { assert (Hb : vectorize Boxes.shapely Boxes.opencv block = Ok (1%Z, Boxes.Box 0 0 1 1))
      by reflexivity.
    rewrite Hb in Hv. by injection Hv. }
  subst rpoly. split; [exact Hv|].
  apply (Hopen 0 "address-rcpt" (detection 1 (9 # 10) block)
           [(0, 0); (1, 0); (1, 1); (0, 1)]%Z (0, 0)%Z).
  reflexivity.
Defined.

(** C3 as it is written fails: the contour of a mask of three pixels in
    the shape of a V is a ring without an area; with the pixel area 3 the
    only tolerance is 2, the simplification leaves the ring of four
    vertices as it is, and the loop returns it although it is not valid. *)
Lemma C3_counterexample :
  count_nonzero Rings.vee_mask = 3%Z
  ∧ py_range 2 (count_nonzero Rings.vee_mask) = [2%Z]
  ∧ simplify_until_valid Rings.ring_simplify Rings.ring_valid
      (count_nonzero Rings.vee_mask) Rings.vee = Rings.vee
  ∧ Rings.ring_valid
      (simplify_until_valid Rings.ring_simplify Rings.ring_valid
         (count_nonzero Rings.vee_mask) Rings.vee) = false.
Proof. split_and!; vm_compute; reflexivity. Qed.

(** ** The guard against ghost detections *)

Lemma list_remove_elem_of {X} (same : X → bool) (l l' : list X) x :
  list_remove same l = Ok l' → x ∈ l' → x ∈ l.
Proof.
  revert l'. induction l as [|y l IH]; intros l' H Hx; simpl in H; [discriminate|].
  destruct (same y).
  - simplify_eq. by apply list_elem_of_further.
  - inv_bind H. simplify_eq. apply elem_of_cons in Hx as [-> | Hx].
    + apply list_elem_of_here.
    + apply list_elem_of_further. by eapply IH.
Qed.

Lemma remove_region_page_elem_of {S} owner rid (st st' : PageState S) x :
  remove_region S owner rid st = Ok st' →
  x ∈ page_TextRegion st' → x ∈ page_TextRegion st.
Proof.
  unfold remove_region. intros H Hx. destruct owner; inv_bind H; simplify_eq; simpl in Hx.
  - by eapply list_remove_elem_of.
  - done.
Qed.

Lemma steal_lines_has_address {S} (c : Candidate S) k (lines : list (TextLineType S)) :
  has_address (steal_lines S c k lines)
  = has_address c || existsb (sets_has_address S) lines.
Proof.
  revert c k. induction lines as [|line lines IH]; intros c k; simpl.
  - by rewrite orb_false_r.
  - rewrite IH. unfold steal_line.
    destruct (within S _ _); simpl;
      destruct (sets_has_address S line), (has_address c); simpl; done.
Qed.

(** The flag [has_address] is raised by a line that passes the test of the
    code, and by nothing else; the neighbours only ever leave the page. *)
Lemma visit_neighbours_guard {S} scale (ns : list (TextRegionType S * Geom S))
    (c c' : Candidate S) (st st' : AddressState S) :
  visit_neighbours S scale ns (c, st) = Ok (c', st') →
  (has_address c' = true →
   has_address c = true
   ∨ ∃ n line, n ∈ map fst ns ∧ line ∈ TextLine n ∧ sets_has_address S line = true)
  ∧ (∀ x, x ∈ page_TextRegion (a_page st') → x ∈ page_TextRegion (a_page st)).
Proof.
  revert c st. induction ns as [|[n npoly] ns IH]; intros c st H; simpl in H.
  - simplify_eq. split; [by left | done].
  - inv_bind H. destruct a as [c1 st1].
    destruct (IH _ _ H) as [Hflag Hpage].
    unfold visit_neighbour in Ha.
    destruct (bool_decide _).
    { simplify_eq. split; [|done]. intros Hc'.
      destruct (Hflag Hc') as [? | (n' & line & Hn' & Hl)]; [by left|].
      right. exists n', line. split; [by apply list_elem_of_further | done]. }
    destruct (supersedes S scale npoly (region_poly c)).
    2: { simplify_eq. split; [|done]. intros Hc'.
         destruct (Hflag Hc') as [? | (n' & line & Hn' & Hl)]; [by left|].
         right. exists n', line. split; [by apply list_elem_of_further | done]. }
    inv_bind Ha. simplify_eq. simpl in Hflag, Hpage. split.
    + intros Hc'. destruct (Hflag Hc') as [Hst | (n' & line & Hn' & Hl)].
      * rewrite steal_lines_has_address in Hst.
        apply orb_true_iff in Hst as [? | Hex]; [by left|].
        apply existsb_exists in Hex as (line & Hline & Hset).
        right. exists n, line. simpl.
        split; [apply list_elem_of_here|]. split; [by apply list_elem_of_In | done].
      * right. exists n', line. split; [by apply list_elem_of_further | done].
    + intros x Hx. apply Hpage in Hx.
      destruct (parent_object_ n); [|discriminate].
      by eapply remove_region_page_elem_of.
Qed.

(** Without a stolen line that passes the test of the code, the new region
    of a detection does not come onto the page. *)
Lemma ghost_guard_rejects (S : Shapely) (CV : OpenCV) (i : nat) (d : Detection)
    (allregions : list (TextRegionType S)) (allpolys : list (Geom S))
    (st st' : AddressState S) :
  (∀ n line, n ∈ allregions → line ∈ TextLine n → sets_has_address S line = false) →
  annotate S CV i d allregions allpolys st = Ok st' →
  ∀ x, x ∈ page_TextRegion (a_page st') → x ∈ page_TextRegion (a_page st).
Proof.
  intros Hnone H. unfold annotate in H.
  inv_bind H. inv_bind H. destruct a0 as [scale rpoly].
  inv_bind H. destruct a0 as [c st1].
  destruct (visit_neighbours_guard _ _ _ _ _ _ Ha1) as [Hflag Hpage].
  destruct (has_address c) eqn:Hc.
  - exfalso. destruct (Hflag eq_refl) as [? | (n & line & Hn & Hl & Hset)]; [done|].
    rewrite (Hnone n line) in Hset; [done| |done].
    apply list_elem_of_In, in_map_iff in Hn as ([n' p] & <- & Hin).
    apply list_elem_of_In. simpl. eapply in_combine_l.
    apply list_elem_of_In in Hin. apply list_elem_of_In. exact Hin.
  - by simplify_eq.
Qed.

(** C8 fails on a page whose only line is tagged [ADDRESS_NONE]: the line
    carries no address ([mark_line] leaves it out of the detector input),
    the new region steals it, and the guard lets the region onto the page
    because the tag starts with [subtype: ADDRESS_]. *)
Theorem C8_guard_accepts_address_none :
  let preds := [detection 1 (9 # 10) block] in
  mark_line Boxes.shapely Boxes.line_without_address = false
  ∧ sets_has_address Boxes.shapely Boxes.line_without_address = true
  ∧ ∃ st, classify_page Boxes.shapely Boxes.opencv preds
            [Boxes.region_without_address] [Boxes.Box 0 0 1 1]
            Boxes.page_without_address = Ok st
          ∧ page_TextRegion (a_page st) = ["addressregion01"]
          ∧ (TextLine <$> objects (a_page st) !! "addressregion01"
             = Some [Boxes.mk_line "addressregion01_line00"
                       (Some "subtype: ADDRESS_NONE") (Boxes.Box 0 0 1 1)
                       (Some "Lorem ipsum")]).
Proof.
  intros preds. split; [reflexivity|]. split; [reflexivity|].
  eexists. split; [vm_compute; reflexivity|]. split; reflexivity.
Qed.

(** ** Re-indexing an ordered group *)

(** C2 fails on an ordered group that holds region references and a nested
    group: after the reference to [r1] has been removed, only the list of
    region references is re-indexed, and the nested group keeps its index
    2 next to the one remaining reference with index 0.  For a region that
    the page owns the call then raises [ValueError]: the call for the
    nested group has already removed the region from the page. *)
Theorem C2_reindexing_skips_nested_groups :
  (∃ st, _plausibilize_group Boxes.shapely
           [region_polygon_of Boxes.shapely (Boxes.mk_orphan "r1" (Boxes.Box 0 0 1 1))]
           Boxes.mixed_group Boxes.delete_r1 (page_of Boxes.shapely [])
         = Ok (Ordered (OGroup [(0%Z, "r2")] [(2%Z, None, OGroup [] [] [])] []), st))
  ∧ _plausibilize_group Boxes.shapely
      [region_polygon_of Boxes.shapely (Boxes.mk_region "r1" (Boxes.Box 0 0 1 1) [])]
      Boxes.mixed_group Boxes.delete_r1
      (page_of Boxes.shapely [Boxes.mk_region "r1" (Boxes.Box 0 0 1 1) []])
    = Raise ValueError.
Proof.
  split; [eexists|]; vm_compute; reflexivity.
Qed.

(** ** Lists: removal and filters *)

Lemma filter_ext_in {X} (P1 P2 : X → Prop) `{∀ x, Decision (P1 x)} `{∀ x, Decision (P2 x)}
    (l : list X) :
  (∀ x, x ∈ l → (P1 x ↔ P2 x)) → filter P1 l = filter P2 l.
Proof.
  induction l as [|x l IH]; intros Hext; [done|].
  rewrite !filter_cons.
  assert (Hx : P1 x ↔ P2 x) by (apply Hext; apply list_elem_of_here).
  rewrite IH by (intros y Hy; apply Hext; by apply list_elem_of_further).
  destruct (decide (P1 x)), (decide (P2 x)); tauto.
Qed.

Lemma map_filter_key {X K} (f : X → K) (P : K → Prop) `{∀ k, Decision (P k)} (l : list X) :
  map f (filter (λ x, P (f x)) l) = filter P (map f l).
Proof.
  induction l as [|x l IH]; [done|]. simpl.
  rewrite !filter_cons. destruct (decide (P (f x))); simpl; by rewrite IH.
Qed.

(** [list.remove] on a list whose elements differ in the key that the
    test looks at. *)
Lemma list_remove_key {X K} (f : X → K) (v : K) (same : X → bool) (l : list X)
    `{EqDecision K} :
  (∀ y, same y = true ↔ f y = v) →
  NoDup (map f l) → v ∈ map f l →
  list_remove same l = Ok (filter (λ y, f y ≠ v) l).
Proof.
  intros Hsame. induction l as [|x l IH]; simpl; intros Hnd Hin.
  - by apply elem_of_nil in Hin.
  - apply NoDup_cons in Hnd as [Hx Hnd]. rewrite filter_cons.
    destruct (same x) eqn:E.
    + apply Hsame in E. subst v.
      destruct (decide (f x ≠ f x)) as [Hne | _]; [done|].
      f_equal. symmetry.
      rewrite (filter_ext_in _ (λ _, True)).
      * clear. induction l as [|y l IH]; [done|].
        rewrite filter_cons. destruct (decide True); [by rewrite IH | tauto].
      * intros y Hy. split; [done|]. intros _ Heq. apply Hx. rewrite <- Heq.
        apply list_elem_of_In, in_map, list_elem_of_In, Hy.
    + assert (Hne : f x ≠ v).
      { intros Heq. apply Hsame in Heq. congruence. }
      apply elem_of_cons in Hin as [Heq | Hin]; [congruence|].
      rewrite IH by done. simpl.
      destruct (decide (f x ≠ v)); [done | contradiction].
Qed.

Lemma NoDup_fmap_key {X K} (f : X → K) (l : list X) x y :
  NoDup (map f l) → x ∈ l → y ∈ l → f x = f y → x = y.
Proof.
  induction l as [|z l IH]; simpl; intros Hnd Hx Hy Heq.
  - by apply elem_of_nil in Hx.
  - apply NoDup_cons in Hnd as [Hz Hnd].
    apply elem_of_cons in Hx as [-> | Hx], Hy as [-> | Hy].
    + done.
    + exfalso. apply Hz. rewrite Heq.
      apply list_elem_of_In, in_map, list_elem_of_In, Hy.
    + exfalso. apply Hz. rewrite <- Heq.
      apply list_elem_of_In, in_map, list_elem_of_In, Hx.
    + by apply IH.
Qed.

Lemma sublist_map_filter {X K} (f : X → K) (P : X → Prop) `{∀ x, Decision (P x)}
    (l : list X) :
  sublist (map f (filter P l)) (map f l).
Proof.
  induction l as [|x l IH]; simpl; [done|].
  rewrite filter_cons. destruct (decide (P x)); simpl.
  - by apply sublist_skip.
  - by apply sublist_cons.
Qed.

(** ** The executor on the regions of the page *)

Lemma remove_region_page {S} (rid : string) (st : PageState S) :
  NoDup (page_TextRegion st) → rid ∈ page_TextRegion st →
  remove_region S OwnerPage rid st
  = Ok {| objects := objects st;
          page_TextRegion := filter (λ x, x ≠ rid) (page_TextRegion st);
          sub_TextRegion := sub_TextRegion st |}.
Proof.
  intros Hnd Hin. unfold remove_region.
  rewrite (list_remove_key (λ x : string, x) rid (String.eqb rid) (page_TextRegion st)).
  - done.
  - intros y. rewrite String.eqb_eq. split; congruence.
  - by rewrite map_id.
  - by rewrite map_id.
Qed.

Lemma delete_regions_page {S} (wait : list (TextRegionType S)) (st : PageState S) :
  NoDup (map region_id wait) →
  Forall (λ r, parent_object_ r = Some OwnerPage) wait →
  (∀ r, r ∈ wait → region_id r ∈ page_TextRegion st) →
  NoDup (page_TextRegion st) →
  ∃ st', delete_regions S wait st = Ok st'
         ∧ page_TextRegion st'
           = filter (λ x, x ∉ map region_id wait) (page_TextRegion st).
Proof.
  revert st. induction wait as [|r wait IH]; intros st Hnd Hown Hin Hpl; simpl.
  - exists st. split; [done|]. symmetry.
    rewrite (filter_ext_in _ (λ _, True)).
    + generalize (page_TextRegion st). intros l. induction l as [|y l IHl]; [done|].
      rewrite filter_cons. destruct (decide True); [by rewrite IHl | tauto].
    + intros x _. split; [done|]. intros _. apply not_elem_of_nil.
  - apply NoDup_cons in Hnd as [Hr Hnd]. apply Forall_cons in Hown as [Hp Hown].
    rewrite Hp.
    rewrite remove_region_page by (done || apply Hin, list_elem_of_here). simpl.
    destruct (IH {| objects := objects st;
                    page_TextRegion := filter (λ x, x ≠ region_id r) (page_TextRegion st);
                    sub_TextRegion := sub_TextRegion st |}) as (st' & Hdel & Hpage).
    + done.
    + done.
    + intros r' Hr'. simpl. apply list_elem_of_filter. split.
      * intros Heq. apply Hr. rewrite <- Heq.
        apply list_elem_of_In, in_map, list_elem_of_In, Hr'.
      * apply Hin. by apply list_elem_of_further.
    + simpl. by apply NoDup_filter.
    + exists st'. split; [done|]. rewrite Hpage. simpl.
      rewrite list_filter_filter. apply filter_ext_in.
      intros x _. rewrite elem_of_cons. tauto.
Qed.

(** ** The marks of a plan name regions of the page *)

Lemma compare_pair_marks {S} t (rp1 rp2 : RegionPolygon S) p p' x :
  compare_pair S t rp1 rp2 p = Ok p' →
  marked p' x →
  marked p x ∨ x = region_id (region rp1) ∨ x = region_id (region rp2).
Proof.
  unfold compare_pair, marked. intros H Hx.
  assert (Hdel : ∀ rid, rid = region_id (region rp1) ∨ rid = region_id (region rp2) →
            p' = delete_mark rid p →
            marked p x ∨ x = region_id (region rp1) ∨ x = region_id (region rp2)).
  { intros rid Hrid ->. simpl in Hx. destruct Hx as [Hx | Hx].
    - apply elem_of_app in Hx as [Hx | Hx]; [by left; left|].
      apply list_elem_of_singleton in Hx. subst. by right.
    - left. by right. }
  assert (Hmer : ∀ rid super, rid = region_id (region rp1) ∨ rid = region_id (region rp2) →
            p' = merge_mark rid super p →
            marked p x ∨ x = region_id (region rp1) ∨ x = region_id (region rp2)).
  { intros rid super Hrid ->. simpl in Hx. destruct Hx as [Hx | Hx].
    - left. by left.
    - destruct (decide (rid = x)) as [<- | Hne]; [by right|].
      rewrite lookup_insert_ne in Hx by done. left. by right. }
  destruct (classify S _ _); simplify_eq.
  - eapply Hdel; [|done]. by right.
  - eapply Hdel; [|done]. by right.
  - eapply Hdel; [|done]. by left.
  - inv_bind H. inv_bind H.
    repeat (match type of H with context [if ?b then _ else _] => destruct b end);
      simplify_eq; [by left | | | by left].
    + eapply Hmer; [|done]. by right.
    + eapply Hmer; [|done]. by left.
  - by left.
Qed.

Lemma compare_with_rest_marks {S} t (rp1 : RegionPolygon S) rest p p' x :
  compare_with_rest S t rp1 rest p = Ok p' →
  marked p' x →
  marked p x ∨ x ∈ map (λ rp, region_id (region rp)) (rp1 :: rest).
Proof.
  revert p. induction rest as [|rp2 rest IH]; intros p H Hx; simpl in H.
  - simplify_eq. by left.
  - inv_bind H. destruct (IH _ H Hx) as [Hm | Hin].
    + destruct (compare_pair_marks _ _ _ _ _ _ Ha Hm) as [? | [-> | ->]];
        [by left | right; apply list_elem_of_here
        | right; apply list_elem_of_further, list_elem_of_here].
    + right. simpl in Hin. apply elem_of_cons in Hin as [-> | Hin];
        [apply list_elem_of_here | by do 2 apply list_elem_of_further].
Qed.

Lemma compare_all_marks {S} t (rps : list (RegionPolygon S)) p p' x :
  compare_all S t rps p = Ok p' →
  marked p' x →
  marked p x ∨ x ∈ map (λ rp, region_id (region rp)) rps.
Proof.
  revert p. induction rps as [|rp1 rest IH]; intros p H Hx; simpl in H.
  - simplify_eq. by left.
  - inv_bind H. destruct (IH _ H Hx) as [Hm | Hin].
    + destruct (compare_with_rest_marks _ _ _ _ _ _ Ha Hm) as [? | ?]; [by left | by right].
    + right. simpl. by apply list_elem_of_further.
Qed.

Lemma regionspolys_ids {S} (regions : list (TextRegionType S)) :
  map (λ rp, region_id (region rp)) (regionspolys S regions) ≡ₚ map region_id regions.
Proof.
  unfold regionspolys, sorted_by_area.
  etransitivity; [apply Permutation_map, stable_sort_perm|].
  by rewrite map_map.
Qed.

Lemma plan_page_marks {S} t (regions : list (TextRegionType S)) plan x :
  plan_page S t regions = Ok plan → marked plan x → x ∈ map region_id regions.
Proof.
  unfold plan_page. intros H Hx.
  destruct (compare_all_marks _ _ _ _ _ H Hx) as [[Hm | Hm] | Hin].
  - by apply elem_of_nil in Hm.
  - simpl in Hm. rewrite lookup_empty in Hm. by destruct Hm.
  - by rewrite <- regionspolys_ids.
Qed.

(** ** One call of the executor on a group of region references *)

Section FlatLevel.
Context {S : Shapely} {A B C : Type}.
Context (refA : A → option string) (key : A → string).
Context (Hkey : ∀ x, refA x = Some (key x)).
Context (plan : Plan).

Lemma label_from_fst {X} (s : nat) (a : list X) :
  map fst (label_from s a) = seq s (length a).
Proof.
  unfold label_from. revert s. induction a as [|x a IH]; intros s; simpl; [done|].
  by rewrite IH.
Qed.

Lemma label_from_snd {X} (s : nat) (a : list X) : map snd (label_from s a) = a.
Proof.
  unfold label_from. revert s. induction a as [|x a IH]; intros s; simpl; [done|].
  by rewrite IH.
Qed.

Lemma dict_fold_notin (k : cls) (L : list (nat * A)) d r :
  r ∉ map (λ e, key e.2) L → foldl (dict_set k refA) d L !! r = d !! r.
Proof.
  revert d. induction L as [|e L IH]; intros d Hr; simpl; [done|].
  simpl in Hr. apply not_elem_of_cons in Hr as [Hne Hr].
  rewrite IH by done. unfold dict_set. rewrite Hkey.
  by rewrite lookup_insert_ne.
Qed.

Lemma dict_fold_in (k : cls) (L : list (nat * A)) d e :
  NoDup (map (λ e, key e.2) L) → e ∈ L →
  foldl (dict_set k refA) d L !! key e.2 = Some (k, e.1).
Proof.
  revert d. induction L as [|e' L IH]; intros d Hnd He; simpl.
  - by apply elem_of_nil in He.
  - simpl in Hnd. apply NoDup_cons in Hnd as [Hne Hnd].
    apply elem_of_cons in He as [-> | He].
    + rewrite dict_fold_notin by done. unfold dict_set. rewrite Hkey.
      by rewrite lookup_insert_eq.
    + by apply IH.
Qed.

Context (L0 : list (nat * A)).
Context (Hlabels : NoDup (map fst L0)) (Hkeys : NoDup (map (λ e, key e.2) L0)).

Lemma marked_test rid :
  bool_decide (rid ∈ mark_for_deletion plan)
  || bool_decide (is_Some (mark_for_merging plan !! rid))
  = bool_decide (marked plan rid).
Proof.
  unfold marked.
  destruct (decide (rid ∈ mark_for_deletion plan)) as [H1 | H1],
           (decide (is_Some (mark_for_merging plan !! rid))) as [H2 | H2];
    rewrite ?(bool_decide_eq_true_2 _ H1), ?(bool_decide_eq_false_2 _ H1),
            ?(bool_decide_eq_true_2 _ H2), ?(bool_decide_eq_false_2 _ H2); simpl;
    symmetry; (apply bool_decide_eq_true_2 || apply bool_decide_eq_false_2); tauto.
Qed.

Lemma visit_region_flat rp (ls : LevelState S (A:=A) (B:=B) (C:=C)) removed :
  flat_inv key L0 removed ls →
  region_id (region rp) ∉ removed →
  ∃ ls', visit_region S plan (flat_dict refA L0) rp ls = Ok ls'
    ∧ flat_inv key L0 (if decide (marked plan (region_id (region rp)))
                then region_id (region rp) :: removed else removed) ls'
    ∧ ls_wait ls' = ls_wait ls
                    ++ (if decide (marked plan (region_id (region rp)))
                        then [region rp] else [])
    ∧ page_TextRegion (ls_page ls') = page_TextRegion (ls_page ls)
    ∧ sub_TextRegion (ls_page ls') = sub_TextRegion (ls_page ls).
Proof.
  intros (Hrefs & Hog & Hug & Hvar) Hfresh.
  unfold visit_region. rewrite marked_test.
  set (rid := region_id (region rp)) in *.
  destruct (decide (marked plan rid)) as [Hm | Hm].
  2: { rewrite (bool_decide_eq_false_2 _ Hm). exists ls.
       split_and!; [done | done | by rewrite app_nil_r | done | done]. }
  rewrite (bool_decide_eq_true_2 _ Hm).
  assert (Hpage : ∀ st : PageState S,
            page_TextRegion (match mark_for_merging plan !! rid with
                             | Some super => merge_into S super (polygon rp) st
                             | None => st end) = page_TextRegion st
            ∧ sub_TextRegion (match mark_for_merging plan !! rid with
                              | Some super => merge_into S super (polygon rp) st
                              | None => st end) = sub_TextRegion st).
  { intros st. by destruct (mark_for_merging plan !! rid). }
  destruct (decide (rid ∈ map (λ e, key e.2) L0)) as [Hin | Hnin].
  - apply list_elem_of_In, in_map_iff in Hin as (e & Hke & He).
    apply list_elem_of_In in He.
    assert (Hd : flat_dict refA L0 !! rid = Some (ClsRegionRef, e.1)).
    { rewrite <- Hke. by apply dict_fold_in. }
    rewrite Hd. unfold remove_child.
    rewrite (list_remove_key fst e.1 (has_label e.1) (c_refs (ls_children ls))).
    + simpl. eexists. split; [done|]. unfold flat_inv. simpl.
      split_and!; [|done|done|by right|done|apply Hpage|apply Hpage].
      rewrite Hrefs, list_filter_filter. apply filter_ext_in.
      intros y Hy. rewrite not_elem_of_cons. split.
      * intros [Hl Hr]. split; [|done]. intros Heq. apply Hl.
        assert (y = e); [|by subst].
        eapply (NoDup_fmap_key (λ e, key e.2)); eauto. congruence.
      * intros [Hk Hr]. split; [|done]. intros Heq. apply Hk.
        assert (y = e); [|by subst].
        eapply (NoDup_fmap_key fst); eauto.
    + intros y. unfold has_label. by rewrite Nat.eqb_eq.
    + rewrite Hrefs.
      eapply sublist_NoDup; [exact Hlabels | apply sublist_map_filter].
    + rewrite Hrefs. apply list_elem_of_In, in_map, list_elem_of_In.
      apply list_elem_of_filter. split; [|done]. by rewrite Hke.
  - unfold flat_dict. rewrite dict_fold_notin, lookup_empty by done.
    eexists. split; [done|]. unfold flat_inv. simpl.
    split_and!; [|done|done|done|done|apply Hpage|apply Hpage].
    rewrite Hrefs. apply filter_ext_in. intros y Hy.
    rewrite not_elem_of_cons. split; [|tauto]. intros Hr. split; [|done].
    intros Heq. apply Hnin. rewrite <- Heq.
    apply list_elem_of_In. apply (in_map (λ e, key e.2)). by apply list_elem_of_In.
Qed.

Lemma visit_regions_flat rps (ls : LevelState S (A:=A) (B:=B) (C:=C)) removed :
  flat_inv key L0 removed ls →
  NoDup (map (λ rp, region_id (region rp)) rps) →
  (∀ rp, rp ∈ rps → region_id (region rp) ∉ removed) →
  ∃ ls' removed',
    visit_regions S plan (flat_dict refA L0) rps ls = Ok ls'
    ∧ flat_inv key L0 removed' ls'
    ∧ (∀ x, x ∈ removed'
            ↔ x ∈ removed
              ∨ (marked plan x ∧ x ∈ map (λ rp, region_id (region rp)) rps))
    ∧ ls_wait ls' = ls_wait ls
                    ++ filter (λ r, marked plan (region_id r)) (map region rps)
    ∧ page_TextRegion (ls_page ls') = page_TextRegion (ls_page ls)
    ∧ sub_TextRegion (ls_page ls') = sub_TextRegion (ls_page ls).
Proof.
  revert ls removed. induction rps as [|rp rps IH]; intros ls removed Hinv Hnd Hfresh.
  - exists ls, removed. simpl. split_and!; [done | done | | by rewrite app_nil_r | done | done].
    intros x. split; [by left|]. intros [H | [_ H]]; [done|]. by apply elem_of_nil in H.
  - simpl in Hnd. apply NoDup_cons in Hnd as [Hrp Hnd].
    destruct (visit_region_flat rp ls removed Hinv) as (ls1 & Hv & Hinv1 & Hwait1 & Hp1 & Hs1).
    { apply Hfresh, list_elem_of_here. }
    simpl. rewrite Hv. simpl.
    destruct (IH ls1 _ Hinv1 Hnd) as (ls' & removed' & Hvs & Hinv' & Hrem & Hwait & Hp & Hs).
    { intros rp' Hrp'.
      assert (Hne : region_id (region rp') ≠ region_id (region rp)).
      { intros Heq. apply Hrp. rewrite <- Heq.
        apply list_elem_of_In. apply (in_map (λ rp, region_id (region rp))).
        by apply list_elem_of_In. }
      assert (Hnot : region_id (region rp') ∉ removed).
      { apply Hfresh. by apply list_elem_of_further. }
      destruct (decide (marked plan _)); [|done].
      by apply not_elem_of_cons. }
    exists ls', removed'. split_and!; [done | done | | | congruence | congruence].
    + intros x. rewrite Hrem, elem_of_cons.
      destruct (decide (marked plan (region_id (region rp)))) as [Hm | Hm].
      * rewrite elem_of_cons. split.
        -- intros [[-> | H] | [H1 H2]]; [right | left | right]; tauto.
        -- intros [H | [H1 [-> | H2]]]; [left; right | left; left | right]; tauto.
      * split.
        -- intros [H | [H1 H2]]; [left | right]; tauto.
        -- intros [H | [H1 [-> | H2]]]; [left | contradiction | right]; tauto.
    + rewrite Hwait, Hwait1, <- app_assoc. f_equal. simpl.
      rewrite filter_cons.
      destruct (decide (marked plan (region_id (region rp)))); done.
Qed.

End FlatLevel.

Lemma filter_all {X} (P : X → Prop) `{∀ x, Decision (P x)} (l : list X) :
  (∀ x, x ∈ l → P x) → filter P l = l.
Proof.
  induction l as [|x l IH]; intros Hall; [done|].
  rewrite filter_cons_True by apply Hall, list_elem_of_here.
  f_equal. apply IH. intros y Hy. by apply Hall, list_elem_of_further.
Qed.

Lemma map_imap_key {X Y K} (f : nat → X → Y) (g : Y → K) (g' : X → K) (l : list X) :
  (∀ i x, g (f i x) = g' x) → map g (imap f l) = map g' l.
Proof.
  revert f. induction l as [|x l IH]; intros f Hf; simpl; [done|].
  rewrite Hf. f_equal. apply IH. intros i y. apply Hf.
Qed.

(** ** Sorting and numbering *)

Lemma insert_sorted_map {X Y} (f : X → Y) (le : X → X → bool) (le' : Y → Y → bool)
    (x : X) (l : list X) :
  (∀ a b, le' (f a) (f b) = le a b) →
  insert_sorted le' (f x) (map f l) = map f (insert_sorted le x l).
Proof.
  intros Hle. induction l as [|y l IH]; simpl; [done|].
  rewrite Hle. destruct (le x y); simpl; [done|]. by rewrite IH.
Qed.

Lemma stable_sort_map {X Y} (f : X → Y) (le : X → X → bool) (le' : Y → Y → bool)
    (l : list X) :
  (∀ a b, le' (f a) (f b) = le a b) →
  stable_sort le' (map f l) = map f (stable_sort le l).
Proof.
  intros Hle. unfold stable_sort. induction l as [|x l IH]; simpl; [done|].
  rewrite IH. by apply insert_sorted_map.
Qed.

Lemma map_snd_imap {X Y} (g : nat → Y → Y) (l : list (X * Y)) :
  map snd (imap (λ i e, (e.1, g i e.2)) l) = imap g (map snd l).
Proof.
  revert g. induction l as [|e l IH]; intros g; simpl; [done|].
  f_equal. apply (IH (g ∘ Datatypes.S)).
Qed.

(** The place of a label among distinct labels is its index. *)
Lemma map_position_imap {X Y} (g : Z → X → Y) (lbl : X → nat) (l : list X) :
  NoDup (map lbl l) →
  map (λ e, g (position (lbl e) (map lbl l)) e) l = imap (λ i e, g (Z.of_nat i) e) l.
Proof.
  revert g. induction l as [|e l IH]; intros g Hnd; simpl; [done|].
  apply NoDup_cons in Hnd as [He Hnd].
  rewrite Nat.eqb_refl. f_equal.
  transitivity (map (λ e', g (1 + position (lbl e') (map lbl l))%Z e') l).
  - apply map_ext_in. intros e' He'.
    assert (Hne : lbl e ≠ lbl e').
    { intros Heq. apply He. rewrite Heq. apply list_elem_of_In. by apply in_map. }
    apply Nat.eqb_neq in Hne. by rewrite Hne.
  - rewrite (IH (λ z, g (1 + z)%Z) Hnd). apply imap_ext.
    intros i x _. simpl. f_equal. lia.
Qed.

Section FlatGroup.
Context {S : Shapely} {A B C : Type}.
Context (refA : A → option string) (refB : B → option string) (refC : C → option string).
Context (ixA : A → Z) (ixB : B → Z) (ixC : C → Z).
Context (setA : Z → A → A) (setB : Z → B → B) (setC : Z → C → C).
Context (key : A → string).
Context (Hkey : ∀ x, refA x = Some (key x)).
Context (Hset : ∀ i x, key (setA i x) = key x).

Lemma reindex_keys (var : option cls) (ch : Children (A:=A) (B:=B) (C:=C)) :
  c_ogroups ch = [] → c_ugroups ch = [] →
  var = None ∨ var = Some ClsRegionRef →
  let ch' := reindex ixA ixB ixC setA setB setC var ch in
  map (λ e, key e.2) (c_refs ch') ≡ₚ map (λ e, key e.2) (c_refs ch)
  ∧ c_ogroups ch' = [] ∧ c_ugroups ch' = [].
Proof.
  intros Hog Hug [-> | ->]; simpl.
  - rewrite Hog, Hug. simpl. split; [|done].
    rewrite map_map. simpl. erewrite map_ext; [done|].
    intros e. simpl. apply Hset.
  - split; [|done]. unfold reindex_list.
    rewrite (map_imap_key _ _ (λ e, key e.2)) by (intros i e; apply Hset).
    apply Permutation_map, stable_sort_perm.
Qed.

Lemma reindex_flat_perm (var : option cls) (ch : Children (A:=A) (B:=B) (C:=C)) :
  c_ogroups ch = [] → c_ugroups ch = [] →
  var = None ∨ var = Some ClsRegionRef →
  NoDup (map fst (c_refs ch)) →
  c_refs (reindex ixA ixB ixC setA setB setC var ch)
  ≡ₚ reindex_list ixA setA (c_refs ch).
Proof.
  intros Hog Hug [-> | ->] Hnd; simpl; [|done].
  rewrite Hog, Hug. simpl. rewrite app_nil_r.
  rewrite (stable_sort_map (λ e : nat * A, (e.1, ixA e.2)) (index_le ixA)
             (index_le (λ i : Z, i))) by done.
  set (Ls := stable_sort (index_le ixA) (c_refs ch)).
  replace (map fst (map (λ e : nat * A, (e.1, ixA e.2)) Ls)) with (map fst Ls)
    by (rewrite map_map; by apply map_ext).
  unfold reindex_list. fold Ls.
  rewrite <- (map_position_imap (λ z (e : nat * A), (e.1, setA z e.2)) fst Ls).
  - apply Permutation_map. symmetry. apply stable_sort_perm.
  - assert (Hp : map fst Ls ≡ₚ map fst (c_refs ch))
      by apply Permutation_map, stable_sort_perm.
    by rewrite Hp.
Qed.

Lemma plausibilize_level_flat (ordered : bool) (plan : Plan)
    (rps : list (RegionPolygon S)) (a : list A) (st : PageState S) :
  NoDup (map key a) →
  NoDup (map (λ rp, region_id (region rp)) rps) →
  Forall (λ rp, parent_object_ (region rp) = Some OwnerPage) rps →
  (∀ rp, rp ∈ rps → region_id (region rp) ∈ page_TextRegion st) →
  NoDup (page_TextRegion st) →
  ∃ a' st',
    plausibilize_level S refA refB refC ixA ixB ixC setA setB setC ordered rps plan
      a [] [] st = Ok (a', [], [], st')
    ∧ map key a' ≡ₚ filter (λ x, ¬ gone plan rps x) (map key a)
    ∧ page_TextRegion st' = filter (λ x, ¬ gone plan rps x) (page_TextRegion st)
    ∧ (ordered = true →
       a' ≡ₚ imap (λ i x, setA (Z.of_nat i) x)
               (stable_sort (λ x y, (ixA x <=? ixA y)%Z)
                  (filter (λ x, ¬ gone plan rps (key x)) a))).
Proof.
  intros Hnda Hndr Hown Hin Hpl.
  set (L0 := label_from 0 a).
  assert (Hlabels : NoDup (map fst L0)).
  { unfold L0. rewrite label_from_fst. apply NoDup_seq. }
  assert (HL0 : map (λ e : nat * A, key e.2) L0 = map key a).
  { rewrite <- (map_map snd key). unfold L0. by rewrite label_from_snd. }
  assert (Hkeys : NoDup (map (λ e, key e.2) L0)) by (by rewrite HL0).
  destruct (visit_regions_flat (B := B) (C := C) refA key Hkey plan L0 Hlabels Hkeys rps
              {| ls_children := label_children a [] [];
                 ls_regionrefs := None; ls_page := st; ls_wait := [] |} [])
    as (ls' & removed' & Hv & (Hrefs & Hog & Hug & Hvar) & Hrem & Hwait & Hp & Hs).
  { unfold flat_inv. simpl. split_and!; [|done|done|by left].
    symmetry. apply filter_all. intros x _. apply not_elem_of_nil. }
  { done. }
  { intros rp _. apply not_elem_of_nil. }
  simpl in Hwait, Hp, Hs.
  assert (Hremoved : ∀ x, x ∈ removed' ↔ gone plan rps x).
  { intros x. rewrite Hrem. unfold gone. split; [|by right].
    intros [H | H]; [by apply elem_of_nil in H | done]. }
  destruct (delete_regions_page (ls_wait ls') (ls_page ls')) as (st' & Hdel & Hpage).
  { rewrite Hwait.
    eapply sublist_NoDup; [|apply sublist_map_filter]. by rewrite map_map. }
  { rewrite Hwait. apply Forall_forall. intros r Hr.
    apply list_elem_of_filter in Hr as [_ Hr].
    apply list_elem_of_In, in_map_iff in Hr as (rp & <- & Hrp).
    rewrite Forall_forall in Hown. by apply Hown, list_elem_of_In. }
  { intros r Hr. rewrite Hwait in Hr.
    apply list_elem_of_filter in Hr as [_ Hr].
    apply list_elem_of_In, in_map_iff in Hr as (rp & <- & Hrp).
    rewrite Hp. apply Hin. by apply list_elem_of_In. }
  { by rewrite Hp. }
  pose proof (reindex_keys (ls_regionrefs ls') (ls_children ls') Hog Hug Hvar)
    as (Hrk & Hrog & Hrug).
  exists (map snd (c_refs (if ordered
                           then reindex ixA ixB ixC setA setB setC
                                  (ls_regionrefs ls') (ls_children ls')
                           else ls_children ls'))), st'.
  split_and!.
  - unfold plausibilize_level.
    change (reading_order_dict refA refB refC (label_children a [] []))
      with (flat_dict (A := A) refA L0).
    rewrite Hv. simpl. rewrite Hdel. simpl.
    destruct ordered; [by rewrite Hrog, Hrug | by rewrite Hog, Hug].
  - rewrite map_map.
    transitivity (map (λ e : nat * A, key e.2) (c_refs (ls_children ls'))).
    { destruct ordered; [exact Hrk | done]. }
    pose proof (map_filter_key (λ e : nat * A, key e.2) (λ k, k ∉ removed') L0) as Hmf.
    simpl in Hmf. rewrite Hrefs, Hmf, HL0.
    erewrite filter_ext_in; [done|]. intros x _. simpl. by rewrite Hremoved.
  - rewrite Hpage, Hp. apply filter_ext_in. intros x _.
    rewrite Hwait. unfold gone. split.
    + intros Hx [Hm Hxin]. apply Hx.
      apply list_elem_of_In, in_map_iff in Hxin as (rp & <- & Hrp).
      apply list_elem_of_In. apply in_map. apply list_elem_of_In.
      apply list_elem_of_filter. split; [done|].
      apply list_elem_of_In, in_map, Hrp.
    + intros Hx Hxin. apply Hx.
      apply list_elem_of_In, in_map_iff in Hxin as (r & <- & Hr).
      apply list_elem_of_In, list_elem_of_filter in Hr as [Hm Hr].
      split; [done|].
      apply list_elem_of_In, in_map_iff in Hr as (rp & <- & Hrp).
      apply list_elem_of_In. by apply (in_map (λ rp, region_id (region rp))).
  - intros ->.
    assert (Hndl : NoDup (map fst (c_refs (ls_children ls')))).
    { rewrite Hrefs. eapply sublist_NoDup; [exact Hlabels | apply sublist_map_filter]. }
    rewrite (reindex_flat_perm _ _ Hog Hug Hvar Hndl).
    unfold reindex_list.
    rewrite (map_snd_imap (λ i, setA (Z.of_nat i))).
    rewrite <- (stable_sort_map snd (index_le ixA) (λ x y, (ixA x <=? ixA y)%Z)) by done.
    pose proof (map_filter_key (snd : nat * A → A) (λ x, key x ∉ removed') L0) as Hmf.
    simpl in Hmf. rewrite Hrefs, Hmf. unfold L0. rewrite label_from_snd.
    erewrite filter_ext_in; [done|]. intros x _. simpl. by rewrite Hremoved.
Qed.

End FlatGroup.


Lemma regionspolys_perm {S} (regions : list (TextRegionType S)) :
  regionspolys S regions ≡ₚ map (region_polygon_of S) regions.
Proof. unfold regionspolys, sorted_by_area. apply stable_sort_perm. Qed.

(** What [process] hands to [_plausibilize_group] on a page whose regions
    have distinct ids, belong to the page and have an area. *)
Lemma repair_page_setup (S : Shapely) (min_overlap : Q)
    (regions : list (TextRegionType S)) :
  NoDup (map region_id regions) →
  Forall (λ r, parent_object_ r = Some OwnerPage) regions →
  Forall (λ r, has_area S (Coords r)) regions →
  ∃ plan,
    plan_page S min_overlap regions = Ok plan
    ∧ NoDup (map (λ rp, region_id (region rp)) (regionspolys S regions))
    ∧ Forall (λ rp, parent_object_ (region rp) = Some OwnerPage) (regionspolys S regions)
    ∧ (∀ rp, rp ∈ regionspolys S regions →
             region_id (region rp) ∈ page_TextRegion (page_of S regions))
    ∧ NoDup (page_TextRegion (page_of S regions))
    ∧ ∀ x, gone plan (regionspolys S regions) x ↔ marked plan x.
Proof.
  intros Hids Hown Harea.
  assert (Hall : Forall (λ rp, has_area S (polygon rp)) (regionspolys S regions)).
  { eapply Permutation_Forall; [symmetry; apply regionspolys_perm|].
    apply Forall_map. eapply Forall_impl; [exact Harea|]. done. }
  destruct (compare_all_total S min_overlap _ empty_plan Hall) as [plan Hplan].
  exists plan. split_and!.
  - exact Hplan.
  - by rewrite regionspolys_ids.
  - eapply Permutation_Forall; [symmetry; apply regionspolys_perm|].
    apply Forall_map. eapply Forall_impl; [exact Hown|]. done.
  - intros rp Hrp. simpl. rewrite <- regionspolys_ids.
    apply list_elem_of_In. apply (in_map (λ rp, region_id (region rp))).
    by apply list_elem_of_In.
  - done.
  - intros x. unfold gone. split; [by intros [? _]|]. intros Hm. split; [done|].
    rewrite regionspolys_ids. by eapply plan_page_marks.
Qed.


(** repair.py: in an ordered group of region references with distinct
    regions, the references that remain are numbered from 0 in the order
    of their old indices. *)
Lemma repair_reindexes_region_references (S : Shapely) (min_overlap : Q)
    (regions : list (TextRegionType S)) (rri : list (Z * string)) :
  NoDup (map region_id regions) →
  Forall (λ r, parent_object_ r = Some OwnerPage) regions →
  Forall (λ r, has_area S (Coords r)) regions →
  NoDup (map snd rri) →
  ∃ plan rri' st',
    plan_page S min_overlap regions = Ok plan
    ∧ repair_page S min_overlap true regions (Ordered (OGroup rri [] []))
      = Ok (Ordered (OGroup rri' [] []), st')
    ∧ rri' ≡ₚ reindexed (filter (λ e, ¬ marked plan e.2) rri).
Proof.
  intros Hids Hown Harea Hrefs.
  destruct (repair_page_setup S min_overlap regions Hids Hown Harea)
    as (plan & Hplan & Hndr & Hownr & Hin & Hpl & Hgone).
  destruct (plausibilize_level_flat (S := S) (B := Z * option string * ogroup)
              (C := Z * option string * ugroup)
              (λ e : Z * string, Some e.2) (λ e, e.1.2) (λ e, e.1.2)
              (λ e, e.1) (λ e, e.1.1) (λ e, e.1.1)
              (λ i e, (i, e.2)) (λ i e, (i, e.1.2, e.2)) (λ i e, (i, e.1.2, e.2))
              snd (λ _, eq_refl) (λ _ _, eq_refl)
              true plan (regionspolys S regions) rri (page_of S regions))
    as (rri' & st' & Hlev & _ & _ & Hre); [done..|].
  exists plan, rri', st'. split_and!.
  - done.
  - unfold repair_page. rewrite Hplan. simpl.
    unfold level_ordered. rewrite Hlev. done.
  - rewrite (Hre eq_refl). unfold reindexed.
    erewrite filter_ext_in; [done|]. intros x _. simpl. by rewrite Hgone.
Qed.

(** classify_address_layout.py: the region that a new region replaces is
    removed from the page and its reference is redirected. *)
Lemma steal_lines_id {S} (c : Candidate S) (k : nat) (lines : list (TextLineType S)) :
  region_id (cand (steal_lines S c k lines)) = region_id (cand c).
Proof.
  revert c k. induction lines as [|line lines IH]; intros c k; simpl; [done|].
  rewrite IH. unfold steal_line. by destruct (within S _ _).
Qed.





(** * Properties of the rest of the two processors *)

(** ** Formatting of numbers *)

Lemma append_inj_r (p a b : string) : p +:+ a = p +:+ b → a = b.
Proof. induction p as [|c p IH]; simpl; [done|]. intros [= H]. by apply IH. Qed.

Lemma parse_digits (d : Decimal.uint) :
  Nat.of_uint <$> NilEmpty.uint_of_string (NilZero.string_of_uint d) = Some (Nat.of_uint d).
Proof.
  destruct d; [reflexivity | unfold NilZero.string_of_uint; rewrite NilEmpty.usu; reflexivity ..].
Qed.

Lemma parse_fmt02 (n : nat) :
  Nat.of_uint <$> NilEmpty.uint_of_string (fmt02 n) = Some n.
Proof.
  unfold fmt02.
  pose proof (parse_digits (Nat.to_uint n)) as H. rewrite Unsigned.of_to in H.
  destruct (n <? 10)%nat; [|exact H].
  simpl. destruct (NilEmpty.uint_of_string _) as [u|]; [|discriminate].
  simpl in *. exact H.
Qed.

Lemma fmt02_inj (m n : nat) : fmt02 m = fmt02 n → m = n.
Proof.
  intros H. pose proof (parse_fmt02 m) as Hm. rewrite H, parse_fmt02 in Hm. congruence.
Qed.

(** ** The kernel of the dilation *)

(** X19: the side of the kernel of the dilation is the tenth of the square
    root of the area of the mask, rounded down, or one more: it is odd,
    and at least 1. *)
Theorem X19_kernel_scale_is_odd (area : Z) :
  (kernel_scale area mod 2 = 1)%Z
  ∧ (Z.sqrt area / 10 <= kernel_scale area <= Z.sqrt area / 10 + 1)%Z
  ∧ (1 <= kernel_scale area)%Z.
Proof.
  unfold kernel_scale. pose proof (Z.sqrt_nonneg area) as Hs.
  set (s := (Z.sqrt area / 10)%Z).
  assert (0 <= s)%Z by (apply Z.div_pos; lia).
  pose proof (Z.div_mod (s + 1) 2 ltac:(lia)) as Hd.
  pose proof (Z.mod_pos_bound (s + 1) 2 ltac:(lia)) as Hb.
  set (r := ((s + 1) mod 2)%Z) in *. set (q := ((s + 1) / 2)%Z) in *.
  split; [|lia].
  symmetry. apply (Z.mod_unique_pos _ _ (q + r - 1)); lia.
Qed.

Lemma dilate_rounds_spec CV scale n m contours :
  1 ≤ n → length contours ≠ 1 →
  ∃ k, 1 ≤ k ≤ n
    ∧ dilate_rounds CV n scale m contours = findContours CV (dilated CV scale m k)
    ∧ (∀ j, 1 ≤ j < k → length (findContours CV (dilated CV scale m j)) ≠ 1)
    ∧ (k < n → length (findContours CV (dilated CV scale m k)) = 1).
Proof.
  revert m contours. induction n as [|n IH]; intros m contours Hn Hc; [lia|].
  simpl. destruct (length contours =? 1)%nat eqn:E; [apply Nat.eqb_eq in E; done|].
  clear E. set (m' := dilate CV scale m).
  destruct n as [|n].
  - exists 1. simpl. split_and!; [lia | lia | done | intros; lia | intros; lia].
  - destruct (decide (length (findContours CV m') = 1)) as [E1 | E1].
    + exists 1. simpl. apply Nat.eqb_eq in E1. rewrite E1. apply Nat.eqb_eq in E1.
      split_and!; [lia | lia | done | intros; lia | done].
    + destruct (IH m' (findContours CV m')) as (k & Hk & Hres & Hbefore & Hstop);
        [lia | done |].
      exists (S k). unfold dilated in *. rewrite Nat.iter_succ_r.
      split_and!; [lia | lia | done | |].
      * intros [|[|j]] Hj; [lia | done |].
        rewrite Nat.iter_succ_r. apply Hbefore. lia.
      * intros Hlt. apply Hstop. lia.
Qed.

(** X20: a mask is dilated at least once, also when it has a single contour
    from the start, and at most ten times; the dilation stops after the
    first round that leaves exactly one contour, and after ten rounds the
    contours are taken as they are. *)
Theorem X20_dilation_rounds (CV : OpenCV) (scale : Z) (m : Mask) :
  ∃ k, 1 ≤ k ≤ 10
    ∧ dilate_rounds CV 10 scale m [[]; []] = findContours CV (dilated CV scale m k)
    ∧ (∀ j, 1 ≤ j < k → length (findContours CV (dilated CV scale m j)) ≠ 1)
    ∧ (k < 10 → length (findContours CV (dilated CV scale m k)) = 1).
Proof. apply dilate_rounds_spec; [lia | simpl; lia]. Qed.

(** ** Stolen lines *)

Section Stealing.
Context {S : Shapely}.
Implicit Types (c : Candidate S) (lines : list (TextLineType S)).

Lemma renumbered_length rid k lines : length (renumbered rid k lines) = length lines.
Proof. unfold renumbered. by rewrite length_imap. Qed.

Lemma renumbered_cons rid k (l : TextLineType S) lines :
  renumbered rid k (l :: lines)
  = set_line_id S (rid +:+ "_line" +:+ fmt02 k) l :: renumbered rid (k + 1) lines.
Proof.
  unfold renumbered. simpl. rewrite Nat.add_0_r. f_equal.
  apply imap_ext. intros i x _. simpl. by replace (k + 1 + i) with (k + Datatypes.S i) by lia.
Qed.

Lemma renumbered_app rid k (l1 l2 : list (TextLineType S)) :
  renumbered rid k (l1 ++ l2)
  = renumbered rid k l1 ++ renumbered rid (k + length l1) l2.
Proof.
  revert k. induction l1 as [|x l1 IH]; intros k.
  - simpl. by rewrite Nat.add_0_r.
  - rewrite <- app_comm_cons, !renumbered_cons, IH. simpl.
    by replace (k + 1 + length l1) with (k + Datatypes.S (length l1)) by lia.
Qed.

Lemma renumbered_ids rid k lines :
  map line_id (renumbered rid k lines)
  = map (λ i, rid +:+ "_line" +:+ fmt02 i) (seq k (length lines)).
Proof.
  revert k. induction lines as [|l lines IH]; intros k; [done|].
  rewrite renumbered_cons. simpl. f_equal. rewrite IH. by rewrite Nat.add_1_r.
Qed.

Lemma renumbered_NoDup rid k lines : NoDup (map line_id (renumbered rid k lines)).
Proof.
  rewrite renumbered_ids. apply NoDup_fmap_2; [|apply NoDup_seq].
  intros i j H. by apply append_inj_r, append_inj_r, fmt02_inj in H.
Qed.

Lemma steal_lines_lines c k lines :
  TextLine (cand (steal_lines S c k lines))
  = TextLine (cand c) ++ renumbered (region_id (cand c)) k lines.
Proof.
  revert c k. induction lines as [|l lines IH]; intros c k; simpl.
  - by rewrite app_nil_r.
  - rewrite IH, renumbered_cons. unfold steal_line.
    destruct (within S _ _); simpl; by rewrite <- app_assoc.
Qed.

Lemma steal_lines_oldregions c k lines :
  oldregions (steal_lines S c k lines) = oldregions c.
Proof.
  revert c k. induction lines as [|l lines IH]; intros c k; simpl; [done|].
  rewrite IH. unfold steal_line. by destruct (within S _ _).
Qed.

Lemma visit_neighbours_lines scale (ns : list (TextRegionType S * Geom S))
    c c' (st st' : AddressState S) (stolen0 : list (TextRegionType S)) :
  oldregions c = map region_id stolen0 →
  TextLine (cand c) = renumbered (region_id (cand c)) 0 (flat_map TextLine stolen0) →
  visit_neighbours S scale ns (c, st) = Ok (c', st') →
  ∃ stolen,
    stolen `sublist_of` map fst ns
    ∧ region_id (cand c') = region_id (cand c)
    ∧ oldregions c' = map region_id (stolen0 ++ stolen)
    ∧ TextLine (cand c')
      = renumbered (region_id (cand c)) 0 (flat_map TextLine (stolen0 ++ stolen)).
Proof.
  revert c st stolen0. induction ns as [|[n npoly] ns IH]; intros c st stolen0 Hold Hl H;
    simpl in H.
  - simplify_eq. exists []. rewrite app_nil_r. split_and!; [constructor | done..].
  - inv_bind H. destruct a as [c1 st1]. unfold visit_neighbour in Ha.
    destruct (bool_decide _).
    { simplify_eq. destruct (IH _ _ _ Hold Hl H) as (stolen & Hsub & Hid & Ho & Ht).
      exists stolen. split_and!; [by apply sublist_cons | done..]. }
    destruct (supersedes S scale npoly (region_poly c)).
    2: { simplify_eq. destruct (IH _ _ _ Hold Hl H) as (stolen & Hsub & Hid & Ho & Ht).
         exists stolen. split_and!; [by apply sublist_cons | done..]. }
    inv_bind Ha. simplify_eq.
    opose proof (IH _ _ (stolen0 ++ [n]) _ _ H) as (stolen & Hsub & Hid & Ho & Ht).
    + simpl. rewrite steal_lines_oldregions, Hold, map_app. done.
    + simpl. rewrite steal_lines_lines, steal_lines_id, flat_map_app, renumbered_app.
      simpl. rewrite app_nil_r. rewrite <- Hl at 1. do 2 f_equal.
      rewrite Hl at 1. by rewrite renumbered_length.
    + simpl in Hid, Ht. rewrite steal_lines_id in Hid, Ht.
      exists (n :: stolen). rewrite <- app_assoc in Ho, Ht.
      split_and!; [by apply sublist_skip | done..].
Qed.

End Stealing.

(** X22: the lines of a new region are the lines of the neighbours it has
    replaced, in the order of the replacements, with nothing changed but
    their ids: these are [<region id>_line00], [<region id>_line01], ...,
    and no two are the same. *)
Theorem X22_stolen_lines_are_renumbered (S : Shapely) (scale : Z)
    (ns : list (TextRegionType S * Geom S)) (c c' : Candidate S)
    (st st' : AddressState S) :
  TextLine (cand c) = [] → oldregions c = [] →
  visit_neighbours S scale ns (c, st) = Ok (c', st') →
  ∃ stolen,
    stolen `sublist_of` map fst ns
    ∧ oldregions c' = map region_id stolen
    ∧ TextLine (cand c')
      = renumbered (region_id (cand c')) 0 (flat_map TextLine stolen)
    ∧ NoDup (map line_id (TextLine (cand c'))).
Proof.
  intros Hl Ho H.
  destruct (visit_neighbours_lines scale ns c c' st st' [] Ho ltac:(by rewrite Hl) H)
    as (stolen & Hsub & Hid & Hold & Hlines).
  exists stolen. simpl in Hold, Hlines. rewrite Hid.
  split_and!; [done..|]. rewrite Hlines. apply renumbered_NoDup.
Qed.

Lemma X22_stolen_lines_are_renumbered_witness :
  ∃ c' st',
    visit_neighbours Boxes.shapely 1
      [(Boxes.region_without_address, Boxes.Box 0 0 1 1)]
      (Boxes.first_candidate, Boxes.page_with_reference) = Ok (c', st')
    ∧ NoDup (map line_id (TextLine (cand c'))).
Proof.
  destruct (visit_neighbours Boxes.shapely 1
              [(Boxes.region_without_address, Boxes.Box 0 0 1 1)]
              (Boxes.first_candidate, Boxes.page_with_reference))
    as [[c' st']|e] eqn:Hv; [|vm_compute in Hv; discriminate].
  exists c', st'. split; [reflexivity|].
  destruct (X22_stolen_lines_are_renumbered Boxes.shapely 1
              [(Boxes.region_without_address, Boxes.Box 0 0 1 1)]
              Boxes.first_candidate c' Boxes.page_with_reference st'
              eq_refl eq_refl Hv)
    as (stolen & _ & _ & _ & Hnd).
  exact Hnd.
Defined.

(** X21: detections with different numbers get regions with different ids. *)
Theorem X21_new_regions_have_their_own_ids (S : Shapely) (i j : nat) (n1 n2 : string)
    (d1 d2 : Detection) (p1 p2 : Geom S) :
  region_id (new_region S i n1 d1 p1) = region_id (new_region S j n2 d2 p2) ↔ i = j.
Proof.
  simpl. split; [|by intros ->].
  intros H. apply append_inj_r, fmt02_inj in H. lia.
Qed.

(** ** Detections that survive *)

(** The first of the detections with the highest score. *)
Lemma first_best_exists (preds : list Detection) :
  preds ≠ [] →
  ∃ i d, preds !! i = Some d
    ∧ (∀ k dk, preds !! k = Some dk → (score dk <= score d)%Q)
    ∧ (∀ k dk, k < i → preds !! k = Some dk → (score dk < score d)%Q).
Proof.
  induction preds as [|d0 rest IH]; [done|]. intros _.
  destruct rest as [|d1 rest].
  - exists 0, d0. split_and!; [done | | intros; lia].
    intros [|k] dk Hk; simplify_eq/=. apply Qle_refl.
  - destruct IH as (i & d & Hi & Hmax & Hfirst); [done|].
    destruct (Qlt_le_dec (score d0) (score d)) as [Hlt | Hle].
    + exists (S i), d. split_and!; [done | |].
      * intros [|k] dk Hk; simplify_eq/=; [by apply Qlt_le_weak | by eapply Hmax].
      * intros [|k] dk Hlt' Hk; simplify_eq/=; [done|]. eapply Hfirst; [|done]. lia.
    + exists 0, d0. split_and!; [done | | intros; lia].
      intros [|k] dk Hk; simplify_eq/=; [apply Qle_refl|].
      eapply Qle_trans; [by eapply Hmax | done].
Qed.

(** X16: the pairwise stage never marks all the detections: the first of the
    detections with the highest score (no detection scores higher, and
    every detection before it scores lower) is not marked worse. *)
Theorem X16_the_best_detection_survives (preds : list Detection) :
  preds ≠ [] →
  ∃ i d, preds !! i = Some d
    ∧ (∀ k dk, preds !! k = Some dk → (score dk <= score d)%Q)
    ∧ (∀ k dk, k < i → preds !! k = Some dk → (score dk < score d)%Q)
    ∧ (i ∉ worse_of preds).
Proof.
  intros Hne. destruct (first_best_exists preds Hne) as (i & d & Hi & Hmax & Hfirst).
  exists i, d. split_and!; [done..|].
  rewrite worse_of_spec.
  intros (k & dk & di & Hk & Hi' & _ & [[Hlt Hsc] | [Hlt Hsc]]); simplify_eq.
  - apply Hsc. by eapply Hfirst.
  - eapply Qlt_not_le; [exact Hsc|]. by eapply Hmax.
Qed.

Lemma X16_the_best_detection_survives_witness :
  let preds := [detection 1 (6 # 10) one_pixel; detection 1 (9 # 10) one_pixel;
                detection 1 (9 # 10) one_pixel] in
  ∃ i d, preds !! i = Some d
    ∧ (∀ k dk, preds !! k = Some dk → (score dk <= score d)%Q)
    ∧ (∀ k dk, k < i → preds !! k = Some dk → (score dk < score d)%Q)
    ∧ (i ∉ worse_of preds).
Proof.
  intros preds.
  apply (X16_the_best_detection_survives preds). discriminate.
Defined.

(** ** Classes without a best score *)

Lemma best_step_other worse best e c :
  c ≠ 1 → c ≠ 2 → best_step worse best e !! c = best !! c.
Proof.
  intros H1 H2. destruct e as [i d]. unfold best_step.
  destruct (bool_decide _); [done|].
  destruct (negb _) eqn:Hcat; [done|].
  apply negb_false_iff, orb_true_iff in Hcat.
  assert (Z.to_nat (class_id d) ≠ c).
  { destruct Hcat as [H | H]; apply Z.eqb_eq in H; lia. }
  repeat case_match; try done. by rewrite list_lookup_insert_ne.
Qed.

Lemma best_of_other worse preds c :
  c ≠ 1 → c ≠ 2 → best_of worse preds !! c = [0%Q; 0%Q; 0%Q; 0%Q] !! c.
Proof.
  intros H1 H2. unfold best_of. generalize (enumerate preds) as l.
  generalize [0%Q; 0%Q; 0%Q; 0%Q] as best.
  intros best l. revert best. induction l as [|e l IH]; intros best; simpl; [done|].
  by rewrite IH, best_step_other.
Qed.

Lemma best_of_length worse preds : length (best_of worse preds) = 4.
Proof.
  unfold best_of. generalize (enumerate preds) as l.
  assert (H : length [0%Q; 0%Q; 0%Q; 0%Q] = 4) by done. revert H.
  generalize [0%Q; 0%Q; 0%Q; 0%Q] as best.
  intros best H l. revert best H. induction l as [|e l IH]; intros best H; simpl; [done|].
  apply IH. by rewrite best_step_length.
Qed.

(** X17: a detection of class 3 that is not marked worse is kept whatever
    the other detections of its class score: [best[3]] stays zero. *)
Theorem X17_contact_detections_are_all_kept (preds : list Detection) (i : nat)
    (d : Detection) :
  class_id d = 3%Z → i ∉ worse_of preds → (0 <= score d)%Q →
  best_of (worse_of preds) preds !! 3 = Some 0%Q
  ∧ select (worse_of preds) (best_of (worse_of preds) preds) i d = Ok Keep.
Proof.
  intros Hc Hw Hs.
  assert (Hb : best_of (worse_of preds) preds !! 3 = Some 0%Q)
    by (by rewrite best_of_other).
  split; [done|]. unfold select.
  assert (Hp : py_index (best_of (worse_of preds) preds) 3 = Ok 0%Q).
  { unfold py_index. change (3 <? 0)%Z with false. cbv iota.
    change (Z.to_nat 3) with 3. by rewrite Hb. }
  assert (Hlt : Qlt_bool (score d) 0 = false).
  { apply Qlt_bool_false. by apply Qle_not_lt. }
  rewrite (bool_decide_eq_false_2 _ Hw), Hc, Hp. simpl. by rewrite Hlt.
Qed.

Lemma X17_contact_detections_are_all_kept_witness :
  select (worse_of [detection 3 (9 # 10) one_pixel; detection 3 (7 # 10) []])
    (best_of (worse_of [detection 3 (9 # 10) one_pixel; detection 3 (7 # 10) []])
       [detection 3 (9 # 10) one_pixel; detection 3 (7 # 10) []])
    1 (detection 3 (7 # 10) []) = Ok Keep.
Proof.
  apply (X17_contact_detections_are_all_kept
           [detection 3 (9 # 10) one_pixel; detection 3 (7 # 10) []] 1
           (detection 3 (7 # 10) [])).
  - reflexivity.
  - apply (bool_decide_unpack _). vm_compute. reflexivity.
  - vm_compute. discriminate.
Defined.

(** X18: the class id of a detection that is not marked worse is an index
    into [best], an array of four: a class id from 4 on, or below -4, ends
    the page with [IndexError]. *)
Theorem X18_class_id_out_of_range (preds : list Detection) (i : nat) (d : Detection) :
  (4 <= class_id d ∨ class_id d < -4)%Z → i ∉ worse_of preds →
  select (worse_of preds) (best_of (worse_of preds) preds) i d = Raise IndexError.
Proof.
  intros Hc Hw. unfold select.
  rewrite (bool_decide_eq_false_2 _ Hw).
  destruct (class_id d =? 0)%Z eqn:E; [apply Z.eqb_eq in E; lia|].
  unfold py_index. rewrite best_of_length.
  destruct (class_id d <? 0)%Z eqn:Hneg.
  - apply Z.ltb_lt in Hneg.
    destruct (class_id d + Z.of_nat 4 <? 0)%Z eqn:E2; [done|].
    apply Z.ltb_ge in E2. lia.
  - apply Z.ltb_ge in Hneg.
    rewrite (lookup_ge_None_2 _ (Z.to_nat (class_id d))).
    + by destruct (class_id d <? 0)%Z.
    + rewrite best_of_length. lia.
Qed.

Lemma X18_class_id_out_of_range_witness :
  select (worse_of [detection 4 (9 # 10) one_pixel])
    (best_of (worse_of [detection 4 (9 # 10) one_pixel]) [detection 4 (9 # 10) one_pixel])
    0 (detection 4 (9 # 10) one_pixel) = Raise IndexError.
Proof.
  apply (X18_class_id_out_of_range [detection 4 (9 # 10) one_pixel] 0
           (detection 4 (9 # 10) one_pixel)).
  - left. simpl. lia.
  - apply (bool_decide_unpack _). vm_compute. reflexivity.
Defined.

(** ** The dictionary of the reading order *)





(** ** The two tests of a line *)

Lemma prefix_split (p s : string) :
  String.prefix p s = true → ∃ rest, s = p +:+ rest.
Proof.
  revert s. induction p as [|a p IH]; intros s H.
  - by exists s.
  - destruct s as [|b s]; simpl in H; [done|].
    destruct (ascii_dec a b) as [-> | ?]; [|done].
    destruct (IH s H) as [rest ->]. by exists rest.
Qed.

Lemma prefix_append (p rest : string) : String.prefix p (p +:+ rest) = true.
Proof.
  induction p as [|a p IH]; simpl; [by destruct rest|].
  by destruct (ascii_dec a a).
Qed.

(** X10: for a line that passes the test of the guard, the test of
    [mark_line] gives the same answer except for the class [ADDRESS_NONE]. *)
Theorem X10_guard_and_marking (S : Shapely) (line : TextLineType S) (c : string) :
  line_custom line = Some c → sets_has_address S line = true →
  mark_line S line = negb (String.eqb (str_replace "subtype: " "" c) "ADDRESS_NONE").
Proof.
  unfold sets_has_address, mark_line. intros -> H.
  apply andb_true_iff in H as [Hne Hpre]. apply negb_true_iff in Hne. rewrite Hne.
  unfold startswith in Hpre. apply prefix_split in Hpre as [rest ->].
  assert (Hr : str_replace "subtype: " "" ("subtype: ADDRESS_" +:+ rest)
               = "ADDRESS_" +:+ str_replace "subtype: " "" rest) by reflexivity.
  rewrite Hr.
  unfold startswith. by rewrite prefix_append.
Qed.

Lemma X10_guard_and_marking_witness :
  mark_line Boxes.shapely Boxes.line_without_address = false.
Proof.
  exact (X10_guard_and_marking Boxes.shapely Boxes.line_without_address
           "subtype: ADDRESS_NONE" eq_refl eq_refl).
Defined.

(** ** Regions that leave the page *)

Lemma list_remove_missing {X} (same : X → bool) (l : list X) :
  (∀ x, x ∈ l → same x = false) → list_remove same l = Raise ValueError.
Proof.
  induction l as [|x l IH]; intros H; simpl; [done|].
  rewrite (H x) by apply list_elem_of_here.
  rewrite IH; [done|]. intros y Hy. apply H. by apply list_elem_of_further.
Qed.

Lemma list_remove_found {X} (same : X → bool) (l l' : list X) :
  list_remove same l = Ok l' → ∃ x, x ∈ l ∧ same x = true.
Proof.
  revert l'. induction l as [|x l IH]; intros l' H; simpl in H; [done|].
  destruct (same x) eqn:E.
  - exists x. split; [apply list_elem_of_here | done].
  - inv_bind H. destruct (IH _ Ha) as (y & Hy & Hs).
    exists y. split; [by apply list_elem_of_further | done].
Qed.

Lemma remove_region_gone {S} (rid : string) (st st' : PageState S) :
  NoDup (page_TextRegion st) →
  remove_region S OwnerPage rid st = Ok st' →
  page_TextRegion st' = filter (λ x, x ≠ rid) (page_TextRegion st)
  ∧ rid ∈ page_TextRegion st.
Proof.
  intros Hnd H.
  assert (Hin : rid ∈ page_TextRegion st).
  { unfold remove_region in H. inv_bind H.
    apply list_remove_found in Ha as (x & Hx & Heq).
    apply String.eqb_eq in Heq. by subst. }
  rewrite remove_region_page in H by done. by simplify_eq.
Qed.

Lemma remove_region_missing {S} (rid : string) (st : PageState S) :
  rid ∉ page_TextRegion st → remove_region S OwnerPage rid st = Raise ValueError.
Proof.
  intros H. unfold remove_region. rewrite list_remove_missing; [done|].
  intros x Hx. apply String.eqb_neq. congruence.
Qed.

(** X23: a region is replaced once.  The replacement takes the region from
    the list of its page; when the polygon of another new region covers
    the region as well, that list no longer holds it, and the page ends in
    [ValueError]. *)
Theorem X23_a_region_is_replaced_once (S : Shapely) (scale : Z)
    (neighbour : TextRegionType S) (neighpoly : Geom S)
    (c1 c1' : Candidate S) (st st1 : AddressState S) :
  parent_object_ neighbour = Some OwnerPage →
  NoDup (page_TextRegion (a_page st)) →
  region_id neighbour ∉ oldregions c1 →
  supersedes S scale neighpoly (region_poly c1) = true →
  visit_neighbour S scale (neighbour, neighpoly) (c1, st) = Ok (c1', st1) →
(region_id neighbour ∉ page_TextRegion (a_page st1))
  ∧ ∀ scale2 (c2 : Candidate S) (st2 : AddressState S),
      region_id neighbour ∉ page_TextRegion (a_page st2) →
      region_id neighbour ∉ oldregions c2 →
      supersedes S scale2 neighpoly (region_poly c2) = true →
      visit_neighbour S scale2 (neighbour, neighpoly) (c2, st2) = Raise ValueError.
Proof.
  intros Hown Hnd Hold Hsup H. split.
  - unfold visit_neighbour in H.
    rewrite (bool_decide_eq_false_2 _ Hold), Hsup, Hown in H.
    inv_bind H. simplify_eq. simpl.
    apply remove_region_gone in Ha as [-> _]; [|done].
    rewrite list_elem_of_filter. tauto.
  - intros scale2 c2 st2 Hgone Hold2 Hsup2. unfold visit_neighbour.
    rewrite (bool_decide_eq_false_2 _ Hold2), Hsup2, Hown.
    by rewrite remove_region_missing.
Qed.

Lemma X23_a_region_is_replaced_once_witness :
  ∃ c1' st1,
    visit_neighbour Boxes.shapely 1 (Boxes.region_without_address, Boxes.Box 0 0 1 1)
      (Boxes.first_candidate, Boxes.page_with_reference) = Ok (c1', st1)
    ∧ visit_neighbour Boxes.shapely 1 (Boxes.region_without_address, Boxes.Box 0 0 1 1)
        (Boxes.first_candidate, st1) = Raise ValueError.
Proof.
  destruct (visit_neighbour Boxes.shapely 1
              (Boxes.region_without_address, Boxes.Box 0 0 1 1)
              (Boxes.first_candidate, Boxes.page_with_reference))
    as [[c1' st1]|e] eqn:Hv; [|vm_compute in Hv; discriminate].
  exists c1', st1. split; [reflexivity|].
  destruct (X23_a_region_is_replaced_once Boxes.shapely 1
              Boxes.region_without_address (Boxes.Box 0 0 1 1)
              Boxes.first_candidate c1' Boxes.page_with_reference st1)
    as [Hgone Hnext].
  - reflexivity.
  - apply (bool_decide_unpack _). vm_compute. reflexivity.
  - apply not_elem_of_nil.
  - reflexivity.
  - exact Hv.
  - apply (Hnext 1%Z Boxes.first_candidate st1 Hgone).
    + apply not_elem_of_nil.
    + reflexivity.
Defined.

(** X24: the guard comes after the replacements.  A new region that covers
    the first region of the page, on a page without a line that passes the
    test of the guard, takes that region from the page and is not added
    itself: the page only loses regions. *)
Theorem X24_ghost_detection_removes_regions (S : Shapely) (CV : OpenCV) (i : nat)
    (d : Detection) (scale : Z) (rpoly : Geom S)
    (n : TextRegionType S) (npoly : Geom S)
    (allregions : list (TextRegionType S)) (allpolys : list (Geom S))
    (st st' : AddressState S) :
  vectorize S CV (mask d) = Ok (scale, rpoly) →
  supersedes S scale npoly rpoly = true →
  NoDup (page_TextRegion (a_page st)) →
  (∀ m line, m ∈ n :: allregions → line ∈ TextLine m → sets_has_address S line = false) →
  parent_object_ n = Some OwnerPage →
  annotate S CV i d (n :: allregions) (npoly :: allpolys) st = Ok st' →
  region_id n ∈ page_TextRegion (a_page st)
  ∧ (region_id n ∉ page_TextRegion (a_page st'))
  ∧ ∀ x, x ∈ page_TextRegion (a_page st') → x ∈ page_TextRegion (a_page st).
Proof.
  intros Hvec Hsup Hnd Hnone Hown H.
  pose proof (ghost_guard_rejects S CV i d _ _ _ _ Hnone H) as Hsub.
  unfold annotate in H. inv_bind H. rewrite Hvec in H. simpl in H.
  inv_bind H. destruct a0 as [c st1]. simpl in Ha0. inv_bind Ha0.
  destruct a0 as [c1 st2].
  unfold visit_neighbour in Ha1. simpl in Ha1. rewrite Hsup in Ha1.
  rewrite Hown in Ha1. inv_bind Ha1. simplify_eq.
  apply remove_region_gone in Ha2 as [Hpage Hin]; [|done].
  destruct (visit_neighbours_guard _ _ _ _ _ _ Ha0) as [Hflag Hpage'].
  simpl in Hpage'.
  assert (Hst : region_id n ∉ page_TextRegion (a_page st1)).
  { intros Hx. apply Hpage' in Hx. rewrite Hpage in Hx.
    apply list_elem_of_filter in Hx. tauto. }
  destruct (has_address c) eqn:Hc.
  - exfalso. destruct (Hflag eq_refl) as [Hst0 | (m & line & Hm & Hl & Hset)].
    + simpl in Hst0. rewrite steal_lines_has_address in Hst0. simpl in Hst0.
      apply existsb_exists in Hst0 as (line & Hline & Hset).
      rewrite (Hnone n line) in Hset; [done | apply list_elem_of_here |].
      by apply list_elem_of_In.
    + rewrite (Hnone m line) in Hset; [done| |done].
      apply list_elem_of_further.
      apply list_elem_of_In, in_map_iff in Hm as ([m' p] & <- & Hin').
      apply list_elem_of_In. simpl. eapply in_combine_l.
      apply list_elem_of_In in Hin'. apply list_elem_of_In. exact Hin'.
  - simplify_eq. split_and!; done.
Qed.

Lemma X24_ghost_detection_removes_regions_witness :
  ∃ st',
    annotate Boxes.shapely Boxes.opencv 0 (detection 1 (9 # 10) block)
      [Boxes.mk_region "r1" (Boxes.Box 0 0 1 1)
         [Boxes.mk_line "l1" None (Boxes.Box 0 0 1 1) (Some "Lorem ipsum")]]
      [Boxes.Box 0 0 1 1]
      {| a_page := page_of Boxes.shapely
                     [Boxes.mk_region "r1" (Boxes.Box 0 0 1 1)
                        [Boxes.mk_line "l1" None (Boxes.Box 0 0 1 1) (Some "Lorem ipsum")]];
         a_ro := page_get_reading_order NoGroup |} = Ok st'
    ∧ "r1" ∉ page_TextRegion (a_page st').
Proof.
  set (n := Boxes.mk_region "r1" (Boxes.Box 0 0 1 1)
              [Boxes.mk_line "l1" None (Boxes.Box 0 0 1 1) (Some "Lorem ipsum")]).
  set (st := {| a_page := page_of Boxes.shapely [n];
                a_ro := page_get_reading_order NoGroup |}).
  destruct (annotate Boxes.shapely Boxes.opencv 0 (detection 1 (9 # 10) block)
              [n] [Boxes.Box 0 0 1 1] st) as [st'|e] eqn:Hrun;
    [|vm_compute in Hrun; discriminate].
  exists st'. split; [reflexivity|].
  destruct (X24_ghost_detection_removes_regions Boxes.shapely Boxes.opencv 0
              (detection 1 (9 # 10) block) 1 (Boxes.Box 0 0 1 1)
              n (Boxes.Box 0 0 1 1) [] [] st st') as (_ & Hgone & _).
  - reflexivity.
  - reflexivity.
  - apply (bool_decide_unpack _). vm_compute. reflexivity.
  - intros m line Hm Hl. apply list_elem_of_singleton in Hm. subst m.
    apply list_elem_of_singleton in Hl. subst line. reflexivity.
  - reflexivity.
  - exact Hrun.
  - exact Hgone.
Defined.

(** ** The executor on a reading order with nested groups *)

Lemma list_remove_error {X} (same : X → bool) (l : list X) e :
  list_remove same l = Raise e → e = ValueError.
Proof.
  induction l as [|x l IH]; simpl; [congruence|].
  destruct (same x); [done|].
  destruct (list_remove same l); simpl; [done|]. intros [= <-]. by apply IH.
Qed.

Lemma list_remove_sublist {X} (same : X → bool) (l l' : list X) :
  list_remove same l = Ok l' → l' `sublist_of` l.
Proof.
  revert l'. induction l as [|x l IH]; intros l' H; simpl in H; [done|].
  destruct (same x).
  - simplify_eq. by apply sublist_cons.
  - inv_bind H. simplify_eq. apply sublist_skip. by apply IH.
Qed.

Section Deleting.
Context {S : Shapely}.
Implicit Types (st : PageState S) (wait : list (TextRegionType S)).

Lemma remove_region_error owner rid st e :
  remove_region S owner rid st = Raise e → e = ValueError.
Proof.
  unfold remove_region. destruct owner.
  - destruct (list_remove _ _) eqn:E; simpl; [done|].
    intros [= <-]. by eapply list_remove_error.
  - destruct (list_remove _ _) eqn:E; simpl; [done|].
    intros [= <-]. by eapply list_remove_error.
Qed.

Lemma remove_region_sublist owner rid st st' :
  remove_region S owner rid st = Ok st' →
  page_TextRegion st' `sublist_of` page_TextRegion st.
Proof.
  unfold remove_region. intros H. destruct owner; inv_bind H; simplify_eq; simpl.
  - by eapply list_remove_sublist.
  - done.
Qed.

Lemma delete_regions_error wait st e :
  delete_regions S wait st = Raise e → e = ValueError.
Proof.
  revert st. induction wait as [|r wait IH]; intros st; simpl; [done|].
  destruct (parent_object_ r) as [owner|]; simpl.
  - destruct (remove_region S owner (region_id r) st) eqn:E; simpl; [apply IH|].
    intros [= <-]. by eapply remove_region_error.
  - apply IH.
Qed.

Lemma delete_regions_sublist wait st st' :
  delete_regions S wait st = Ok st' →
  page_TextRegion st' `sublist_of` page_TextRegion st.
Proof.
  revert st. induction wait as [|r wait IH]; intros st H; simpl in H.
  - by simplify_eq.
  - inv_bind H. etransitivity; [by eapply IH|].
    destruct (parent_object_ r); [by eapply remove_region_sublist | by simplify_eq].
Qed.

Lemma delete_regions_missing wait st r :
  r ∈ wait → parent_object_ r = Some OwnerPage →
  region_id r ∉ page_TextRegion st →
  delete_regions S wait st = Raise ValueError.
Proof.
  revert st. induction wait as [|r' wait IH]; intros st Hin Hown Hmiss.
  - by apply elem_of_nil in Hin.
  - simpl. apply elem_of_cons in Hin as [-> | Hin].
    + rewrite Hown, remove_region_missing by done. done.
    + destruct (match parent_object_ r' with
                | Some owner => remove_region S owner (region_id r') st
                | None => Ok st
                end) as [st1|e] eqn:E; simpl.
      * apply IH; [done..|]. intros Hx. apply Hmiss.
        eapply elem_of_sublist; [exact Hx|].
        destruct (parent_object_ r'); [by eapply remove_region_sublist | by simplify_eq].
      * destruct (parent_object_ r'); [|done].
        f_equal. by eapply remove_region_error.
Qed.

Lemma delete_regions_gone wait st st' r :
  delete_regions S wait st = Ok st' →
  NoDup (page_TextRegion st) →
  r ∈ wait → parent_object_ r = Some OwnerPage →
  region_id r ∉ page_TextRegion st'.
Proof.
  revert st. induction wait as [|r' wait IH]; intros st H Hnd Hin Hown.
  - by apply elem_of_nil in Hin.
  - simpl in H. inv_bind H.
    assert (Hnd1 : NoDup (page_TextRegion a)).
    { eapply sublist_NoDup; [exact Hnd|].
      destruct (parent_object_ r'); [by eapply remove_region_sublist | by simplify_eq]. }
    apply elem_of_cons in Hin as [-> | Hin].
    + rewrite Hown in Ha. apply remove_region_gone in Ha as [Hpage _]; [|done].
      intros Hx. eapply elem_of_sublist in Hx; [|by eapply delete_regions_sublist].
      rewrite Hpage in Hx. apply list_elem_of_filter in Hx. tauto.
    + by eapply IH.
Qed.

End Deleting.

Section LevelFacts.
Context {S : Shapely} {A B C : Type}.
Context (refA : A → option string) (refB : B → option string) (refC : C → option string).
Context (ixA : A → Z) (ixB : B → Z) (ixC : C → Z).
Context (setA : Z → A → A) (setB : Z → B → B) (setC : Z → C → C).
Context (plan : Plan) (rps : list (RegionPolygon S)).
Implicit Types (ls : LevelState S (A:=A) (B:=B) (C:=C)) (st : PageState S).

Lemma remove_child_error k lbl (ch : Children (A:=A) (B:=B) (C:=C)) e :
  remove_child k lbl ch = Raise e → e = ValueError.
Proof.
  unfold remove_child. destruct k;
    (destruct (list_remove _ _) eqn:E; simpl; [done|];
     intros [= <-]; by eapply list_remove_error).
Qed.

Lemma visit_region_error ro rp ls e :
  visit_region S plan ro rp ls = Raise e → e = ValueError.
Proof.
  unfold visit_region. destruct (_ || _); [|done].
  destruct (ro !! _) as [[k lbl]|]; [|done].
  destruct (remove_child _ _ _) eqn:E; simpl; [done|].
  intros [= <-]. by eapply remove_child_error.
Qed.

Lemma visit_region_keeps ro rp ls ls' :
  visit_region S plan ro rp ls = Ok ls' →
  page_TextRegion (ls_page ls') = page_TextRegion (ls_page ls)
  ∧ (∀ r, r ∈ ls_wait ls → r ∈ ls_wait ls')
  ∧ (marked plan (region_id (region rp)) → region rp ∈ ls_wait ls').
Proof.
  unfold visit_region. rewrite marked_test. intros H.
  destruct (decide (marked plan (region_id (region rp)))) as [Hm | Hm].
  - rewrite (bool_decide_eq_true_2 _ Hm) in H.
    assert (Hpage : page_TextRegion
              match mark_for_merging plan !! region_id (region rp) with
              | Some super => merge_into S super (polygon rp) (ls_page ls)
              | None => ls_page ls
              end = page_TextRegion (ls_page ls)) by (by destruct (mark_for_merging plan !! region_id (region rp))).
    destruct (ro !! _) as [[k lbl]|]; [inv_bind H|]; simplify_eq; simpl.
    + split_and!; [exact Hpage | intros r Hr; apply elem_of_app; by left
                   | intros _; apply elem_of_app; right; apply list_elem_of_here].
    + split_and!; [exact Hpage | intros r Hr; apply elem_of_app; by left
                   | intros _; apply elem_of_app; right; apply list_elem_of_here].
  - rewrite (bool_decide_eq_false_2 _ Hm) in H. simplify_eq. split_and!; done.
Qed.

Lemma visit_regions_error ro l ls e :
  visit_regions S plan ro l ls = Raise e → e = ValueError.
Proof.
  revert ls. induction l as [|rp l IH]; intros ls; simpl; [done|].
  destruct (visit_region S plan ro rp ls) eqn:E; simpl; [apply IH|].
  intros [= <-]. by eapply visit_region_error.
Qed.

Lemma visit_regions_keeps ro l ls ls' :
  visit_regions S plan ro l ls = Ok ls' →
  page_TextRegion (ls_page ls') = page_TextRegion (ls_page ls)
  ∧ (∀ r, r ∈ ls_wait ls → r ∈ ls_wait ls')
  ∧ (∀ rp, rp ∈ l → marked plan (region_id (region rp)) → region rp ∈ ls_wait ls').
Proof.
  revert ls. induction l as [|rp l IH]; intros ls H; simpl in H.
  - simplify_eq. split_and!; [done..|]. by intros rp ?%elem_of_nil.
  - inv_bind H. destruct (visit_region_keeps _ _ _ _ Ha) as (Hp1 & Hw1 & Hm1).
    destruct (IH _ H) as (Hp2 & Hw2 & Hm2).
    split_and!; [congruence | auto |].
    intros rp' Hin Hm. apply elem_of_cons in Hin as [-> | Hin]; [auto | by eapply Hm2].
Qed.

Context (rp0 : RegionPolygon S).
Context (Hin0 : rp0 ∈ rps) (Hmark0 : marked plan (region_id (region rp0))).
Context (Hown0 : parent_object_ (region rp0) = Some OwnerPage).

Lemma plausibilize_level_error ordered a b c st e :
  plausibilize_level S refA refB refC ixA ixB ixC setA setB setC ordered rps plan
    a b c st = Raise e → e = ValueError.
Proof.
  unfold plausibilize_level.
  destruct (visit_regions _ _ _ _ _) as [ls|e1] eqn:E; simpl.
  - destruct (delete_regions _ _ _) eqn:E2; simpl; [done|].
    intros [= <-]. by eapply delete_regions_error.
  - intros [= <-]. by eapply visit_regions_error.
Qed.

Lemma plausibilize_level_gone ordered a b c st a' b' c' st' :
  plausibilize_level S refA refB refC ixA ixB ixC setA setB setC ordered rps plan
    a b c st = Ok (a', b', c', st') →
  NoDup (page_TextRegion st) →
  NoDup (page_TextRegion st') ∧ (region_id (region rp0) ∉ page_TextRegion st').
Proof.
  unfold plausibilize_level. intros H Hnd. inv_bind H. inv_bind H. simplify_eq.
  destruct (visit_regions_keeps _ _ _ _ Ha) as (Hp & _ & Hw). simpl in Hp.
  rewrite <- Hp in Hnd. split.
  - eapply sublist_NoDup; [exact Hnd | by eapply delete_regions_sublist].
  - eapply (delete_regions_gone _ _ _ (region rp0)); [done | done | by apply Hw | done].
Qed.

Lemma plausibilize_level_missing ordered a b c st :
  region_id (region rp0) ∉ page_TextRegion st →
  plausibilize_level S refA refB refC ixA ixB ixC setA setB setC ordered rps plan
    a b c st = Raise ValueError.
Proof.
  unfold plausibilize_level. intros Hmiss.
  destruct (visit_regions _ _ _ _ _) as [ls|e1] eqn:E; simpl.
  - destruct (visit_regions_keeps _ _ _ _ E) as (Hp & _ & Hw). simpl in Hp.
    rewrite (delete_regions_missing _ _ (region rp0)); [done | by apply Hw | done |].
    by rewrite Hp.
  - f_equal. by eapply visit_regions_error.
Qed.

End LevelFacts.

(** Induction over the groups of a reading order. *)
Section GroupInduction.
Context (P : ogroup → Prop) (Q : ugroup → Prop).
Context (HO : ∀ rri ogi ugi,
            Forall (λ e : Z * option string * ogroup, P e.2) ogi →
            Forall (λ e : Z * option string * ugroup, Q e.2) ugi →
            P (OGroup rri ogi ugi)).
Context (HU : ∀ rr og ug,
            Forall (λ e : option string * ogroup, P e.2) og →
            Forall (λ e : option string * ugroup, Q e.2) ug →
            Q (UGroup rr og ug)).

Lemma ogroup_induction : ∀ g, P g.
Proof.
  fix FO 1 with (FU (g : ugroup) {struct g} : Q g).
  - intros [rri ogi ugi]. apply HO.
    + refine ((fix L (l : list (Z * option string * ogroup)) :
                 Forall (λ e, P e.2) l :=
                 match l with
                 | [] => List.Forall_nil _
                 | e :: l' => List.Forall_cons _ e l' (FO e.2) (L l')
                 end) ogi).
    + refine ((fix L (l : list (Z * option string * ugroup)) :
                 Forall (λ e, Q e.2) l :=
                 match l with
                 | [] => List.Forall_nil _
                 | e :: l' => List.Forall_cons _ e l' (FU e.2) (L l')
                 end) ugi).
  - intros [rr og ug]. apply HU.
    + refine ((fix L (l : list (option string * ogroup)) :
                 Forall (λ e, P e.2) l :=
                 match l with
                 | [] => List.Forall_nil _
                 | e :: l' => List.Forall_cons _ e l' (FO e.2) (L l')
                 end) og).
    + refine ((fix L (l : list (option string * ugroup)) :
                 Forall (λ e, Q e.2) l :=
                 match l with
                 | [] => List.Forall_nil _
                 | e :: l' => List.Forall_cons _ e l' (FU e.2) (L l')
                 end) ug).
Qed.

Lemma ugroup_induction : ∀ g, Q g.
Proof.
  fix FU 1. intros [rr og ug]. apply HU.
  - apply Forall_forall. intros e _. apply ogroup_induction.
  - refine ((fix L (l : list (option string * ugroup)) :
               Forall (λ e, Q e.2) l :=
               match l with
               | [] => List.Forall_nil _
               | e :: l' => List.Forall_cons _ e l' (FU e.2) (L l')
               end) ug).
Qed.

End GroupInduction.

Section NestedGroups.
Context {S : Shapely} (plan : Plan) (rps : list (RegionPolygon S)).
Context (rp0 : RegionPolygon S).
Context (Hin0 : rp0 ∈ rps) (Hmark0 : marked plan (region_id (region rp0))).
Context (Hown0 : parent_object_ (region rp0) = Some OwnerPage).

Ltac nested_calls :=
  let Hg := fresh "Hg" in
  let IH := fresh "IH" in
  let st := fresh "st" in
  let st1 := fresh "st1" in
  let st2 := fresh "st2" in
  let g1 := fresh "g1" in
  let l1 := fresh "l1" in
  let E := fresh "E" in
  let E' := fresh "E'" in
  let Herr := fresh "Herr" in
  let Hok := fresh "Hok" in
  let Hmiss := fresh "Hmiss" in
  let Herr' := fresh "Herr'" in
  let Hok' := fresh "Hok'" in
  let Hmiss' := fresh "Hmiss'" in
  let Hnd := fresh "Hnd" in
  let Hnd1 := fresh "Hnd1" in
  let Hnd2 := fresh "Hnd2" in
  let Hgone1 := fresh "Hgone1" in
  let Hnil := fresh "Hnil" in
  let Hcons := fresh "Hcons" in
  let Hm := fresh "Hm" in
  induction 1 as [|? ? Hg _ IH]; intros st;
  [ unfold calls_remove_once; split_and!; [done | | done]; intros ? ? [= <- <-] ?; unfold calls_remove_once; split_and!; done |];
  repeat match goal with e : (_ * _)%type |- _ => destruct e end;
  simpl in Hg;
  destruct (Hg st) as (Herr & Hok & Hmiss);
  lazymatch goal with
  | |- calls_remove_once _ _ (mbind _ ?call) _ =>
      destruct call as [[g1 st1]|?] eqn:E; simpl
  end;
  [ destruct (IH st1) as (Herr' & Hok' & Hmiss');
    lazymatch goal with
    | |- calls_remove_once _ _ (mbind _ ?r) _ =>
        destruct r as [[l1 st2]|?] eqn:E'; simpl
    end;
    [ unfold calls_remove_once; split_and!;
      [ done
      | intros ? ? [= <- <-] Hnd;
        destruct (Hok _ _ eq_refl Hnd) as [Hnd1 Hgone1];
        destruct (Hok' _ _ eq_refl Hnd1) as (Hnd2 & Hnil & Hcons);
        unfold calls_remove_once; split_and!; [exact Hnd2 | intros [=] | intros _];
        lazymatch type of Hnil with
        | ?l = [] → _ =>
            destruct l; [by rewrite (Hnil eq_refl) | by apply Hcons]
        end
      | intros Hm; by specialize (Hmiss Hm) ]
    | unfold calls_remove_once; split_and!;
      [ intros ? [= <-]; by apply Herr'
      | done
      | intros Hm; by specialize (Hmiss Hm) ] ]
  | unfold calls_remove_once; split_and!;
    [ intros ? [= <-]; by apply Herr
    | done
    | intros Hm _; specialize (Hmiss Hm); congruence ] ].

Lemma nested_ordered_indexed (l : list (Z * option string * ogroup)) :
  Forall (λ e, ∀ st, removes_once (region_id (region rp0))
                       (plausibilize_ordered S rps plan e.2 st) st) l →
  ∀ st,
    calls_remove_once (region_id (region rp0)) l
      ((fix nested (l : list (Z * option string * ogroup)) (st : PageState S) :=
          match l with
          | [] => Ok ([], st)
          | (i, r, g') :: l' =>
              '(g1, st1) ← plausibilize_ordered S rps plan g' st;
              '(l1, st2) ← nested l' st1;
              Ok ((i, r, g1) :: l1, st2)
          end) l st) st.
Proof. nested_calls. Qed.

Lemma nested_unordered_indexed (l : list (Z * option string * ugroup)) :
  Forall (λ e, ∀ st, removes_once (region_id (region rp0))
                       (plausibilize_unordered S rps plan e.2 st) st) l →
  ∀ st,
    calls_remove_once (region_id (region rp0)) l
      ((fix nested (l : list (Z * option string * ugroup)) (st : PageState S) :=
          match l with
          | [] => Ok ([], st)
          | (i, r, g') :: l' =>
              '(g1, st1) ← plausibilize_unordered S rps plan g' st;
              '(l1, st2) ← nested l' st1;
              Ok ((i, r, g1) :: l1, st2)
          end) l st) st.
Proof. nested_calls. Qed.

Lemma nested_ordered (l : list (option string * ogroup)) :
  Forall (λ e, ∀ st, removes_once (region_id (region rp0))
                       (plausibilize_ordered S rps plan e.2 st) st) l →
  ∀ st,
    calls_remove_once (region_id (region rp0)) l
      ((fix nested (l : list (option string * ogroup)) (st : PageState S) :=
          match l with
          | [] => Ok ([], st)
          | (r, g') :: l' =>
              '(g1, st1) ← plausibilize_ordered S rps plan g' st;
              '(l1, st2) ← nested l' st1;
              Ok ((r, g1) :: l1, st2)
          end) l st) st.
Proof. nested_calls. Qed.

Lemma nested_unordered (l : list (option string * ugroup)) :
  Forall (λ e, ∀ st, removes_once (region_id (region rp0))
                       (plausibilize_unordered S rps plan e.2 st) st) l →
  ∀ st,
    calls_remove_once (region_id (region rp0)) l
      ((fix nested (l : list (option string * ugroup)) (st : PageState S) :=
          match l with
          | [] => Ok ([], st)
          | (r, g') :: l' =>
              '(g1, st1) ← plausibilize_unordered S rps plan g' st;
              '(l1, st2) ← nested l' st1;
              Ok ((r, g1) :: l1, st2)
          end) l st) st.
Proof. nested_calls. Qed.

(** A call on a group, with the calls on the groups in it. *)
Lemma plausibilize_removes_once :
  (∀ g st, removes_once (region_id (region rp0))
             (plausibilize_ordered S rps plan g st) st)
  ∧ (∀ g st, removes_once (region_id (region rp0))
               (plausibilize_unordered S rps plan g st) st).
Proof.
  assert (HO : ∀ rri ogi ugi,
            Forall (λ e : Z * option string * ogroup,
                      ∀ st, removes_once (region_id (region rp0))
                              (plausibilize_ordered S rps plan e.2 st) st) ogi →
            Forall (λ e : Z * option string * ugroup,
                      ∀ st, removes_once (region_id (region rp0))
                              (plausibilize_unordered S rps plan e.2 st) st) ugi →
            ∀ st, removes_once (region_id (region rp0))
                    (plausibilize_ordered S rps plan (OGroup rri ogi ugi) st) st).
  { intros rri ogi ugi Ho Hu st. simpl.
    destruct (nested_ordered_indexed ogi Ho st) as (Herr1 & Hok1 & Hmiss1).
    match goal with
    | |- removes_once _ (mbind _ ?r) _ => destruct r as [[ogi1 st1]|e1] eqn:E1; simpl
    end.
    2: { split_and!; [intros ? [= <-]; by apply Herr1 | done |].
         intros Hm. destruct ogi; [done|]. specialize (Hmiss1 Hm ltac:(done)). congruence. }
    destruct (nested_unordered_indexed ugi Hu st1) as (Herr2 & Hok2 & Hmiss2).
    match goal with
    | |- removes_once _ (mbind _ ?r) _ => destruct r as [[ugi1 st2]|e2] eqn:E2; simpl
    end.
    2: { split_and!; [intros ? [= <-]; by apply Herr2 | done |].
         intros Hm. f_equal. by apply Herr2. }
    unfold level_ordered.
    match goal with
    | |- removes_once _ (mbind _ ?r) _ =>
        destruct r as [[[[a b] c] st3]|e3] eqn:E3; simpl
    end.
    - split_and!; [done | |].
      + intros ? ? [= <- <-] Hnd.
        destruct (Hok1 _ _ eq_refl Hnd) as (Hnd1 & _ & _).
        destruct (Hok2 _ _ eq_refl Hnd1) as (Hnd2 & _ & _).
        by eapply (plausibilize_level_gone _ _ _ _ _ _ _ _ _ plan rps rp0 Hin0 Hmark0 Hown0).
      + intros Hm. exfalso.
        assert (Hm2 : region_id (region rp0) ∉ page_TextRegion st2).
        { destruct ogi as [|x ogi].
          - injection E1 as <- <-. destruct ugi as [|y ugi].
            + by injection E2 as <- <-.
            + specialize (Hmiss2 Hm ltac:(done)). congruence.
          - specialize (Hmiss1 Hm ltac:(done)). congruence. }
        rewrite (plausibilize_level_missing _ _ _ _ _ _ _ _ _ plan rps rp0 Hin0 Hmark0 Hown0)
          in E3 by done. done.
    - split_and!; [|done|].
      + intros ? [= <-]. by eapply (plausibilize_level_error (S := S)).
      + intros _. f_equal. by eapply (plausibilize_level_error (S := S)). }
  assert (HU : ∀ rr og ug,
            Forall (λ e : option string * ogroup,
                      ∀ st, removes_once (region_id (region rp0))
                              (plausibilize_ordered S rps plan e.2 st) st) og →
            Forall (λ e : option string * ugroup,
                      ∀ st, removes_once (region_id (region rp0))
                              (plausibilize_unordered S rps plan e.2 st) st) ug →
            ∀ st, removes_once (region_id (region rp0))
                    (plausibilize_unordered S rps plan (UGroup rr og ug) st) st).
  { intros rr og ug Ho Hu st. simpl.
    destruct (nested_ordered og Ho st) as (Herr1 & Hok1 & Hmiss1).
    match goal with
    | |- removes_once _ (mbind _ ?r) _ => destruct r as [[og1 st1]|e1] eqn:E1; simpl
    end.
    2: { split_and!; [intros ? [= <-]; by apply Herr1 | done |].
         intros Hm. f_equal. by apply Herr1. }
    destruct (nested_unordered ug Hu st1) as (Herr2 & Hok2 & Hmiss2).
    match goal with
    | |- removes_once _ (mbind _ ?r) _ => destruct r as [[ug1 st2]|e2] eqn:E2; simpl
    end.
    2: { split_and!; [intros ? [= <-]; by apply Herr2 | done |].
         intros Hm. f_equal. by apply Herr2. }
    unfold level_unordered.
    match goal with
    | |- removes_once _ (mbind _ ?r) _ =>
        destruct r as [[[[a b] c] st3]|e3] eqn:E3; simpl
    end.
    - split_and!; [done | |].
      + intros ? ? [= <- <-] Hnd.
        destruct (Hok1 _ _ eq_refl Hnd) as (Hnd1 & _ & _).
        destruct (Hok2 _ _ eq_refl Hnd1) as (Hnd2 & _ & _).
        by eapply (plausibilize_level_gone _ _ _ _ _ _ _ _ _ plan rps rp0 Hin0 Hmark0 Hown0).
      + intros Hm. exfalso.
        assert (Hm2 : region_id (region rp0) ∉ page_TextRegion st2).
        { destruct og as [|x og].
          - injection E1 as <- <-. destruct ug as [|y ug].
            + by injection E2 as <- <-.
            + specialize (Hmiss2 Hm ltac:(done)). congruence.
          - specialize (Hmiss1 Hm ltac:(done)). congruence. }
        rewrite (plausibilize_level_missing _ _ _ _ _ _ _ _ _ plan rps rp0 Hin0 Hmark0 Hown0)
          in E3 by done. done.
    - split_and!; [|done|].
      + intros ? [= <-]. by eapply (plausibilize_level_error (S := S)).
      + intros _. f_equal. by eapply (plausibilize_level_error (S := S)). }
  split.
  - exact (ogroup_induction
             (λ g, ∀ st, removes_once (region_id (region rp0))
                           (plausibilize_ordered S rps plan g st) st)
             (λ g, ∀ st, removes_once (region_id (region rp0))
                           (plausibilize_unordered S rps plan g st) st) HO HU).
  - exact (ugroup_induction
             (λ g, ∀ st, removes_once (region_id (region rp0))
                           (plausibilize_ordered S rps plan g st) st)
             (λ g, ∀ st, removes_once (region_id (region rp0))
                           (plausibilize_unordered S rps plan g st) st) HO HU).
Qed.

Lemma removes_once_all {Y} (P : Y → PageState S → Prop) (l : list Y) :
  (∀ y st, P y st) → Forall (λ e, ∀ st, P e st) l.
Proof. intros H. apply Forall_forall. intros e _ st. apply H. Qed.

Lemma ordered_group_with_groups rri ogi ugi st :
  ogi ≠ [] ∨ ugi ≠ [] → NoDup (page_TextRegion st) →
  plausibilize_ordered S rps plan (OGroup rri ogi ugi) st = Raise ValueError.
Proof.
  intros Hnested Hnd. destruct plausibilize_removes_once as [HO HU]. simpl.
  destruct (nested_ordered_indexed ogi
              (removes_once_all (λ e st, removes_once _ (plausibilize_ordered S rps plan e.2 st) st)
                 ogi (λ e st, HO e.2 st)) st) as (Herr1 & Hok1 & Hmiss1).
  match goal with
  | |- mbind _ ?r = _ => destruct r as [[ogi1 st1]|e1] eqn:E1; simpl
  end.
  2: { f_equal. by apply Herr1. }
  destruct (Hok1 _ _ eq_refl Hnd) as (Hnd1 & Hnil1 & Hcons1).
  destruct (nested_unordered_indexed ugi
              (removes_once_all (λ e st, removes_once _ (plausibilize_unordered S rps plan e.2 st) st)
                 ugi (λ e st, HU e.2 st)) st1) as (Herr2 & Hok2 & Hmiss2).
  match goal with
  | |- mbind _ ?r = _ => destruct r as [[ugi1 st2]|e2] eqn:E2; simpl
  end.
  2: { f_equal. by apply Herr2. }
  destruct (Hok2 _ _ eq_refl Hnd1) as (Hnd2 & Hnil2 & Hcons2).
  assert (Hm2 : region_id (region rp0) ∉ page_TextRegion st2).
  { destruct ugi as [|y ugi]; [|by apply Hcons2].
    rewrite (Hnil2 eq_refl). destruct Hnested as [Ho | Hu]; [by apply Hcons1 | done]. }
  unfold level_ordered.
  by rewrite (plausibilize_level_missing _ _ _ _ _ _ _ _ _ plan rps rp0 Hin0 Hmark0 Hown0).
Qed.

Lemma unordered_group_with_groups rr og ug st :
  og ≠ [] ∨ ug ≠ [] → NoDup (page_TextRegion st) →
  plausibilize_unordered S rps plan (UGroup rr og ug) st = Raise ValueError.
Proof.
  intros Hnested Hnd. destruct plausibilize_removes_once as [HO HU]. simpl.
  destruct (nested_ordered og
              (removes_once_all (λ e st, removes_once _ (plausibilize_ordered S rps plan e.2 st) st)
                 og (λ e st, HO e.2 st)) st) as (Herr1 & Hok1 & Hmiss1).
  match goal with
  | |- mbind _ ?r = _ => destruct r as [[og1 st1]|e1] eqn:E1; simpl
  end.
  2: { f_equal. by apply Herr1. }
  destruct (Hok1 _ _ eq_refl Hnd) as (Hnd1 & Hnil1 & Hcons1).
  destruct (nested_unordered ug
              (removes_once_all (λ e st, removes_once _ (plausibilize_unordered S rps plan e.2 st) st)
                 ug (λ e st, HU e.2 st)) st1) as (Herr2 & Hok2 & Hmiss2).
  match goal with
  | |- mbind _ ?r = _ => destruct r as [[ug1 st2]|e2] eqn:E2; simpl
  end.
  2: { f_equal. by apply Herr2. }
  destruct (Hok2 _ _ eq_refl Hnd1) as (Hnd2 & Hnil2 & Hcons2).
  assert (Hm2 : region_id (region rp0) ∉ page_TextRegion st2).
  { destruct ug as [|y ug]; [|by apply Hcons2].
    rewrite (Hnil2 eq_refl). destruct Hnested as [Ho | Hu]; [by apply Hcons1 | done]. }
  unfold level_unordered.
  by rewrite (plausibilize_level_missing _ _ _ _ _ _ _ _ _ plan rps rp0 Hin0 Hmark0 Hown0).
Qed.

End NestedGroups.

(** X6: on a reading order whose group holds a group, the executor does
    not get through once the plan marks a region of the page.  Every call
    removes the marked regions from the page, the calls for the groups in
    the group first; the next call does not find them there, and the
    processor ends in [ValueError]. *)
Theorem X6_nested_groups_end_in_ValueError (S : Shapely) (min_overlap : Q)
    (regions : list (TextRegionType S)) (rog : rogroup) (plan : Plan)
    (r : TextRegionType S) :
  plan_page S min_overlap regions = Ok plan →
  NoDup (map region_id regions) →
  r ∈ regions → parent_object_ r = Some OwnerPage → marked plan (region_id r) →
  has_nested rog →
  repair_page S min_overlap true regions rog = Raise ValueError.
Proof.
  intros Hplan Hnd Hr Hown Hmark Hnested.
  unfold repair_page. rewrite Hplan. simpl.
  assert (Hin : region_polygon_of S r ∈ regionspolys S regions).
  { rewrite regionspolys_perm. apply list_elem_of_In, in_map. by apply list_elem_of_In. }
  destruct rog as [|[rri ogi ugi]|[rr og ug]]; simpl in Hnested; [done | |];
    unfold _plausibilize_group.
  - by rewrite (ordered_group_with_groups plan _ _ Hin Hmark Hown).
  - by rewrite (unordered_group_with_groups plan _ _ Hin Hmark Hown).
Qed.

Lemma X6_nested_groups_end_in_ValueError_witness :
  repair_page Boxes.shapely (1 # 2) true
    [Boxes.mk_region "r1" (Boxes.Box 0 0 10 10) [];
     Boxes.mk_region "r2" (Boxes.Box 2 2 4 4) []]
    (Ordered (OGroup [(0%Z, "r1"); (1%Z, "r2")] [(2%Z, None, OGroup [] [] [])] []))
  = Raise ValueError.
Proof.
  apply (X6_nested_groups_end_in_ValueError Boxes.shapely (1 # 2) _ _
           {| mark_for_deletion := ["r2"]; mark_for_merging := ∅ |}
           (Boxes.mk_region "r2" (Boxes.Box 2 2 4 4) [])).
  - vm_compute. reflexivity.
  - apply (bool_decide_unpack _). vm_compute. reflexivity.
  - apply list_elem_of_further, list_elem_of_here.
  - reflexivity.
  - left. apply list_elem_of_here.
  - simpl. by left.
Defined.

(** ** The superregions of a plan *)

Section Superregions.
Context {S : Shapely}.
Implicit Types (p : Plan) (rp : RegionPolygon S).

Lemma compare_pair_super t rp1 rp2 p p' x y :
  compare_pair S t rp1 rp2 p = Ok p' →
  mark_for_merging p' !! x = Some y →
  mark_for_merging p !! x = Some y
  ∨ (x = region_id (region rp1) ∧ y = region_id (region rp2))
  ∨ (x = region_id (region rp2) ∧ y = region_id (region rp1)).
Proof.
  unfold compare_pair. intros H Hx.
  assert (Hmer : ∀ a b, p' = merge_mark a b p →
            mark_for_merging p !! x = Some y ∨ (x = a ∧ y = b)).
  { intros a b ->. simpl in Hx. destruct (decide (a = x)) as [<- | Hne].
    - rewrite lookup_insert_eq in Hx. right. by simplify_eq.
    - rewrite lookup_insert_ne in Hx by done. by left. }
  destruct (classify S _ _); simplify_eq; try (by left).
  inv_bind H. inv_bind H.
  repeat (match type of H with context [if ?b then _ else _] => destruct b end);
    simplify_eq; try (by left).
  - destruct (Hmer _ _ eq_refl) as [? | ?]; [by left | by right; right].
  - destruct (Hmer _ _ eq_refl) as [? | ?]; [by left | by right; left].
Qed.

Lemma compare_with_rest_super t rp1 rest p p' x y :
  compare_with_rest S t rp1 rest p = Ok p' →
  mark_for_merging p' !! x = Some y →
  mark_for_merging p !! x = Some y
  ∨ ∃ rp2, rp2 ∈ rest
      ∧ ((x = region_id (region rp1) ∧ y = region_id (region rp2))
         ∨ (x = region_id (region rp2) ∧ y = region_id (region rp1))).
Proof.
  revert p. induction rest as [|rp2 rest IH]; intros p H Hx; simpl in H.
  - simplify_eq. by left.
  - inv_bind H. destruct (IH _ H Hx) as [Hm | (rp & Hin & Hxy)].
    + destruct (compare_pair_super _ _ _ _ _ _ _ Ha Hm) as [? | Hxy]; [by left|].
      right. exists rp2. split; [apply list_elem_of_here | done].
    + right. exists rp. split; [by apply list_elem_of_further | done].
Qed.

Lemma compare_all_super t rps p p' x y :
  compare_all S t rps p = Ok p' →
  mark_for_merging p' !! x = Some y →
  mark_for_merging p !! x = Some y
  ∨ ∃ l1 rp1 l2 rp2 l3, rps = l1 ++ rp1 :: l2 ++ rp2 :: l3
      ∧ ((x = region_id (region rp1) ∧ y = region_id (region rp2))
         ∨ (x = region_id (region rp2) ∧ y = region_id (region rp1))).
Proof.
  revert p. induction rps as [|rp1 rest IH]; intros p H Hx; simpl in H.
  - simplify_eq. by left.
  - inv_bind H. destruct (IH _ H Hx) as [Hm | (l1 & a1 & l2 & a2 & l3 & -> & Hxy)].
    + destruct (compare_with_rest_super _ _ _ _ _ _ _ Ha Hm) as [? | (rp2 & Hin & Hxy)];
        [by left|].
      apply list_elem_of_split in Hin as (l2 & l3 & ->).
      right. by exists [], rp1, l2, rp2, l3.
    + right. by exists (rp1 :: l1), a1, l2, a2, l3.
Qed.

End Superregions.

(** X1: the planner gets through on a page whose regions have an area, and
    its plan names regions of the page only: every region it marks, for
    deletion or for merging, and every superregion is a text region of the
    page, and no region is merged into itself. *)
Theorem X1_plan_names_regions_of_the_page (S : Shapely) (min_overlap : Q)
    (regions : list (TextRegionType S)) :
  NoDup (map region_id regions) →
  Forall (λ r, has_area S (Coords r)) regions →
  ∃ plan,
    plan_page S min_overlap regions = Ok plan
    ∧ (∀ x, marked plan x → x ∈ map region_id regions)
    ∧ (∀ x y, mark_for_merging plan !! x = Some y →
              y ∈ map region_id regions ∧ x ≠ y).
Proof.
  intros Hnd Harea.
  assert (Hall : Forall (λ rp, has_area S (polygon rp)) (regionspolys S regions)).
  { eapply Permutation_Forall; [symmetry; apply regionspolys_perm|].
    apply Forall_map. eapply Forall_impl; [exact Harea|]. done. }
  destruct (compare_all_total S min_overlap _ empty_plan Hall) as [plan Hplan].
  exists plan. split_and!; [done | intros x; by eapply plan_page_marks |].
  intros x y Hxy.
  destruct (compare_all_super _ _ _ _ _ _ Hplan Hxy)
    as [Hm | (l1 & rp1 & l2 & rp2 & l3 & Heq & Hs)].
  { simpl in Hm. by rewrite lookup_empty in Hm. }
  pose proof (regionspolys_ids regions) as Hids. rewrite Heq in Hids.
  assert (Hnd' : NoDup (map (λ rp : RegionPolygon S, region_id (region rp))
                          (l1 ++ rp1 :: l2 ++ rp2 :: l3))) by (by rewrite Hids).
  rewrite map_app in Hnd'. simpl in Hnd'. rewrite map_app in Hnd'. simpl in Hnd'.
  apply NoDup_app in Hnd' as (_ & _ & Hnd').
  apply NoDup_cons in Hnd' as [Hne _].
  assert (Hdiff : region_id (region rp1) ≠ region_id (region rp2)).
  { intros Heq'. apply Hne. rewrite Heq'. apply elem_of_app. right. apply list_elem_of_here. }
  assert (H1 : region_id (region rp1) ∈ map region_id regions).
  { rewrite <- Hids. rewrite map_app. apply elem_of_app. right. apply list_elem_of_here. }
  assert (H2 : region_id (region rp2) ∈ map region_id regions).
  { rewrite <- Hids. rewrite map_app. apply elem_of_app. right. simpl.
    apply list_elem_of_further. rewrite map_app. apply elem_of_app. right.
    apply list_elem_of_here. }
  destruct Hs as [[-> ->] | [-> ->]]; split; done.
Qed.

Lemma X1_plan_names_regions_of_the_page_witness :
  ∃ plan,
    plan_page Boxes.shapely (1 # 2) [Boxes.left_region; Boxes.right_region] = Ok plan
    ∧ (∀ x y, mark_for_merging plan !! x = Some y → y ∈ ["r1"; "r2"] ∧ x ≠ y).
Proof.
  destruct (X1_plan_names_regions_of_the_page Boxes.shapely (1 # 2)
              [Boxes.left_region; Boxes.right_region]) as (plan & Hplan & _ & Hsuper).
  - apply (bool_decide_unpack _). vm_compute. reflexivity.
  - repeat constructor; intros H; vm_compute in H; discriminate.
  - exists plan. split; [exact Hplan | exact Hsuper].
Defined.

(** ** The sort is stable *)

Lemma insert_sorted_filter {X} (le : X → X → bool) (P : X → Prop)
    `{∀ x, Decision (P x)} (x : X) (l : list X) :
  (∀ y, P x → le x y = false → ¬ P y) →
  filter P (insert_sorted le x l) = filter P (x :: l).
Proof.
  intros Hskip. induction l as [|y l IH]; simpl; [done|].
  destruct (le x y) eqn:E; [done|].
  rewrite filter_cons, IH, !filter_cons.
  destruct (decide (P x)) as [Hx | Hx]; [|done].
  destruct (decide (P y)) as [Hy | Hy]; [|done].
  exfalso. by eapply Hskip.
Qed.

Lemma stable_sort_filter {X} (le : X → X → bool) (P : X → Prop)
    `{∀ x, Decision (P x)} (l : list X) :
  (∀ x y, P x → le x y = false → ¬ P y) →
  filter P (stable_sort le l) = filter P l.
Proof.
  intros Hskip. induction l as [|x l IH]; [done|].
  unfold stable_sort in *. simpl.
  rewrite insert_sorted_filter by (intros y; apply Hskip).
  by rewrite !filter_cons, IH.
Qed.

Lemma filter_split {X} (P : X → Prop) `{∀ x, Decision (P x)} (l a b : list X) (x : X) :
  filter P l = a ++ x :: b →
  ∃ l1 l2, l = l1 ++ x :: l2 ∧ filter P l1 = a ∧ filter P l2 = b.
Proof.
  revert a. induction l as [|y l IH]; intros a Hf.
  - by destruct a.
  - rewrite filter_cons in Hf. destruct (decide (P y)) as [Hy | Hy].
    + destruct a as [|z a]; simpl in Hf; simplify_eq.
      * exists [], l. split_and!; done.
      * destruct (IH _ H1) as (l1 & l2 & -> & <- & <-).
        exists (z :: l1), l2. split_and!; [done | | done].
        rewrite filter_cons. by destruct (decide (P z)).
    + destruct (IH _ Hf) as (l1 & l2 & -> & <- & <-).
      exists (y :: l1), l2. split_and!; [done | | done].
      rewrite filter_cons. by destruct (decide (P y)).
Qed.

Lemma regionspolys_stable (S : Shapely) (regions : list (TextRegionType S)) (a : Q) :
  filter (λ rp, Qeq_bool (area S (polygon rp)) a = true) (regionspolys S regions)
  = filter (λ rp, Qeq_bool (area S (polygon rp)) a = true)
      (map (region_polygon_of S) regions).
Proof.
  unfold regionspolys, sorted_by_area. apply stable_sort_filter.
  intros x y Hx Hle Hy. unfold area_le in Hle.
  apply Qeq_bool_iff in Hx, Hy. apply Qle_bool_false in Hle. apply Hle.
  rewrite Hx, Hy. apply Qle_refl.
Qed.

(** X2: the regions are compared in the order of their areas: all regions
    of the page take part, of the two regions of a comparison the first
    one is not the larger, and regions of the same area are compared in
    the order they have on the page. *)
Theorem X2_regions_are_compared_by_area (S : Shapely)
    (regions : list (TextRegionType S)) :
  regionspolys S regions ≡ₚ map (region_polygon_of S) regions
  ∧ (∀ l1 rp1 l2 rp2 l3,
       regionspolys S regions = l1 ++ rp1 :: l2 ++ rp2 :: l3 →
       (area S (polygon rp1) <= area S (polygon rp2))%Q)
  ∧ ∀ a, filter (λ rp, Qeq_bool (area S (polygon rp)) a = true) (regionspolys S regions)
         = filter (λ rp, Qeq_bool (area S (polygon rp)) a = true)
             (map (region_polygon_of S) regions).
Proof.
  split_and!.
  - apply regionspolys_perm.
  - intros l1 rp1 l2 rp2 l3 Heq. by eapply sorted_by_area_ascending.
  - apply regionspolys_stable.
Qed.

(** X3: of two regions of the same area that are almost equal, the one
    that comes later on the page is marked for deletion. *)
Theorem X3_the_later_of_two_equal_regions_goes (S : Shapely) (min_overlap : Q)
    (l1 l2 l3 : list (TextRegionType S)) (r1 r2 : TextRegionType S) :
  Forall (λ r, has_area S (Coords r)) (l1 ++ r1 :: l2 ++ r2 :: l3) →
  (area S (Coords r1) == area S (Coords r2))%Q →
  almost_equals S (Coords r1) (Coords r2) = true →
  ∃ plan,
    plan_page S min_overlap (l1 ++ r1 :: l2 ++ r2 :: l3) = Ok plan
    ∧ region_id r2 ∈ mark_for_deletion plan.
Proof.
  intros Harea Heq Halmost. set (regions := l1 ++ r1 :: l2 ++ r2 :: l3) in *.
  assert (Hall : Forall (λ rp, has_area S (polygon rp)) (regionspolys S regions)).
  { eapply Permutation_Forall; [symmetry; apply regionspolys_perm|].
    apply Forall_map. eapply Forall_impl; [exact Harea|]. done. }
  destruct (compare_all_total S min_overlap _ empty_plan Hall) as [plan Hplan].
  exists plan. split; [done|].
  pose proof (regionspolys_stable S regions (area S (Coords r1))) as Hst.
  unfold regions in Hst at 2.
  rewrite map_app in Hst. simpl in Hst. rewrite map_app in Hst. simpl in Hst.
  rewrite filter_app, filter_cons in Hst.
  destruct (decide (Qeq_bool (area S (polygon (region_polygon_of S r1)))
                      (area S (Coords r1)) = true)) as [_ | Hn].
  2: { exfalso. apply Hn. apply Qeq_bool_iff. reflexivity. }
  rewrite filter_app, filter_cons in Hst.
  destruct (decide (Qeq_bool (area S (polygon (region_polygon_of S r2)))
                      (area S (Coords r1)) = true)) as [_ | Hn].
  2: { exfalso. apply Hn. apply Qeq_bool_iff. simpl. by symmetry. }
  apply filter_split in Hst as (s1 & s' & Hs & _ & Hst).
  apply filter_split in Hst as (s2 & s3 & -> & _ & _).
  unfold plan_page in Hplan. rewrite Hs in Hplan.
  destruct (compare_all_visits S _ _ _ _ _ _ _ _ Hplan) as (p1 & p2 & Hc & Hsub).
  apply Hsub. unfold compare_pair, classify in Hc. simpl in Hc.
  rewrite Halmost in Hc. simplify_eq. simpl.
  apply elem_of_app. right. apply list_elem_of_here.
Qed.

Lemma X3_the_later_of_two_equal_regions_goes_witness :
  ∃ plan,
    plan_page Boxes.shapely (1 # 2)
      [Boxes.mk_region "r1" (Boxes.Box 0 0 1 1) [];
       Boxes.mk_region "r2" (Boxes.Box 0 0 1 1) []] = Ok plan
    ∧ "r2" ∈ mark_for_deletion plan.
Proof.
  apply (X3_the_later_of_two_equal_regions_goes Boxes.shapely (1 # 2) [] [] []
           (Boxes.mk_region "r1" (Boxes.Box 0 0 1 1) [])
           (Boxes.mk_region "r2" (Boxes.Box 0 0 1 1) [])).
  - repeat constructor; intros H; vm_compute in H; discriminate.
  - reflexivity.
  - reflexivity.
Defined.

(** ** What a merge changes *)

Section Merging.
Context {S : Shapely} {A B C : Type}.
Context (refA : A → option string) (refB : B → option string) (refC : C → option string).
Context (ixA : A → Z) (ixB : B → Z) (ixC : C → Z).
Context (setA : Z → A → A) (setB : Z → B → B) (setC : Z → C → C).
Context (plan : Plan).
Implicit Types (ls : LevelState S (A:=A) (B:=B) (C:=C)) (st : PageState S).








End Merging.



(** X4: in an ordered group that holds nothing but references to distinct
    regions, the references that remain after the executor has run are
    numbered from 0 on in the order of the indices they had. *)
Theorem X4_region_references_are_renumbered (S : Shapely) (min_overlap : Q)
    (regions : list (TextRegionType S)) (rri : list (Z * string)) :
  NoDup (map region_id regions) →
  Forall (λ r, parent_object_ r = Some OwnerPage) regions →
  Forall (λ r, has_area S (Coords r)) regions →
  NoDup (map snd rri) →
  ∃ plan rri' st',
    plan_page S min_overlap regions = Ok plan
    ∧ repair_page S min_overlap true regions (Ordered (OGroup rri [] []))
      = Ok (Ordered (OGroup rri' [] []), st')
    ∧ rri' ≡ₚ reindexed (filter (λ e, ¬ marked plan e.2) rri).
Proof. apply repair_reindexes_region_references. Qed.

Lemma X4_region_references_are_renumbered_witness :
  ∃ plan rri' st',
    plan_page Boxes.shapely (1 # 2) [Boxes.left_region; Boxes.right_region] = Ok plan
    ∧ repair_page Boxes.shapely (1 # 2) true [Boxes.left_region; Boxes.right_region]
        (Ordered (OGroup [(4%Z, "r2"); (7%Z, "r1")] [] []))
      = Ok (Ordered (OGroup rri' [] []), st')
    ∧ rri' ≡ₚ reindexed (filter (λ e, ¬ marked plan e.2) [(4%Z, "r2"); (7%Z, "r1")]).
Proof.
  apply (X4_region_references_are_renumbered Boxes.shapely (1 # 2)
           [Boxes.left_region; Boxes.right_region] [(4%Z, "r2"); (7%Z, "r1")]).
  - apply (bool_decide_unpack _). vm_compute. reflexivity.
  - repeat constructor.
  - repeat constructor; intros H; vm_compute in H; discriminate.
  - apply (bool_decide_unpack _). vm_compute. reflexivity.
Defined.

(** ** The regions of a page *)

Lemma filter_classes_filter (classes : Classes) (l : list Element) :
  classes ≠ ClassesNone →
  filter_classes classes l = Done (List.filter (class_in classes) l).
Proof. by destruct classes, l. Qed.

Lemma list_filter_twice {X} (f : X → bool) (l : list X) :
  List.filter f (List.filter f l) = List.filter f l.
Proof.
  induction l as [|x l IH]; simpl; [done|].
  destruct (f x) eqn:E; simpl; [by rewrite E, IH | done].
Qed.

(** The levels 1, 2 and 3 of the recursion, from the page. *)
Lemma level_1 (limit : nat) (classes : Classes) (regions : list Element) :
  1 ≤ limit →
  get_recursive_regions limit classes regions 1
  = if truthy classes then filter_classes classes regions else Done regions.
Proof. destruct limit; [lia | done]. Qed.

Lemma any_more (x : Element) (rest : list Element) :
  existsb (λ more, negb (bool_decide (more = []))) (map more_of (x :: rest))
  = negb (bool_decide (more_of x = []))
    || existsb (λ more, negb (bool_decide (more = []))) (map more_of rest).
Proof. done. Qed.

Lemma with_more (l : list Element) :
  flat_map (λ rm : Element * list Element, rm.1 :: rm.2) (zip l (map more_of l))
  = flat_map (λ c, c :: more_of c) l.
Proof. induction l as [|c l IH]; simpl; [done|]. by rewrite IH. Qed.

Lemma level_2 (limit : nat) (classes : Classes) (page : Element) :
  2 ≤ limit →
  get_recursive_regions limit classes [page] 2
  = get_recursive_regions (limit - 1) classes (page :: more_of page) 1.
Proof.
  intros Hl. destruct limit as [|limit]; [lia|]. simpl.
  rewrite Nat.sub_0_r, app_nil_r.
  destruct (decide (more_of page = [])) as [E | E].
  - rewrite (bool_decide_eq_true_2 _ E). simpl. by rewrite E.
  - by rewrite (bool_decide_eq_false_2 _ E).
Qed.

Lemma level_3 (limit : nat) (classes : Classes) (page : Element) :
  3 ≤ limit →
  get_recursive_regions limit classes [page] 3
  = get_recursive_regions (limit - 2) classes
      (page :: more_of page ++ flat_map (λ c, c :: more_of c) (more_of page)) 1.
Proof.
  intros Hl. destruct limit as [|limit]; [lia|].
  cbn [get_recursive_regions]. change (3 =? 1)%nat with false. cbv iota.
  change (3 =? 0)%nat with false. cbv iota. change (3 - 1) with 2.
  change (S limit - 2) with (limit - 1).
  destruct (decide (more_of page = [])) as [E | E].
  - simpl. rewrite (bool_decide_eq_true_2 _ E). simpl.
    rewrite E. simpl. by rewrite !level_1 by lia.
  - simpl. rewrite (bool_decide_eq_false_2 _ E). simpl. rewrite app_nil_r.
    destruct limit as [|limit]; [lia|].
    cbn [get_recursive_regions]. change (2 =? 1)%nat with false. cbv iota.
    rewrite any_more, (bool_decide_eq_false_2 _ E). simpl.
    rewrite Nat.sub_0_r. by rewrite with_more.
Qed.

(** X12: with [depth=2], as [process] calls it, the function gives the
    regions of the page first and then, once more, every one of them with
    the regions it holds: a region that lies on the page itself comes
    twice. *)
Theorem X12_regions_of_the_page_come_twice (limit : nat) (page : Element)
    (ro : rogroup) (classes : Classes) :
  3 ≤ limit → classes ≠ ClassesNone →
  page_get_all_regions limit page ro classes DocumentOrder 2
  = Done (List.filter (class_in classes)
            (page :: more_of page ++ flat_map (λ c, c :: more_of c) (more_of page)))
  ∧ ∀ c, c ∈ more_of page → class_in classes c = true →
      ∃ l1 l2 l3,
        page_get_all_regions limit page ro classes DocumentOrder 2
        = Done (l1 ++ c :: l2 ++ c :: l3).
Proof.
  intros Hl Hc.
  assert (Heq : page_get_all_regions limit page ro classes DocumentOrder 2
                = Done (List.filter (class_in classes)
                          (page :: more_of page
                           ++ flat_map (λ c, c :: more_of c) (more_of page)))).
  { unfold page_get_all_regions. change (if (2 =? 0)%nat then 0 else 2 + 1) with 3.
    rewrite level_3, level_1 by lia.
    destruct (truthy classes).
    - rewrite filter_classes_filter by done. unfold mbind, attempt_bind.
      rewrite filter_classes_filter by done. by rewrite list_filter_twice.
    - unfold mbind, attempt_bind. by rewrite filter_classes_filter. }
  split; [exact Heq|].
  intros c Hin Hcl. rewrite Heq.
  apply list_elem_of_split in Hin as (a & b & Hab).
  rewrite Hab. rewrite flat_map_app. simpl.
  exists (List.filter (class_in classes) (page :: a)),
         (List.filter (class_in classes)
            (b ++ flat_map (λ c0, c0 :: more_of c0) a)),
         (List.filter (class_in classes)
            (more_of c ++ flat_map (λ c0, c0 :: more_of c0) b)).
  f_equal.
  transitivity (List.filter (class_in classes)
                  ((page :: a) ++ [c] ++ (b ++ flat_map (λ c0, c0 :: more_of c0) a)
                   ++ [c] ++ (more_of c ++ flat_map (λ c0, c0 :: more_of c0) b))).
  { f_equal. simpl. by rewrite <- !app_assoc. }
  rewrite !List.filter_app. simpl. by rewrite Hcl.
Qed.

Lemma X12_regions_of_the_page_come_twice_witness :
  page_get_all_regions 1000
    (MkElement "PageType" None [MkElement "TextRegionType" (Some "r1") []])
    NoGroup (ClassesStr "Text") DocumentOrder 2
  = Done [MkElement "TextRegionType" (Some "r1") [];
          MkElement "TextRegionType" (Some "r1") []].
Proof.
  rewrite (proj1 (X12_regions_of_the_page_come_twice 1000
                    (MkElement "PageType" None [MkElement "TextRegionType" (Some "r1") []])
                    NoGroup (ClassesStr "Text") ltac:(lia) ltac:(discriminate))).
  vm_compute. reflexivity.
Defined.

(** The recursion from a list of regions that is not empty, without a
    filter. *)
Lemma get_recursive_regions_unfiltered (limit level : nat) (regions : list Element) :
  1 ≤ level ≤ limit → regions ≠ [] →
  ∃ ret, get_recursive_regions limit ClassesNone regions level = Done ret ∧ ret ≠ [].
Proof.
  revert level regions. induction limit as [|limit IH]; intros level regions Hl Hne; [lia|].
  simpl. destruct (level =? 1)%nat eqn:E1; [by exists regions|].
  apply Nat.eqb_neq in E1.
  destruct (negb _).
  - apply IH; [lia | done].
  - destruct (level =? 0)%nat eqn:E0; [apply Nat.eqb_eq in E0; lia|].
    apply IH; [lia|]. by destruct regions.
Qed.

(** X13: without [classes], which is the default, the function ends in
    [TypeError] in document order: the last filter tests every region
    against [None], and the page itself is always among the regions. *)
Theorem X13_no_classes_is_a_TypeError (limit : nat) (page : Element) (ro : rogroup)
    (depth : nat) :
  1 ≤ depth → depth + 1 ≤ limit →
  page_get_all_regions limit page ro ClassesNone DocumentOrder depth = Failed TypeError.
Proof.
  intros Hd Hl. unfold page_get_all_regions.
  destruct (depth =? 0)%nat eqn:E0; [apply Nat.eqb_eq in E0; lia|].
  destruct (get_recursive_regions_unfiltered limit (depth + 1) [page])
    as (ret & -> & Hne); [lia | done |].
  simpl. by destruct ret.
Qed.

Lemma X13_no_classes_is_a_TypeError_witness :
  page_get_all_regions 1000
    (MkElement "PageType" None [MkElement "TextRegionType" (Some "r1") []])
    NoGroup ClassesNone DocumentOrder 1 = Failed TypeError.
Proof.
  apply (X13_no_classes_is_a_TypeError 1000
           (MkElement "PageType" None [MkElement "TextRegionType" (Some "r1") []])
           NoGroup 1); lia.
Defined.

(** The recursion without a bound on the depth, from the page. *)
Lemma get_recursive_regions_unbounded (limit : nat) (classes : Classes)
    (page : Element) (rest : list Element) :
  more_of page ≠ [] →
  get_recursive_regions limit classes (page :: rest) 0 = Failed RecursionError.
Proof.
  intros Hmore. revert rest. induction limit as [|limit IH]; intros rest; [done|].
  cbn [get_recursive_regions]. change (0 =? 1)%nat with false. cbv iota.
  rewrite any_more, (bool_decide_eq_false_2 _ Hmore). simpl. apply IH.
Qed.

(** X14: with [depth=0], which stands for any depth, the function does not
    come to an end on a page that holds a region: every round finds the
    regions of the page again, so the rounds do not stop, whatever room
    the stack has. *)
Theorem X14_unbounded_depth_does_not_end (limit : nat) (page : Element) (ro : rogroup)
    (classes : Classes) (order : Order) :
  more_of page ≠ [] →
  page_get_all_regions limit page ro classes order 0 = Failed RecursionError.
Proof.
  intros Hmore. unfold page_get_all_regions. simpl.
  by rewrite get_recursive_regions_unbounded.
Qed.

Lemma X14_unbounded_depth_does_not_end_witness :
  page_get_all_regions 1000
    (MkElement "PageType" None [MkElement "TextRegionType" (Some "r1") []])
    NoGroup (ClassesStr "Text") DocumentOrder 0 = Failed RecursionError.
Proof.
  apply (X14_unbounded_depth_does_not_end 1000
           (MkElement "PageType" None [MkElement "TextRegionType" (Some "r1") []])
           NoGroup (ClassesStr "Text") DocumentOrder).
  vm_compute. discriminate.
Defined.

(** ** The fill of a marked line *)

(** X9: [mark_line] draws every line it marks with the value 255: the
    value 200, for the class [ADDRESS_NONE], is never used, for the
    function has returned on that class before. *)
Theorem X9_marked_lines_are_drawn_with_255 (S : Shapely) (line : TextLineType S) :
  mark_line_fill line = if mark_line S line then Some 255%Z else None.
Proof.
  unfold mark_line_fill, mark_line.
  destruct (line_custom line) as [c|]; [|done].
  destruct (String.eqb c ""); [done|].
  destruct (startswith _ _); simpl; [|done].
  by destruct (String.eqb _ "ADDRESS_NONE").
Qed.

(** ** The contour of a sanitized region *)

Section SanitizeFacts.
Context (S : Shapely) (contourArea : Contour → Q).

Lemma pick_contour_chosen total contours p :
  pick_contour S contourArea total contours (Some p)
  = match List.filter (qualifies S contourArea total) contours with
    | [] => Some p
    | _ :: _ => None
    end.
Proof.
  induction contours as [|c l IH]; simpl; [done|]. unfold qualifies at 1.
  destruct (Qlt_bool _ _); simpl; [exact IH|].
  destruct (_ <? 4)%nat; simpl; [exact IH | done].
Qed.

Lemma pick_contour_spec total contours :
  pick_contour S contourArea total contours None
  = match List.filter (qualifies S contourArea total) contours with
    | [contour] => Some (simplified_ring S contour)
    | _ => None
    end.
Proof.
  induction contours as [|c l IH]; simpl; [done|]. unfold qualifies at 1.
  destruct (Qlt_bool _ _); simpl; [exact IH|].
  destruct (_ <? 4)%nat; simpl; [exact IH|].
  rewrite pick_contour_chosen. by destruct (List.filter _ l).
Qed.

End SanitizeFacts.

(** X7: sanitizing gives a region new coordinates only when exactly one
    contour of the mask of its lines has a tenth of the area of all
    contours and a ring of four points: these are the points of that
    contour, simplified.  Without lines, without an area, without such a
    contour, or with more than one, the region stays as it is. *)
Theorem X7_one_contour_gives_the_coordinates (S : Shapely) (contourArea : Contour → Q)
    (region : TextRegionType S) (contours : list Contour) :
  sanitize_region S contourArea region contours
  = if bool_decide (TextLine region = []) then region
    else if Qeq_zero (total_area_of contourArea contours) then region
    else match List.filter (qualifies S contourArea (total_area_of contourArea contours))
                 contours with
         | [contour] => set_Coords S (Polygon S (simplified_ring S contour)) region
         | _ => region
         end.
Proof.
  unfold sanitize_region. destruct (TextLine region) as [|l ls]; [done|].
  rewrite bool_decide_eq_false_2 by done.
  destruct (Qeq_zero _); [done|]. rewrite pick_contour_spec.
  by destruct (List.filter _ _) as [|c [|c' l']].
Qed.

(** ** Validation *)

Section ValidateFacts.
Context (S : Shapely).
Context (get_Baseline : TextLineType S → option (Geom S)).
Context (get_Word : TextLineType S → list (WordType S)).

(** What there is to say about [valid], and about the log. *)
Context (g : Validity → Prop).
Context (Hcheck : ∀ ok w v, g (check ok w v) ↔ g v ∧ ok = true).

Lemma foldl_checks {X} (step : Validity → X → Validity) (φ : X → Prop) (l : list X) v :
  (∀ v x, g (step v x) ↔ g v ∧ φ x) →
  g (foldl step v l) ↔ g v ∧ Forall φ l.
Proof.
  intros Hstep. revert v. induction l as [|x l IH]; intros v; simpl.
  - split; [by intros ? | by intros [? _]].
  - rewrite IH, Hstep, Forall_cons. tauto.
Qed.

Lemma validate_word_fits region line v word :
  g (validate_word S region line v word)
  ↔ g v ∧ (within S (word_Coords word) (line_Coords line) = true
           ∧ Forall (λ glyph, within S (glyph_Coords glyph) (word_Coords word) = true)
               (Glyph word)).
Proof.
  unfold validate_word.
  rewrite (foldl_checks _ (λ glyph, within S (glyph_Coords glyph) (word_Coords word) = true)).
  - rewrite Hcheck. unfold _child_within_parent. tauto.
  - intros v' glyph. unfold validate_glyph. by rewrite Hcheck.
Qed.

Lemma validate_line_fits region v line :
  g (validate_line S get_Baseline get_Word region v line)
  ↔ g v ∧ line_fits S get_Baseline get_Word region line.
Proof.
  unfold validate_line, line_fits.
  rewrite (foldl_checks _ _ _ _ (validate_word_fits (region_id region) line)).
  destruct (get_Baseline line) as [baseline|].
  - rewrite !Hcheck. unfold _child_within_parent. split.
    + intros [[[? ?] ?] ?]. split_and!; [done..| |done]. by intros ? [= <-].
    + intros [? [? [Hb ?]]]. split_and!; [done..| |done]. by apply Hb.
  - rewrite Hcheck. unfold _child_within_parent. split.
    + intros [[? ?] ?]. split_and!; done.
    + intros [? [? [_ ?]]]. split_and!; done.
Qed.

Lemma validate_coords_fits Border regions other_regions :
  g (true, []) →
  g (validate_coords S get_Baseline get_Word Border regions other_regions)
  ↔ page_fits S get_Baseline get_Word Border regions other_regions.
Proof.
  intros Hstart. unfold validate_coords, page_fits.
  rewrite (foldl_checks _ (λ region, Forall (line_fits S get_Baseline get_Word region)
                                       (TextLine region))).
  2: { intros v region. unfold validate_region.
       apply foldl_checks. intros v' line. apply validate_line_fits. }
  destruct Border as [border|].
  - rewrite (foldl_checks _ (λ r : string * Geom S, within S r.2 border = true)).
    2: { intros v r. unfold validate_border. by rewrite Hcheck. }
    rewrite Forall_app, Forall_map. simpl. split.
    + intros [[_ [? ?]] ?]. split; [|done]. by intros ? [= <-].
    + intros [Hb ?]. destruct (Hb border eq_refl). split_and!; done.
  - split.
    + intros [_ ?]. split; [|done]. by intros ? [=].
    + intros [_ ?]. split; done.
Qed.

End ValidateFacts.

(** X8: [validate_coords] gives [True] exactly when no child extends beyond
    its parent: every region lies within the border of the page, when
    there is one, and in every text region every line within the region,
    its baseline and its words within the line, and the glyphs within
    their words; and exactly then it logs no warning. *)
Theorem X8_valid_means_every_child_within_its_parent (S : Shapely)
    (get_Baseline : TextLineType S → option (Geom S))
    (get_Word : TextLineType S → list (WordType S))
    (Border : option (Geom S)) (regions : list (TextRegionType S))
    (other_regions : list (string * Geom S)) :
  let v := validate_coords S get_Baseline get_Word Border regions other_regions in
  (v.1 = true ↔ page_fits S get_Baseline get_Word Border regions other_regions)
  ∧ (v.2 = [] ↔ v.1 = true).
Proof.
  intros v.
  assert (H1 : v.1 = true
               ↔ page_fits S get_Baseline get_Word Border regions other_regions).
  { apply (validate_coords_fits S get_Baseline get_Word (λ v, v.1 = true)); [|done].
    intros ok w v'. unfold check. destruct ok; simpl; [tauto|].
    split; [done | by intros [_ ?]]. }
  assert (H2 : v.2 = []
               ↔ page_fits S get_Baseline get_Word Border regions other_regions).
  { apply (validate_coords_fits S get_Baseline get_Word (λ v, v.2 = [])); [|done].
    intros ok w v'. unfold check. destruct ok; simpl; [tauto|].
    split; [|by intros [_ ?]]. intros H. by apply app_eq_nil in H as [_ ?]. }
  split; [done | by rewrite H1, H2].
Qed.

(** ** What comes onto the page *)

Lemma select_Keep worse best i d :
  select worse best i d = Ok Keep → (i ∉ worse) ∧ class_id d ≠ 0%Z.
Proof.
  unfold select. destruct (decide (i ∈ worse)) as [Hw | Hw].
  - by rewrite (bool_decide_eq_true_2 _ Hw).
  - rewrite (bool_decide_eq_false_2 _ Hw).
    destruct (class_id d =? 0)%Z eqn:E; [done|]. apply Z.eqb_neq in E. done.
Qed.

Lemma annotate_page (S : Shapely) (CV : OpenCV) (i : nat) (d : Detection)
    (allregions : list (TextRegionType S)) (allpolys : list (Geom S))
    (st st' : AddressState S) x :
  annotate S CV i d allregions allpolys st = Ok st' →
  x ∈ page_TextRegion (a_page st') →
  x ∈ page_TextRegion (a_page st) ∨ x = "addressregion" +:+ fmt02 (i + 1).
Proof.
  unfold annotate. intros H Hx.
  inv_bind H. inv_bind H. destruct a0 as [scale rpoly].
  inv_bind H. destruct a0 as [c st1].
  destruct (visit_neighbours_guard _ _ _ _ _ _ Ha1) as [_ Hpage].
  opose proof (visit_neighbours_lines _ _ _ _ _ _ [] _ _ Ha1)
    as (_ & _ & Hid & _); [done | done |].
  destruct (has_address c); simplify_eq.
  - simpl in Hx. apply elem_of_app in Hx as [Hx | Hx]; [left; by apply Hpage|].
    apply list_elem_of_singleton in Hx. right. by rewrite Hx, Hid.
  - left. by apply Hpage.
Qed.

Lemma annotate_all_page (S : Shapely) (CV : OpenCV) worse best
    (allregions : list (TextRegionType S)) (allpolys : list (Geom S))
    (l : list (nat * Detection)) (st st' : AddressState S) x :
  annotate_all S CV worse best allregions allpolys l st = Ok st' →
  x ∈ page_TextRegion (a_page st') →
  x ∈ page_TextRegion (a_page st)
  ∨ ∃ i d, (i, d) ∈ l ∧ (i ∉ worse) ∧ class_id d ≠ 0%Z
           ∧ x = "addressregion" +:+ fmt02 (i + 1).
Proof.
  revert st. induction l as [|[i d] l IH]; intros st H Hx; simpl in H.
  - simplify_eq. by left.
  - inv_bind H. inv_bind H.
    destruct (IH _ H Hx) as [Hin | (j & dj & Hj & Hrest)].
    + destruct a as [|].
      * simplify_eq. by left.
      * destruct (annotate_page _ _ _ _ _ _ _ _ _ Ha0 Hin) as [? | ->]; [by left|].
        right. exists i, d. destruct (select_Keep _ _ _ _ Ha) as [? ?].
        split_and!; [apply list_elem_of_here | done..].
    + right. exists j, dj. split; [by apply list_elem_of_further | done].
Qed.

(** X25: the processor adds nothing to the page but the regions of its
    detections: a region that is on the page afterwards was there before,
    or it is the region [addressregion<i+1>] of a detection [i] that is
    not marked worse. *)
Theorem X25_only_address_regions_are_added (S : Shapely) (CV : OpenCV)
    (preds : list Detection) (allregions : list (TextRegionType S))
    (allpolys : list (Geom S)) (st st' : AddressState S) (x : string) :
  classify_page S CV preds allregions allpolys st = Ok st' →
  x ∈ page_TextRegion (a_page st') →
  x ∈ page_TextRegion (a_page st)
  ∨ ∃ i d, preds !! i = Some d ∧ (i ∉ worse_of preds) ∧ class_id d ≠ 0%Z
           ∧ x = "addressregion" +:+ fmt02 (i + 1).
Proof.
  unfold classify_page. intros H Hx.
  destruct (annotate_all_page _ _ _ _ _ _ _ _ _ _ H Hx) as [? | (i & d & Hin & Hrest)];
    [by left|].
  right. exists i, d. split; [by apply elem_of_enumerate | done].
Qed.

Lemma X25_only_address_regions_are_added_witness :
  ∃ st',
    classify_page Boxes.shapely Boxes.opencv [detection 1 (9 # 10) block]
      [Boxes.region_without_address] [Boxes.Box 0 0 1 1]
      Boxes.page_without_address = Ok st'
    ∧ ∀ x, x ∈ page_TextRegion (a_page st') →
           x ∈ ["r1"]
           ∨ ∃ i d, [detection 1 (9 # 10) block] !! i = Some d
                    ∧ (i ∉ worse_of [detection 1 (9 # 10) block])
                    ∧ class_id d ≠ 0%Z
                    ∧ x = "addressregion" +:+ fmt02 (i + 1).
Proof.
  destruct (classify_page Boxes.shapely Boxes.opencv [detection 1 (9 # 10) block]
              [Boxes.region_without_address] [Boxes.Box 0 0 1 1]
              Boxes.page_without_address) as [st'|e] eqn:Hrun;
    [|vm_compute in Hrun; discriminate].
  exists st'. split; [reflexivity|]. intros x Hx.
  exact (X25_only_address_regions_are_added Boxes.shapely Boxes.opencv
           [detection 1 (9 # 10) block] [Boxes.region_without_address]
           [Boxes.Box 0 0 1 1] Boxes.page_without_address st' x Hrun Hx).
Defined.

(** ** The regions in reading order *)

Lemma id2region_of_lookup (ret : list Element) (d d' : gmap string Element) i e :
  id2region_of ret d = Done d' → d' !! i = Some e →
  d !! i = Some e ∨ (e ∈ ret ∧ element_id e = Some i).
Proof.
  revert d. induction ret as [|r ret IH]; intros d H He; simpl in H.
  - simplify_eq. by left.
  - destruct (element_id r) as [j|] eqn:Hj; [|done].
    destruct (IH _ H He) as [Hd | [Hin Hid]].
    + destruct (decide (j = i)) as [-> | Hne].
      * rewrite lookup_insert_eq in Hd. simplify_eq. right.
        split; [apply list_elem_of_here | done].
      * rewrite lookup_insert_ne in Hd by done. by left.
    + right. split; [by apply list_elem_of_further | done].
Qed.

Lemma in_references (reading_order : list (option string)) (d : gmap string Element) e :
  e ∈ omap (λ region_id : option string, region_id ≫= λ i, d !! i) reading_order →
  ∃ i, Some i ∈ reading_order ∧ d !! i = Some e.
Proof.
  intros H. apply list_elem_of_omap in H as ([i|] & Hin & Hl); [|done].
  by exists i.
Qed.

Lemma filter_classes_elem_of classes l l' e :
  filter_classes classes l = Done l' → e ∈ l' → e ∈ l.
Proof.
  intros H He.
  assert (Hf : l' = List.filter (class_in classes) l).
  { destruct classes, l; simpl in H; by simplify_eq. }
  subst l'. apply list_elem_of_In, filter_In in He as [He _]. by apply list_elem_of_In.
Qed.

(** X15: in reading order, the function gives the regions that the reading
    order refers to, and no others: a region of the page that no element
    of the reading order refers to is left out. *)
Theorem X15_reading_order_leaves_out_the_rest (limit : nat) (page : Element)
    (ro : rogroup) (classes : Classes) (depth : nat) (l : list Element) (e : Element) :
  references ro ≠ [] →
  page_get_all_regions limit page ro classes ReadingOrder depth = Done l →
  e ∈ l →
  ∃ i, element_id e = Some i ∧ Some i ∈ references ro.
Proof.
  unfold page_get_all_regions. intros Hne H He.
  destruct (get_recursive_regions _ _ _ _) as [ret|]; [|done]. simpl in H.
  assert (Hcase : ∀ reading_order, reading_order ≠ [] → reading_order = references ro →
            (if bool_decide (reading_order = []) then Done ret
             else id2region_of ret ∅
                  ≫= λ id2region,
                       Done (omap (λ region_id : option string,
                                     region_id ≫= λ i, id2region !! i) reading_order))
            ≫= (λ ret0, filter_classes classes ret0) = Done l →
            ∃ i, element_id e = Some i ∧ Some i ∈ references ro).
  { intros reading_order Hr Heq Hrun.
    rewrite (bool_decide_eq_false_2 _ Hr) in Hrun.
    destruct (id2region_of ret ∅) as [d|] eqn:Hd; [|done]. simpl in Hrun.
    eapply filter_classes_elem_of in He; [|exact Hrun].
    apply in_references in He as (i & Hi & Hl).
    destruct (id2region_of_lookup _ _ _ _ _ Hd Hl) as [Hempty | [_ Hid]].
    - by rewrite lookup_empty in Hempty.
    - exists i. by rewrite <- Heq. }
  destruct ro as [|g|g]; [done | |]; by eapply Hcase.
Qed.

Lemma X15_reading_order_leaves_out_the_rest_witness :
  page_get_all_regions 1000
    (MkElement "PageType" None
       [MkElement "TextRegionType" (Some "r1") [];
        MkElement "TextRegionType" (Some "r2") []])
    (Unordered (UGroup ["r2"] [] [])) (ClassesStr "Text") ReadingOrder 1
  = Done [MkElement "TextRegionType" (Some "r2") []]
  ∧ ∃ i, element_id (MkElement "TextRegionType" (Some "r2") []) = Some i
         ∧ Some i ∈ references (Unordered (UGroup ["r2"] [] [])).
Proof.
  assert (Hrun : page_get_all_regions 1000
            (MkElement "PageType" None
               [MkElement "TextRegionType" (Some "r1") [];
                MkElement "TextRegionType" (Some "r2") []])
            (Unordered (UGroup ["r2"] [] [])) (ClassesStr "Text") ReadingOrder 1
          = Done [MkElement "TextRegionType" (Some "r2") []])
    by (vm_compute; reflexivity).
  split; [exact Hrun|].
  apply (X15_reading_order_leaves_out_the_rest 1000
           (MkElement "PageType" None
              [MkElement "TextRegionType" (Some "r1") [];
               MkElement "TextRegionType" (Some "r2") []])
           (Unordered (UGroup ["r2"] [] [])) (ClassesStr "Text") 1
           [MkElement "TextRegionType" (Some "r2") []]).
  - vm_compute. discriminate.
  - exact Hrun.
  - apply list_elem_of_here.
Defined.
